(** * Fortune sweep-line Voronoi builder (src/fortune/main.js)

    A shallow embedding of the engine in [main.js] and the properties of
    its event queue, beachline, edge writer and finalization.

    Numbers.  A JavaScript number is an IEEE-754 binary64 value; it is
    modelled by Rocq's primitive [float], whose operations are the same
    binary64 operations (round to nearest, ties to even), so [Infinity],
    [-Infinity], [NaN] and signed zeros behave as they do in the engine.

    Objects.  A [null] or [undefined] reference is [None].  Objects that
    the engine compares by identity carry their identity explicitly:
    sites carry an object identity, arcs live in an arena and are named
    by their index, active sites are named by their position in the
    [activeSites] array, vertex events carry an identity.  A property
    access on [null]/[undefined] throws a [TypeError] in the engine; a
    function that can throw returns [option], with [None] for the throw.

    Sorting.  [Array.prototype.sort] is [Array_sort].  With a comparator
    that is a consistent order the language fixes its result; with an
    inconsistent one (a vertex event whose key is [NaN]) the result is
    the engine's choice, and [Array_sort] makes the choice of V8.  The
    properties of the runs of the engine are stated for every choice:
    [engine_steps] lets each step leave the sorted arrays in any order. *)

From Stdlib Require Import Bool ZArith Lia Floats Sorted.
From stdpp Require Import base option list sets sorting.

#[local] Set Warnings "-clear-no-such-hyp".

(** ** Geometry primitives *)

Record Coordinate := mkCoordinate { x : float; y : float }.

Definition Infinity : float := infinity.
Definition Number_EPSILON : float := 0x1p-52%float.
Definition Math_sqrt : float -> float := PrimFloat.sqrt.

(** JavaScript's [a > b] on numbers is [b < a]. *)
Definition gtb (a b : float) : bool := (b <? a)%float.

Module Geometry.
Local Open Scope float_scope.

Definition parabolaPointY (focus : Coordinate) (directrix xPos : float) : float :=
  let directrix := directrix - y focus in
  let xPos := xPos - x focus in
  (((directrix * directrix) - (xPos * xPos)) / (2 * directrix)) + y focus.

Definition getNormal (vector : Coordinate) : Coordinate :=
  let divisor := Math_sqrt (x vector * x vector + y vector * y vector) in
  let unitVector := mkCoordinate (x vector / divisor) (y vector / divisor) in
  mkCoordinate (y unitVector) (- x unitVector).

Definition distanceFromPlane (a b point : Coordinate) : float :=
  let normal := getNormal (mkCoordinate (x b - x a) (y b - y a)) in
  let transformedPoint := mkCoordinate (x point - x a) (y point - y a) in
  x normal * x transformedPoint + y normal * y transformedPoint.

Definition bisectorY (a b : Coordinate) (xVal : float) : float :=
  let midX := (x a + x b) / 2 in
  let midY := (y a + y b) / 2 in
  let inverseGrad :=
    if y b - y a =? 0 then Number_EPSILON
    else (x a - x b) / (y b - y a) in
  (xVal - midX) * inverseGrad + midY.

End Geometry.
Export Geometry.

(** [segmentY] and [segmentX]: the point of the line through [a] and [b]
    at a given x, or at a given y. *)
Module Segment.
Local Open Scope float_scope.

Definition segmentY (a b : Coordinate) (xVal : float) : float :=
  let gradient :=
    if x b - x a =? 0 then Number_EPSILON
    else (y b - y a) / (x b - x a) in
  (xVal - x a) * gradient + y a.

Definition segmentX (a b : Coordinate) (yVal : float) : float :=
  let gradient :=
    if x b - x a =? 0 then Number_EPSILON
    else (y b - y a) / (x b - x a) in
  (yVal - y a) / gradient + x a.

End Segment.
Export Segment.

(** [circle] is given after the model of [Array.prototype.sort]. *)

(** ** Array.prototype.sort

    The language fixes the sorted array when the comparator is a
    consistent order: the sort is stable.  When it is not (a [NaN] key
    makes every comparison with that key a tie), the order is the engine's
    choice.  The model follows V8: the comparator's result is read only
    through [order < 0], a [NaN] counting as 0; the leading run (ascending,
    or strictly descending and then reversed) is kept, and the other
    elements are inserted one by one by binary search.  That is the whole
    of V8's sort for arrays of fewer than 64 elements; longer arrays are
    cut into runs that are sorted this way and merged, which gives the
    same array when the comparator is consistent.  Statements about runs
    of the engine do not rely on this choice: they hold for every order a
    sort may leave (see [same_up_to_order]). *)

Section ArraySort.
Context {A : Type} (compareFn : A -> A -> float).

(** [order < 0] for the call [compareFn a b]. *)
Definition order_negative (a b : A) : bool := (compareFn a b <? 0)%float.

(** The number of elements of [l] that extend the run ending in
    [previous]. *)
Fixpoint run_extension (isDescending : bool) (previous : A) (l : list A) : nat :=
  match l with
  | [] => 0
  | current :: t =>
      if Bool.eqb (order_negative current previous) isDescending
      then S (run_extension isDescending current t)
      else 0
  end.

(** The leading run, put in order, and the elements after it. *)
Definition CountAndMakeRun (l : list A) : list A * list A :=
  match l with
  | elementHigh :: elementLow :: t =>
      let isDescending := order_negative elementLow elementHigh in
      let runLength := 2 + run_extension isDescending elementLow t in
      let run := take runLength l in
      (if isDescending then reverse run else run, drop runLength l)
  | _ => (l, [])
  end.

(** The loop [while (left < right)] of the binary insertion.  Every
    iteration narrows the interval, so [fuel] iterations are enough when
    [right - left <= fuel] ([binary_search_fuel]). *)
Fixpoint binary_search (fuel : nat) (pivot : A) (sorted : list A) (left right : nat) : nat :=
  match fuel with
  | O => left
  | S fuel =>
      if left <? right then
        let mid := left + (right - left) / 2 in
        match sorted !! mid with
        | Some element =>
            if order_negative pivot element
            then binary_search fuel pivot sorted left mid
            else binary_search fuel pivot sorted (S mid) right
        | None => left
        end
      else left
  end.

Definition binary_insert (sorted : list A) (pivot : A) : list A :=
  let left := binary_search (length sorted) pivot sorted 0 (length sorted) in
  take left sorted ++ pivot :: drop left sorted.

Definition Array_sort (l : list A) : list A :=
  let '(run, rest) := CountAndMakeRun l in foldl binary_insert run rest.

End ArraySort.

Module Circle.
Local Open Scope float_scope.

Record CircleResult := mkCircleResult { centre : Coordinate; radius : float }.

Definition circle_compare (a b : Coordinate) : float :=
  if y a =? y b then x a - x b else y a - y b.

(** The body of [circle] after [a], [b], [c] were rebound to the sorted
    points. *)
Definition circle_sorted (a b c : Coordinate) : CircleResult :=
  let mabx := (x a + x b) / 2 in
  let maby := (y a + y b) / 2 in
  let mbcx := (x b + x c) / 2 in
  let mbcy := (y b + y c) / 2 in
  let igab := if y b - y a =? 0 then Infinity else (x a - x b) / (y b - y a) in
  let igbc := if y c - y b =? 0 then Infinity else (x b - x c) / (y c - y b) in
  let '(xVal, yVal) :=
    if igab =? Infinity then
      let xVal := mabx in (xVal, (xVal - mbcx) * igbc + mbcy)
    else if igbc =? Infinity then
      let xVal := mbcx in (xVal, (xVal - mabx) * igab + maby)
    else
      let xVal := (mabx * igab - mbcx * igbc + mbcy - maby) / (igab - igbc) in
      (xVal, (xVal - mabx) * igab + maby) in
  let radius := Math_sqrt ((x a - xVal) * (x a - xVal) + (y a - yVal) * (y a - yVal)) in
  mkCircleResult (mkCoordinate xVal yVal) radius.

Definition circle (a b c : Coordinate) : CircleResult :=
  match Array_sort circle_compare [a; b; c] with
  | [a; b; c] => circle_sorted a b c
  | _ => mkCircleResult (mkCoordinate nan nan) nan (* a sorted triple has three entries *)
  end.

End Circle.
Export Circle.

(** ** Data model *)

(** A site is a [Coordinate] object handed in by the caller; the engine
    compares sites with [==], that is by object identity. *)
Record Site := mkSite { site_ref : nat; site_point :> Coordinate }.

Definition same_site (a b : Site) : bool := Nat.eqb (site_ref a) (site_ref b).

Record SiteEvent := mkSiteEvent { point : Site }.

(** [arcs0], [arcs1], [arcs2] are [arcs[0]], [arcs[1]], [arcs[2]]: references
    into the arc arena.  [event_ref] is the identity of the event object. *)
Record VertexEvent := mkVertexEvent {
  event_ref : nat;
  arcs0 : nat; arcs1 : nat; arcs2 : nat;
  eventPoint : Coordinate;
  vertexPoint : Coordinate
}.

Record EventResult := mkEventResult {
  isSiteEvent : bool;
  siteEvent : option SiteEvent;
  vertexEvent : option VertexEvent
}.

(** [activeSite] is a reference to an [ActiveSite] object: its position in
    the [activeSites] array, which only ever grows. *)
Record ParabolaArc := mkParabolaArc {
  activeSite : nat;
  leftArc : option nat;
  rightArc : option nat
}.

Record ActiveSite := mkActiveSite { site : Site; arcs : list nat }.

Record Edge := mkEdge {
  leftFace : Site;
  rightFace : Site;
  firstVertex : option Coordinate;
  lastVertex : option Coordinate
}.

(** ** PriorityQueue *)

Record PriorityQueue := mkPriorityQueue {
  siteEvents : list SiteEvent;
  vertexEvents : list VertexEvent
}.

Module Queue.
Local Open Scope float_scope.

Definition sortSites_compare (a b : SiteEvent) : float :=
  if y (point a) =? y (point b) then x (point b) - x (point a)
  else if gtb (y (point a)) (y (point b)) then -1
  else 1.

Definition sortVertices_compare (a b : VertexEvent) : float :=
  if y (eventPoint a) =? y (eventPoint b) then x (eventPoint b) - x (eventPoint a)
  else y (eventPoint b) - y (eventPoint a).

Definition sortSites (q : PriorityQueue) : PriorityQueue :=
  mkPriorityQueue (Array_sort sortSites_compare (siteEvents q)) (vertexEvents q).

Definition sortVertices (q : PriorityQueue) : PriorityQueue :=
  mkPriorityQueue (siteEvents q) (Array_sort sortVertices_compare (vertexEvents q)).

Definition pushSiteEvents (values : list Site) (q : PriorityQueue) : PriorityQueue :=
  sortSites (mkPriorityQueue (map mkSiteEvent values) (vertexEvents q)).

Definition pushVertexEvents (values : list VertexEvent) (q : PriorityQueue) : PriorityQueue :=
  sortVertices (mkPriorityQueue (siteEvents q) (vertexEvents q ++ values)).

(** [values.indexOf(element) == -1], by object identity. *)
Definition not_indexOf (values : list VertexEvent) (element : VertexEvent) : bool :=
  negb (existsb (fun v => Nat.eqb (event_ref v) (event_ref element)) values).

Definition removeVertexEvents (values : list VertexEvent) (q : PriorityQueue) : PriorityQueue :=
  sortVertices (mkPriorityQueue (siteEvents q) (filter (fun e => not_indexOf values e = true) (vertexEvents q))).

Definition isEmpty (q : PriorityQueue) : bool :=
  Nat.eqb (length (siteEvents q)) 0 && Nat.eqb (length (vertexEvents q)) 0.

(** [Array.prototype.pop] returns the last entry ([undefined] on an empty
    array) and removes it; [push] appends. *)
Definition Array_pop {A} (l : list A) : option A * list A := (last l, removelast l).
Definition Array_push {A} (l : list A) (v : A) : list A := l ++ [v].

(** [pop].  The two length tests are read off the popped values: an array
    is empty exactly when its last entry is [undefined]. *)
Definition pop (q : PriorityQueue) : EventResult * PriorityQueue :=
  match Array_pop (vertexEvents q), Array_pop (siteEvents q) with
  | (None, _), (s, sites') =>
      (mkEventResult true s None, mkPriorityQueue sites' (vertexEvents q))
  | (Some v, vertices'), (None, _) =>
      (mkEventResult false None (Some v), mkPriorityQueue (siteEvents q) vertices')
  | (Some nextVertexEvent, vertices'), (Some nextSiteEvent, sites') =>
      if y (point nextSiteEvent) <? y (eventPoint nextVertexEvent) then
        (mkEventResult true (Some nextSiteEvent) None,
         mkPriorityQueue sites' (Array_push vertices' nextVertexEvent))
      else
        (mkEventResult false None (Some nextVertexEvent),
         mkPriorityQueue (Array_push sites' nextSiteEvent) vertices')
  end.

End Queue.
Export Queue.

(** ** VoronoiDiagram *)

(** The diagram, with the two stores the engine leaves to the JavaScript
    heap made explicit: [arena] holds every [ParabolaArc] object allocated
    so far (an arc reference is its index; arcs that left the beachline
    stay allocated, as they do while something still refers to them), and
    [eventsAllocated] counts the [VertexEvent] objects created, which
    gives each new one a fresh identity. *)
Record VoronoiDiagram := mkVoronoiDiagram {
  activeSites : list ActiveSite;
  edges : list Edge;
  lineSweepPosition : float;
  queue : PriorityQueue;
  arena : list ParabolaArc;
  eventsAllocated : nat
}.

#[global] Instance Coordinate_inhabited : Inhabited Coordinate :=
  populate (mkCoordinate 0 0).
#[global] Instance Site_inhabited : Inhabited Site := populate (mkSite 0 inhabitant).
#[global] Instance ParabolaArc_inhabited : Inhabited ParabolaArc :=
  populate (mkParabolaArc 0 None None).
#[global] Instance ActiveSite_inhabited : Inhabited ActiveSite :=
  populate (mkActiveSite inhabitant []).

Definition set_leftArc (v : option nat) (a : ParabolaArc) : ParabolaArc :=
  mkParabolaArc (activeSite a) v (rightArc a).
Definition set_rightArc (v : option nat) (a : ParabolaArc) : ParabolaArc :=
  mkParabolaArc (activeSite a) (leftArc a) v.
Definition set_arcs (f : list nat -> list nat) (s : ActiveSite) : ActiveSite :=
  mkActiveSite (site s) (f (arcs s)).
Definition set_firstVertex (v : Coordinate) (e : Edge) : Edge :=
  mkEdge (leftFace e) (rightFace e) (Some v) (lastVertex e).
Definition set_lastVertex (v : Coordinate) (e : Edge) : Edge :=
  mkEdge (leftFace e) (rightFace e) (firstVertex e) (Some v).

Definition with_activeSites (f : list ActiveSite -> list ActiveSite) (d : VoronoiDiagram) :=
  mkVoronoiDiagram (f (activeSites d)) (edges d) (lineSweepPosition d) (queue d) (arena d) (eventsAllocated d).
Definition with_edges (f : list Edge -> list Edge) (d : VoronoiDiagram) :=
  mkVoronoiDiagram (activeSites d) (f (edges d)) (lineSweepPosition d) (queue d) (arena d) (eventsAllocated d).
Definition with_lineSweepPosition (v : float) (d : VoronoiDiagram) :=
  mkVoronoiDiagram (activeSites d) (edges d) v (queue d) (arena d) (eventsAllocated d).
Definition with_queue (f : PriorityQueue -> PriorityQueue) (d : VoronoiDiagram) :=
  mkVoronoiDiagram (activeSites d) (edges d) (lineSweepPosition d) (f (queue d)) (arena d) (eventsAllocated d).
Definition with_arena (f : list ParabolaArc -> list ParabolaArc) (d : VoronoiDiagram) :=
  mkVoronoiDiagram (activeSites d) (edges d) (lineSweepPosition d) (queue d) (f (arena d)) (eventsAllocated d).
Definition with_eventsAllocated (n : nat) (d : VoronoiDiagram) :=
  mkVoronoiDiagram (activeSites d) (edges d) (lineSweepPosition d) (queue d) (arena d) n.

(** Dereferencing: an arc reference always names an allocated arc, an
    active-site reference an entry of [activeSites]. *)
Definition arcAt (d : VoronoiDiagram) (a : nat) : ParabolaArc := arena d !!! a.
(** [arc.activeSite.site] *)
Definition arcSite (d : VoronoiDiagram) (a : nat) : Site :=
  site (activeSites d !!! activeSite (arcAt d a)).

Module Diagram.
Local Open Scope float_scope.

(** *** Edges *)

Definition addVertexToEdge (edge : Edge) (vertex : Coordinate) : Edge :=
  if gtb (distanceFromPlane (leftFace edge) (rightFace edge) vertex) 0 then
    set_firstVertex vertex edge
  else
    set_lastVertex vertex edge.

Definition getEdge_test (a b : Site) (element : Edge) : bool :=
  (same_site (leftFace element) a && same_site (rightFace element) b)
  || (same_site (leftFace element) b && same_site (rightFace element) a).

(** [Array.prototype.find]: the first entry that passes the test, as a
    reference (its position in [edges]) together with its fields. *)
Definition getEdge (d : VoronoiDiagram) (a b : Site) : option (nat * Edge) :=
  list_find (fun element => getEdge_test a b element = true) (edges d).

(** [addVertexToEdge(undefined, vertex)] throws. *)
Definition updateEdge (d : VoronoiDiagram) (leftArc rightArc : Site) (vertex : Coordinate)
  : option VoronoiDiagram :=
  '(i, edge) ← getEdge d leftArc rightArc;
  Some (with_edges (fun es => <[i := addVertexToEdge edge vertex]> es) d).

Definition canAddVertexToEdge (d : VoronoiDiagram) (leftFace' rightFace' : Site) (vertex : Coordinate)
  : bool :=
  match getEdge d leftFace' rightFace' with
  | None => true
  | Some (_, edge) =>
      if gtb (distanceFromPlane (leftFace edge) (rightFace edge) vertex) 0 then
        bool_decide (firstVertex edge = None)
      else bool_decide (lastVertex edge = None)
  end.

Definition completeEdge (edge : Edge) : Edge :=
  match firstVertex edge, lastVertex edge with
  | None, None => edge
  | None, Some last =>
      let midpointX := (x (leftFace edge) + x (rightFace edge)) / 2 in
      let direction := midpointX - x last in
      if gtb direction 0 then
        set_firstVertex (mkCoordinate 100 (bisectorY (leftFace edge) (rightFace edge) 100)) edge
      else
        set_firstVertex (mkCoordinate (-100) (bisectorY (leftFace edge) (rightFace edge) (-100))) edge
  | Some first, None =>
      let midpointX := (x (leftFace edge) + x (rightFace edge)) / 2 in
      let direction := midpointX - x first in
      if gtb direction 0 then
        set_lastVertex (mkCoordinate 100 (bisectorY (leftFace edge) (rightFace edge) 100)) edge
      else
        set_lastVertex (mkCoordinate (-100) (bisectorY (leftFace edge) (rightFace edge) (-100))) edge
  | Some _, Some _ => edge
  end.

Definition completeUnboundEdges (d : VoronoiDiagram) : VoronoiDiagram :=
  with_edges (map completeEdge) d.

End Diagram.
Export Diagram.

Module Beachline.
Local Open Scope float_scope.

(** *** Vertex events *)

(** [getVertexEvent(arc)]: [None] is a throw ([arc.leftArc] or
    [arc.rightArc] is [null]), [Some None] is the result [null].  The event
    object created by the [k]-th call of one site event takes the identity
    [eventsAllocated d + k]. *)
Definition getVertexEvent (d : VoronoiDiagram) (k : nat) (arc : nat)
  : option (option VertexEvent) :=
  l ← leftArc (arcAt d arc);
  r ← rightArc (arcAt d arc);
  let leftSite := arcSite d l in
  let middleSite := arcSite d arc in
  let rightSite := arcSite d r in
  if same_site leftSite middleSite || same_site middleSite rightSite
     || same_site leftSite rightSite then Some None
  else if gtb (x leftSite) (x rightSite) then Some None
  else
    let circleResult := circle leftSite middleSite rightSite in
    if (x (centre circleResult) =? Infinity) || (y (centre circleResult) =? Infinity)
    then Some None
    else
      let eventY := y (centre circleResult) + radius circleResult in
      if eventY <? lineSweepPosition d then Some None
      else
        let eventPoint := mkCoordinate (x (centre circleResult)) eventY in
        Some (Some (mkVertexEvent (eventsAllocated d + k)%nat l arc r
                                  eventPoint (centre circleResult))).

Definition references (arc : nat) (element : VertexEvent) : bool :=
  Nat.eqb (arcs0 element) arc || Nat.eqb (arcs1 element) arc || Nat.eqb (arcs2 element) arc.

Definition removeArcTriples (d : VoronoiDiagram) (arc : nat) : VoronoiDiagram :=
  let deadEvents := filter (fun element => references arc element = true) (vertexEvents (queue d)) in
  with_queue (removeVertexEvents deadEvents) d.

Definition updateVertexEventsForNewSite (d : VoronoiDiagram) (arc : nat)
  : option VoronoiDiagram :=
  l ← leftArc (arcAt d arc);
  leftEvents ←
    match leftArc (arcAt d l) with
    | Some ll =>
        e1 ← getVertexEvent d 0 l;
        match leftArc (arcAt d ll) with
        | Some _ => e2 ← getVertexEvent d 1 ll; Some [e1; e2]
        | None => Some [e1]
        end
    | None => Some []
    end;
  r ← rightArc (arcAt d arc);
  rightEvents ←
    match rightArc (arcAt d r) with
    | Some rr =>
        e3 ← getVertexEvent d 2 r;
        match rightArc (arcAt d rr) with
        | Some _ => e4 ← getVertexEvent d 3 rr; Some [e3; e4]
        | None => Some [e3]
        end
    | None => Some []
    end;
  let vertexEvents := leftEvents ++ rightEvents in
  Some (with_eventsAllocated (eventsAllocated d + 4)%nat
          (with_queue (pushVertexEvents (omap id vertexEvents)) d)).

(** *** Site events *)

Definition updateBeachLine (d : VoronoiDiagram) (newArc intersectedArc : nat)
  : option VoronoiDiagram :=
  let owner := activeSite (arcAt d intersectedArc) in
  let intersectedArcLeftArc := leftArc (arcAt d intersectedArc) in
  let intersectedArcRightArc := rightArc (arcAt d intersectedArc) in
  (* the two copies of the intersected arc are the next two allocations *)
  let newLeft := length (arena d) in
  let newRight := S newLeft in
  let d := with_arena (fun h =>
             alter (fun a => mkParabolaArc (activeSite a) (Some newLeft) (Some newRight)) newArc h
             ++ [mkParabolaArc owner intersectedArcLeftArc (Some newArc);
                 mkParabolaArc owner (Some newArc) intersectedArcRightArc]) d in
  let d := with_activeSites
             (alter (set_arcs (fun arcs =>
                filter (fun element => element <> intersectedArc) arcs ++ [newLeft; newRight]))
                owner) d in
  let d := match intersectedArcLeftArc with
           | Some l => with_arena (alter (set_rightArc (Some newLeft)) l) d
           | None => d
           end in
  let d := match intersectedArcRightArc with
           | Some r => with_arena (alter (set_leftArc (Some newRight)) r) d
           | None => d
           end in
  let d := with_edges (fun es =>
             es ++ [mkEdge (arcSite d newArc) (arcSite d intersectedArc) None None]) d in
  let d := removeArcTriples d intersectedArc in
  updateVertexEventsForNewSite d newArc.

(** The scan for the closest parabola: [(closestParabolaYDistance,
    closestParabolaSite)] after the [forEach], the site as its reference. *)
Definition closestParabola (d : VoronoiDiagram) (site' : Site) : float * option nat :=
  snd (foldl (fun '(i, (closestParabolaYDistance, closestParabolaSite)) element =>
                let yDist := parabolaPointY (site element) (lineSweepPosition d) (x site') in
                if negb (yDist =? Infinity) && gtb yDist closestParabolaYDistance
                then (S i, (yDist, Some i))
                else (S i, (closestParabolaYDistance, closestParabolaSite)))
             (0%nat, (neg_infinity, None)) (activeSites d)).

(** The [forEach] over all arcs but the last: every arc whose right
    neighbour's site lies to the right overwrites [containingArc] (the
    [return] leaves only the callback); [arc.rightArc.activeSite] throws on
    a [null] right neighbour. *)
Definition scanArcs (d : VoronoiDiagram) (site' : Site) (arcs' : list nat)
  : option (option nat) :=
  foldl (fun acc arc =>
           containingArc ← acc;
           r ← rightArc (arcAt d arc);
           Some (if gtb (x (arcSite d r)) (x site') then Some arc else containingArc))
        (Some None) arcs'.

Definition containingArc (d : VoronoiDiagram) (site' : Site) (arcs' : list nat)
  : option (option nat) :=
  if Nat.eqb (length arcs') 1 then Some (arcs' !! 0%nat)
  else
    found ← scanArcs d site' (removelast arcs');
    match found with
    | Some arc => Some (Some arc)
    | None => Some (last arcs')
    end.

Definition arcs_compare (d : VoronoiDiagram) (a b : nat) : float :=
  match rightArc (arcAt d a), rightArc (arcAt d b) with
  | None, _ => 1
  | Some _, None => -1
  | Some ra, Some rb => x (arcSite d ra) - x (arcSite d rb)
  end.

Definition insertSite (d : VoronoiDiagram) (site' : Site) : option VoronoiDiagram :=
  closestParabolaSite ← snd (closestParabola d site');
  found ← containingArc d site' (arcs (activeSites d !!! closestParabolaSite));
  let newArc := length (arena d) in
  let d := with_arena (fun h => h ++ [mkParabolaArc (length (activeSites d)) None None]) d in
  let d := with_activeSites (fun l => l ++ [mkActiveSite site' [newArc]]) d in
  intersectedArc ← found;
  d ← updateBeachLine d newArc intersectedArc;
  Some (with_activeSites
          (alter (set_arcs (Array_sort (arcs_compare d))) closestParabolaSite) d).

(** *** Vertex events *)

Definition processVertexEvent (d : VoronoiDiagram) (vertexEvent' : VertexEvent)
  : option VoronoiDiagram :=
  let deletedArc := arcs1 vertexEvent' in
  let d := with_activeSites
             (alter (set_arcs (filter (fun arc => arc <> deletedArc)))
                    (activeSite (arcAt d deletedArc))) d in
  let leftSite := arcs0 vertexEvent' in
  let rightSite := arcs2 vertexEvent' in
  let d := with_arena (alter (set_rightArc (Some (arcs2 vertexEvent'))) leftSite) d in
  let d := with_arena (alter (set_leftArc (Some (arcs0 vertexEvent'))) rightSite) d in
  let d := removeArcTriples d deletedArc in
  let edge := mkEdge (arcSite d leftSite) (arcSite d rightSite) None None in
  let edge := addVertexToEdge edge (vertexPoint vertexEvent') in
  let d := with_edges (fun es => es ++ [edge]) d in
  d ← updateEdge d (arcSite d leftSite) (arcSite d deletedArc) (vertexPoint vertexEvent');
  updateEdge d (arcSite d deletedArc) (arcSite d rightSite) (vertexPoint vertexEvent').

(** *** Bootstrap and main loop *)

Definition insertFirstSites (d : VoronoiDiagram) : option VoronoiDiagram :=
  let '(first, q) := pop (queue d) in
  firstSite ← point <$> siteEvent first;
  let '(second, q) := pop q in
  secondSite ← point <$> siteEvent second;
  let firstActiveSite := length (activeSites d) in
  let secondActiveSite := S firstActiveSite in
  let dividingArc := length (arena d) in
  let leftArc := S dividingArc in
  let rightArc := S leftArc in
  Some (mkVoronoiDiagram
          (activeSites d ++ [mkActiveSite firstSite [leftArc; rightArc];
                             mkActiveSite secondSite [dividingArc]])
          (edges d ++ [mkEdge firstSite secondSite None None])
          (lineSweepPosition d)
          q
          (arena d ++ [mkParabolaArc secondActiveSite (Some leftArc) (Some rightArc);
                       mkParabolaArc firstActiveSite None (Some dividingArc);
                       mkParabolaArc firstActiveSite (Some dividingArc) None])
          (eventsAllocated d)).

Definition new_VoronoiDiagram (sites : list Site) : option VoronoiDiagram :=
  insertFirstSites
    (mkVoronoiDiagram [] [] 0 (pushSiteEvents sites (mkPriorityQueue [] [])) [] 0).

Definition computeStep (d : VoronoiDiagram) : option VoronoiDiagram :=
  let '(nextEvent, q) := pop (queue d) in
  let d := with_queue (fun _ => q) d in
  if isSiteEvent nextEvent then
    event ← siteEvent nextEvent;
    insertSite (with_lineSweepPosition (y (point event)) d) (point event)
  else
    event ← vertexEvent nextEvent;
    processVertexEvent (with_lineSweepPosition (y (eventPoint event)) d) event.

(** [steps n d]: [n] calls of [computeStep]. *)
Fixpoint steps (n : nat) (d : VoronoiDiagram) : option VoronoiDiagram :=
  match n with
  | O => Some d
  | S n => d ← computeStep d; steps n d
  end.



End Beachline.
Export Beachline.

(** ** Console helpers *)

Module Console.

(** [logBeachLine(randomArc)] and [reverseLogBeachLine(randomArc)].  The
    console output is the result: the number of traversals printed in the
    first line, and the sites printed after it, in order.  [fuel] bounds the
    iterations of each [while] loop; the result is [None] when it runs out. *)

Fixpoint logBeachLine_start (fuel : nat) (d : VoronoiDiagram) (currentArc traversals : nat)
    : option (nat * nat) :=
  match leftArc (arcAt d currentArc) with
  | None => Some (currentArc, traversals)
  | Some l =>
      match fuel with
      | O => None
      | S fuel => logBeachLine_start fuel d l (S traversals)
      end
  end.

Fixpoint logBeachLine_sites (fuel : nat) (d : VoronoiDiagram) (currentArc : option nat)
    : option (list Site) :=
  match currentArc with
  | None => Some []
  | Some a =>
      match fuel with
      | O => None
      | S fuel => cons (arcSite d a) <$> logBeachLine_sites fuel d (rightArc (arcAt d a))
      end
  end.

Definition logBeachLine (fuel : nat) (d : VoronoiDiagram) (randomArc : nat)
    : option (nat * list Site) :=
  '(currentArc, traversals) ← logBeachLine_start fuel d randomArc 0;
  logged ← logBeachLine_sites fuel d (Some currentArc);
  Some (traversals, logged).

Fixpoint reverseLogBeachLine_start (fuel : nat) (d : VoronoiDiagram)
    (currentArc traversals : nat) : option (nat * nat) :=
  match rightArc (arcAt d currentArc) with
  | None => Some (currentArc, traversals)
  | Some r =>
      match fuel with
      | O => None
      | S fuel => reverseLogBeachLine_start fuel d r (S traversals)
      end
  end.

Fixpoint reverseLogBeachLine_sites (fuel : nat) (d : VoronoiDiagram) (currentArc : option nat)
    : option (list Site) :=
  match currentArc with
  | None => Some []
  | Some a =>
      match fuel with
      | O => None
      | S fuel => cons (arcSite d a) <$> reverseLogBeachLine_sites fuel d (leftArc (arcAt d a))
      end
  end.

Definition reverseLogBeachLine (fuel : nat) (d : VoronoiDiagram) (randomArc : nat)
    : option (nat * list Site) :=
  '(currentArc, traversals) ← reverseLogBeachLine_start fuel d randomArc 0;
  logged ← reverseLogBeachLine_sites fuel d (Some currentArc);
  Some (traversals, logged).

End Console.
Export Console.

(** ** The specification's readings that the code is compared with *)

Module Spec.
Local Open Scope float_scope.


(** "If the designated slot is already populated, the second write is
    dropped." *)
Definition second_write_dropped (edge : Edge) (vertex : Coordinate) : Prop :=
  (gtb (distanceFromPlane (leftFace edge) (rightFace edge) vertex) 0 = true ->
   is_Some (firstVertex edge) -> addVertexToEdge edge vertex = edge)
  /\ (gtb (distanceFromPlane (leftFace edge) (rightFace edge) vertex) 0 = false ->
      is_Some (lastVertex edge) -> addVertexToEdge edge vertex = edge).


(** The smallest positive binary64 number ([Number.MIN_VALUE]). *)
Definition min_positive : float := 0x1p-1074.

(** "bisectorY substitutes the smallest positive representable number for
    a zero denominator." *)
Definition bisectorY_vertical (a b : Coordinate) (xVal : float) : float :=
  (xVal - (x a + x b) / 2) * min_positive + (y a + y b) / 2.

(** "circle returns a center with any non-finite coordinate": the test a
    caller would make to filter it. *)
Definition non_finite_centre (c : CircleResult) : bool :=
  negb (is_finite (x (centre c)) && is_finite (y (centre c))).

End Spec.

Section Notions.
Local Open Scope float_scope.

(** ** The order of binary64 numbers

    [fcompare] is the comparison of two numbers as the specification of
    the primitive operations gives it ([None] when one of them is [NaN]);
    the other notions serve the proofs about rounding. *)

Definition fcompare (u v : float) : option comparison := SFcompare (Prim2SF u) (Prim2SF v).

Definition zero_sf : spec_float := S754_zero false.

Definition negative_result (s : bool) (r : spec_float) : Prop :=
  match r with
  | S754_finite s' _ _ | S754_infinity s' => s' = s
  | _ => False
  end.

(** The aligned difference of two finite numbers, as [SFsub] forms it. *)
Definition aligned_diff (sx : bool) (mx : positive) (ex : Z) (sy : bool) (my : positive) (ey : Z) : Z :=
  let ez := Z.min ex ey in
  (cond_Zopp sx (Zpos (fst (shl_align mx ex ez)))
   - cond_Zopp sy (Zpos (fst (shl_align my ey ez))))%Z.

(** ** The sort keys *)

(** The sort key of [circle]: ascending y, ties by ascending x. *)
Definition key_compare (p q : Coordinate) : option comparison :=
  match fcompare (y p) (y q) with
  | Some Eq => fcompare (x p) (x q)
  | c => c
  end.

Definition key_lt (p q : Coordinate) : bool :=
  (y p <? y q) || ((y p =? y q) && (x p <? x q)).

Definition no_nan (p : Coordinate) : Prop :=
  is_nan (x p) = false /\ is_nan (y p) = false.

(** Two points are distinct when [==] tells them apart in x or in y. *)
Definition distinct (p q : Coordinate) : Prop :=
  (x p =? x q) && (y p =? y q) = false.

(** [precedes p q]: the key of [p] (y, then x) is not below the key of
    [q], so [p] may stand before [q] in an array of the queue. *)
Definition precedes (p q : Coordinate) : Prop := key_compare p q <> Some Lt.

(** The order the queue keeps its two arrays in: descending, the next to
    pop last. *)
Definition sites_descending (l : list SiteEvent) : Prop :=
  StronglySorted (fun a b => precedes (point a) (point b)) l.

Definition vertices_descending (l : list VertexEvent) : Prop :=
  StronglySorted (fun a b => precedes (eventPoint a) (eventPoint b)) l.

(** ** Finalization *)

(** The endpoint that finalization adds opposite to the vertex [v] of an
    edge between [leftFace'] and [rightFace']. *)
Definition envelope_endpoint (leftFace' rightFace' : Site) (v : Coordinate) : Coordinate :=
  let midpointX := (x leftFace' + x rightFace') / 2 in
  let xEnd := if gtb midpointX (x v) then 100 else -100 in
  mkCoordinate xEnd (bisectorY leftFace' rightFace' xEnd).

(** ** The beachline as a doubly linked list *)

(** [hd_or l next]: the arc to the right of a segment that is followed by
    the segment [l] and then by [next]; [last_or l prev]: the arc to the
    left of a segment that comes after [prev] and the segment [l]. *)
Definition hd_or (l : list nat) (next : option nat) : option nat :=
  match l with
  | [] => next
  | b :: _ => Some b
  end.

Definition last_or (l : list nat) (prev : option nat) : option nat :=
  match last l with
  | Some a => Some a
  | None => prev
  end.

(** [linked h prev l next]: in the arena [h] the arcs of [l] are linked
    left to right, the first one has [prev] to its left and the last one
    has [next] to its right. *)
Fixpoint linked (h : list ParabolaArc) (prev : option nat) (l : list nat)
    (next : option nat) : Prop :=
  match l with
  | [] => True
  | a :: rest =>
      (exists A, h !! a = Some A /\ leftArc A = prev /\ rightArc A = hd_or rest next)
      /\ linked h (Some a) rest next
  end.

(** [l], [m], [r] are consecutive in [bl]. *)
Definition consecutive (l m r : nat) (bl : list nat) : Prop :=
  exists pre post, bl = pre ++ l :: m :: r :: post.

(** The representation invariant of the beachline: [bl] lists the arcs of
    the beachline from left to right.  The arcs are linked as the list
    says, each arc's owner lists exactly its arcs of the beachline
    (arc-site consistency), and every queued vertex event names three
    consecutive arcs of the beachline. *)
Record beachline (sites : list ActiveSite) (h : list ParabolaArc)
    (events : list VertexEvent) (bl : list nat) : Prop := mkBeachline {
  bl_nodup : NoDup bl;
  bl_linked : linked h None bl None;
  bl_owner : forall a, a ∈ bl -> activeSite (h !!! a) < length sites;
  bl_arcs : forall i s a, sites !! i = Some s ->
              (a ∈ arcs s <-> a ∈ bl /\ activeSite (h !!! a) = i);
  bl_events : forall e, e ∈ events -> consecutive (arcs0 e) (arcs1 e) (arcs2 e) bl
}.

Definition beachline_inv (d : VoronoiDiagram) (bl : list nat) : Prop :=
  beachline (activeSites d) (arena d) (vertexEvents (queue d)) bl.

(** An arc is on the beachline when an active site lists it among its
    arcs. *)
Definition on_beachline (d : VoronoiDiagram) (a : nat) : Prop :=
  exists i s, activeSites d !! i = Some s /\ a ∈ arcs s.

(** I1, link symmetry. *)
Definition link_symmetric (d : VoronoiDiagram) : Prop :=
  forall a, on_beachline d a ->
    (forall r, rightArc (arcAt d a) = Some r ->
       on_beachline d r /\ leftArc (arcAt d r) = Some a)
    /\ (forall l, leftArc (arcAt d a) = Some l ->
          on_beachline d l /\ rightArc (arcAt d l) = Some a).

(** The arena after a site event split the arc [A]: the new arc is
    allocated at [length h] (by [insertSite], for the new active site
    [newSite]), the two copies of [A] after it, and the neighbours of [A]
    are relinked to the copies. *)
Definition split_arena (h : list ParabolaArc) (newSite A : nat) : list ParabolaArc :=
  let N := length h in
  let X := h !!! A in
  let h2 := (h ++ [mkParabolaArc newSite (Some (S N)) (Some (S (S N)))])
            ++ [mkParabolaArc (activeSite X) (leftArc X) (Some N);
                mkParabolaArc (activeSite X) (Some N) (rightArc X)] in
  let h3 := match leftArc X with
            | Some l => alter (set_rightArc (Some (S N))) l h2
            | None => h2
            end in
  match rightArc X with
  | Some r => alter (set_leftArc (Some (S (S N)))) r h3
  | None => h3
  end.

Definition relink (f : ParabolaArc -> ParabolaArc) (o : option nat) (a : nat)
    (X : ParabolaArc) : ParabolaArc :=
  if decide (o = Some a) then f X else X.

(** ** Concrete inputs *)

Definition c1_low : SiteEvent := mkSiteEvent (mkSite 0 (mkCoordinate 3 3)).

Definition c1_high : SiteEvent := mkSiteEvent (mkSite 1 (mkCoordinate 8 5)).

Definition c1_near : VertexEvent :=
  mkVertexEvent 0 0 1 2 (mkCoordinate 7.5 3) (mkCoordinate 7.5 (-1)).

Definition c1_far : VertexEvent :=
  mkVertexEvent 1 1 2 3 (mkCoordinate 1 6) (mkCoordinate 1 2).

Definition c1_queue : PriorityQueue :=
  mkPriorityQueue
    [mkSiteEvent (mkSite 0 (mkCoordinate 0 1))]
    [mkVertexEvent 0 0 1 2 (mkCoordinate 0 2) (mkCoordinate 0 0)].

Definition c2_edge : Edge :=
  mkEdge (mkSite 0 (mkCoordinate 0 0)) (mkSite 1 (mkCoordinate 2 0))
         (Some (mkCoordinate 1 (-5))) None.



Definition c4_sites : list Site :=
  [mkSite 0 (mkCoordinate 1 (-1)); mkSite 1 (mkCoordinate 0 0); mkSite 2 (mkCoordinate 1 0);
   mkSite 3 (mkCoordinate 2 0); mkSite 4 (mkCoordinate 2 5)].

Definition c5_a : Coordinate := mkCoordinate 0 0.

Definition c5_b : Coordinate := mkCoordinate 4 0.

Definition c5_c : Coordinate := mkCoordinate 2 4.

Definition c9_a : Coordinate := mkCoordinate 0 0.

Definition c9_b : Coordinate := mkCoordinate 2 0.

Definition c10_a : Site := mkSite 0 (mkCoordinate 0 0).

Definition c10_b : Site := mkSite 1 (mkCoordinate 2 0).

Definition c10_c : Site := mkSite 2 (mkCoordinate 1 3).

Definition c10_diagram : VoronoiDiagram :=
  mkVoronoiDiagram [] [mkEdge c10_a c10_c None None; mkEdge c10_b c10_a None None;
                       mkEdge c10_a c10_b None None]
                   0 (mkPriorityQueue [] []) [] 0.

(** The run of the engine's own example, the sites (3,3), (12,3), (8,5),
    (10,5): the bootstrap, two site events and one vertex event. *)
Definition seed_sites : list Site :=
  [mkSite 0 (mkCoordinate 3 3); mkSite 1 (mkCoordinate 12 3);
   mkSite 2 (mkCoordinate 8 5); mkSite 3 (mkCoordinate 10 5)].

Definition seed_final : VoronoiDiagram :=
  default (mkVoronoiDiagram [] [] 0 (mkPriorityQueue [] []) [] 0)
          (new_VoronoiDiagram seed_sites ≫= steps 3).
End Notions.

Section RunNotions.
Local Open Scope float_scope.

(** ** Special values of binary64 *)

Definition not_a_number_or_infinite (r : spec_float) : Prop :=
  r = S754_nan \/ exists s, r = S754_infinity s.

Definition nan_or_zero (r : spec_float) : Prop :=
  r = S754_nan \/ exists s, r = S754_zero s.

(** ** Measures of a run *)

(** The work that is left: a site event can queue up to four vertex
    events, a vertex event queues none. *)
Definition pending (d : VoronoiDiagram) : nat :=
  5 * length (siteEvents (queue d)) + length (vertexEvents (queue d)).

(** The two faces of an edge. *)
Definition faces (e : Edge) : Site * Site := (leftFace e, rightFace e).

(** ** Edges between neighbours *)

(** [l] and [r] are neighbours in [bl], [l] to the left. *)
Definition adjacent (l r : nat) (bl : list nat) : Prop :=
  exists pre post, bl = pre ++ l :: r :: post.

(** An edge joins the sites of the arcs [l] and [r], in either
    orientation. *)
Definition edge_between (d : VoronoiDiagram) (l r : nat) : Prop :=
  exists e, e ∈ edges d /\ getEdge_test (arcSite d l) (arcSite d r) e = true.

(** Every two neighbours of the beachline have an edge between their
    sites. *)
Definition edges_inv (d : VoronoiDiagram) (bl : list nat) : Prop :=
  forall l r, adjacent l r bl -> edge_between d l r.

(** ** States of the example run *)

Definition empty_diagram : VoronoiDiagram :=
  mkVoronoiDiagram [] [] 0 (mkPriorityQueue [] []) [] 0.

Definition seed_start : VoronoiDiagram :=
  default empty_diagram (new_VoronoiDiagram seed_sites).

Definition seed_one : VoronoiDiagram :=
  default empty_diagram (computeStep seed_start).

Definition seed_two : VoronoiDiagram :=
  default empty_diagram (new_VoronoiDiagram seed_sites ≫= steps 2).

Definition seed_event : VertexEvent :=
  default (mkVertexEvent 0 0 0 0 (mkCoordinate 0 0) (mkCoordinate 0 0))
          (last (vertexEvents (queue seed_two))).


Definition c2_diagram : VoronoiDiagram :=
  mkVoronoiDiagram [] [c2_edge] 0 (mkPriorityQueue [] []) [] 0.

Definition row_sites : list Site :=
  [mkSite 0 (mkCoordinate 0 0); mkSite 1 (mkCoordinate 2 0); mkSite 2 (mkCoordinate 1 0)].

Definition row_start : VoronoiDiagram :=
  default empty_diagram (new_VoronoiDiagram row_sites).

End RunNotions.

(** ** The runs of the engine

    The engine sorts three arrays: the site events (once, in the
    constructor), the vertex events (after every removal and every push)
    and the arcs of the site that a new site splits (at the end of
    [insertSite]).  Within a call of [computeStep] nothing reads one of
    these arrays after it was sorted, and the constructor reads the site
    events only through [pop].  So the state after a step is determined by
    the state before it up to the order of these arrays, and the runs of
    the engine are covered, whatever its sort does with an inconsistent
    comparator, by letting every step leave them in any order. *)

Section EngineRuns.

(** Two active sites that differ at most in the order of their arcs. *)
Definition same_arcs (s s' : ActiveSite) : Prop :=
  site s = site s' /\ arcs s ≡ₚ arcs s'.

(** Two diagrams that differ at most in the order of the arrays the
    engine sorts: the vertex events of the queue and the arcs of each
    active site. *)
Definition same_up_to_order (d d' : VoronoiDiagram) : Prop :=
  Forall2 same_arcs (activeSites d) (activeSites d')
  /\ edges d' = edges d
  /\ lineSweepPosition d' = lineSweepPosition d
  /\ siteEvents (queue d') = siteEvents (queue d)
  /\ vertexEvents (queue d') ≡ₚ vertexEvents (queue d)
  /\ arena d' = arena d
  /\ eventsAllocated d' = eventsAllocated d.

(** [engine_steps n d d']: [n] calls of [computeStep] lead from [d] to
    [d'], each one leaving its sorted arrays in some order. *)
Inductive engine_steps : nat -> VoronoiDiagram -> VoronoiDiagram -> Prop :=
| engine_steps_O (d : VoronoiDiagram) : engine_steps 0 d d
| engine_steps_S (n : nat) (d d1 d2 d' : VoronoiDiagram) :
    computeStep d = Some d1 -> same_up_to_order d1 d2 ->
    engine_steps n d2 d' -> engine_steps (S n) d d'.

(** The state after the constructor, for any order in which [sortSites]
    leaves the site events. *)
Definition engine_start (sites : list Site) (d : VoronoiDiagram) : Prop :=
  exists sorted,
    sorted ≡ₚ map mkSiteEvent sites
    /\ insertFirstSites (mkVoronoiDiagram [] [] 0 (mkPriorityQueue sorted []) [] 0) = Some d.

(** The states of a run: the constructor, then [n] steps. *)
Definition reaches (sites : list Site) (n : nat) (d : VoronoiDiagram) : Prop :=
  exists d0, engine_start sites d0 /\ engine_steps n d0 d.

(** The vertex events of the queue in the opposite order. *)
Definition reversed_queue (d : VoronoiDiagram) : VoronoiDiagram :=
  with_queue (fun q => mkPriorityQueue (siteEvents q) (reverse (vertexEvents q))) d.

(** ** States of the run on the five sites of [c4_sites] *)

Definition c4_final : VoronoiDiagram :=
  default empty_diagram (new_VoronoiDiagram c4_sites ≫= steps 5).

(** The same state with the two queued vertex events in the other order. *)
Definition c4_reordered : VoronoiDiagram := reversed_queue c4_final.

Definition c4_event : VertexEvent :=
  default seed_event (head (vertexEvents (queue c4_reordered))).

(** ** A queue with several events of each kind, and an edge that gets
    its second vertex *)

Definition c1_mid : VertexEvent :=
  mkVertexEvent 2 2 3 4 (mkCoordinate 2 4) (mkCoordinate 2 1).

Definition c1_long_queue : PriorityQueue :=
  mkPriorityQueue [c1_high; c1_low] [c1_far; c1_mid; c1_near].

Definition c2_updated : VoronoiDiagram :=
  default empty_diagram (updateEdge c2_diagram c10_a c10_b (mkCoordinate 1 5)).

End EngineRuns.

(** * Properties *)

(** ** Binary64 arithmetic

    Facts about the IEEE operations the engine relies on, derived from
    the specification of the primitive operations ([SpecFloat]): the order
    is a total order on the numbers other than [NaN], and the sign of a
    difference is the order of its operands (a difference of two distinct
    numbers never rounds to zero). *)

Module Binary64.
Local Open Scope Z_scope.

Lemma digits2_pos_bounds (m : positive) :
  2 ^ (Zpos (digits2_pos m) - 1) <= Zpos m < 2 ^ Zpos (digits2_pos m).
Proof.
  induction m as [p IH|p IH|]; cbn [digits2_pos].
  - rewrite Pos2Z.inj_succ, (Pos2Z.inj_xI p).
    replace (Z.succ (Zpos (digits2_pos p)) - 1) with (Z.succ (Zpos (digits2_pos p) - 1)) by lia.
    rewrite !Z.pow_succ_r by lia.
    generalize dependent (2 ^ (Z.pos (digits2_pos p) - 1)).
    generalize dependent (2 ^ Z.pos (digits2_pos p)). intros; lia.
  - rewrite Pos2Z.inj_succ, (Pos2Z.inj_xO p).
    replace (Z.succ (Zpos (digits2_pos p)) - 1) with (Z.succ (Zpos (digits2_pos p) - 1)) by lia.
    rewrite !Z.pow_succ_r by lia.
    generalize dependent (2 ^ (Z.pos (digits2_pos p) - 1)).
    generalize dependent (2 ^ Z.pos (digits2_pos p)). intros; lia.
  - cbn. lia.
Qed.

Lemma iter_xO_pow (d m : positive) : Zpos (Pos.iter xO m d) = Zpos m * 2 ^ Zpos d.
Proof.
  induction d as [|d IH] using Pos.peano_ind.
  - cbn. lia.
  - rewrite Pos.iter_succ, (Pos2Z.inj_xO (Pos.iter xO m d)), IH, Pos2Z.inj_succ, Z.pow_succ_r by lia. lia.
Qed.

Lemma shl_align_fst (mx : positive) (ex ez : Z) :
  ez <= ex -> Zpos (fst (shl_align mx ex ez)) = Zpos mx * 2 ^ (ex - ez).
Proof.
  intros H. unfold shl_align.
  destruct (ez - ex) as [|d|d] eqn:E; cbn [fst].
  - replace (ex - ez) with 0 by lia. cbn. lia.
  - lia.
  - rewrite iter_xO_pow. f_equal. f_equal. lia.
Qed.

Lemma shr_1_m (mrs : shr_record) :
  0 <= shr_m mrs -> shr_m (shr_1 mrs) = shr_m mrs / 2.
Proof.
  destruct mrs as [m r s]. cbn [shr_m]. intros H.
  rewrite <- Z.div2_div.
  destruct m as [|[p|p|]|p]; try reflexivity. lia.
Qed.

Lemma iter_pos_shr_m (p : positive) (mrs : shr_record) :
  0 <= shr_m mrs -> shr_m (SpecFloat.iter_pos shr_1 p mrs) = shr_m mrs / 2 ^ Zpos p.
Proof.
  revert mrs. induction p as [p IH|p IH|]; intros mrs H; cbn [SpecFloat.iter_pos].
  - assert (E : 2 ^ Z.pos p~1 = 2 * (2 ^ Z.pos p * 2 ^ Z.pos p)).
    { rewrite (Pos2Z.inj_xI p), <- Z.pow_add_r, <- Z.pow_succ_r by lia. f_equal. lia. }
    assert (H1 : 0 <= shr_m (shr_1 mrs)) by (rewrite shr_1_m by lia; apply Z.div_pos; lia).
    assert (H2 : 0 <= shr_m (SpecFloat.iter_pos shr_1 p (shr_1 mrs))).
    { rewrite IH by lia. apply Z.div_pos; lia. }
    rewrite IH, IH, shr_1_m by lia.
    rewrite E, <- !Z.div_div by lia. reflexivity.
  - assert (E : 2 ^ Z.pos p~0 = 2 ^ Z.pos p * 2 ^ Z.pos p).
    { rewrite (Pos2Z.inj_xO p), <- Z.pow_add_r by lia. f_equal. lia. }
    assert (H2 : 0 <= shr_m (SpecFloat.iter_pos shr_1 p mrs)).
    { rewrite IH by lia. apply Z.div_pos; lia. }
    rewrite IH, IH by lia.
    rewrite E, <- Z.div_div by lia. reflexivity.
  - cbn. apply shr_1_m. lia.
Qed.

Lemma shr_record_of_loc_m (m : Z) (l : location) : shr_m (shr_record_of_loc m l) = m.
Proof. destruct l as [|[| |]]; reflexivity. Qed.

Lemma shr_fexp_pos (m e : Z) (l : location) :
  0 < m -> emin <= e ->
  0 < shr_m (fst (shr_fexp prec emax m e l)) /\ emin <= snd (shr_fexp prec emax m e l).
Proof.
  intros Hm He. unfold shr_fexp, shr.
  destruct m as [|p|p]; try lia. cbn [Zdigits2].
  pose proof (digits2_pos_bounds p) as Hd.
  set (d := Z.pos (digits2_pos p)) in *.
  assert (0 < d) by (subst d; lia).
  destruct (fexp prec emax (d + e) - e) as [|n|n] eqn:En; cbn [fst snd];
    rewrite ?shr_record_of_loc_m; try (split; lia).
  rewrite iter_pos_shr_m by (rewrite shr_record_of_loc_m; lia).
  rewrite shr_record_of_loc_m.
  unfold fexp, SpecFloat.emin, prec, emax in *.
  split; [|lia].
  apply Z.div_str_pos. split; [apply Z.pow_pos_nonneg; lia|].
  transitivity (2 ^ (d - 1)); [|lia].
  apply Z.pow_le_mono_r; lia.
Qed.

Lemma round_nearest_even_pos (m : Z) (l : location) : 0 < m -> 0 < round_nearest_even m l.
Proof.
  intros H. destruct l as [|[| |]]; cbn; try lia.
  destruct (Z.even m); lia.
Qed.

Lemma binary_round_aux_sign (s : bool) (m e : Z) (l : location) :
  0 < m -> emin <= e -> negative_result s (binary_round_aux prec emax s m e l).
Proof.
  intros Hm He. unfold binary_round_aux.
  pose proof (shr_fexp_pos m e l Hm He) as [H1 H2].
  destruct (shr_fexp prec emax m e l) as [mrs' e']. cbn [fst snd] in H1, H2.
  pose proof (round_nearest_even_pos (shr_m mrs') (loc_of_shr_record mrs') H1) as H3.
  pose proof (shr_fexp_pos _ e' loc_Exact H3 H2) as [H4 H5].
  destruct (shr_fexp prec emax _ e' loc_Exact) as [mrs'' e'']. cbn [fst snd] in H4, H5.
  destruct (shr_m mrs'') as [|q|q]; try lia.
  destruct (e'' <=? emax - prec); reflexivity.
Qed.

Lemma binary_round_sign (s : bool) (m : positive) (e : Z) :
  emin <= e -> negative_result s (binary_round prec emax s m e).
Proof.
  intros He. unfold binary_round.
  destruct (shl_align m e _) as [mz ez] eqn:E.
  apply binary_round_aux_sign; [lia|].
  unfold shl_align in E.
  destruct (fexp prec emax (Z.pos (digits2_pos m) + e) - e) eqn:E'; inversion E; subst; try lia.
  unfold fexp, SpecFloat.emin in *. lia.
Qed.

Lemma bounded_facts (m : positive) (e : Z) :
  bounded prec emax m e = true ->
  emin <= e /\ Zpos m < 2 ^ 53 /\ (emin < e -> 2 ^ 52 <= Zpos m).
Proof.
  unfold bounded, canonical_mantissa. intros H.
  apply andb_prop in H as [H _]. apply Z.eqb_eq in H.
  pose proof (digits2_pos_bounds m) as Hd.
  set (d := Z.pos (digits2_pos m)) in *.
  unfold fexp, SpecFloat.emin, prec, emax in *.
  assert (Hd53 : d <= 53) by lia.
  split; [lia|]. split.
  - apply Z.lt_le_trans with (2 ^ d); [lia|]. apply Z.pow_le_mono_r; lia.
  - intros He. assert (d = 53) as -> by lia. exact (proj1 Hd).
Qed.

Lemma scaled_lt (mx my : positive) (ex ey : Z) :
  bounded prec emax mx ex = true -> bounded prec emax my ey = true ->
  ex < ey -> Zpos mx < Zpos my * 2 ^ (ey - ex).
Proof.
  intros Hx Hy Hlt.
  apply bounded_facts in Hx as (Hex & Hmx & _).
  apply bounded_facts in Hy as (Hey & _ & Hmy).
  specialize (Hmy ltac:(lia)).
  assert (Hk : 2 ^ 1 <= 2 ^ (ey - ex)) by (apply Z.pow_le_mono_r; lia).
  change (2 ^ 1) with 2 in Hk. change (2 ^ 53) with (2 * 2 ^ 52) in Hmx.
  generalize dependent (2 ^ (ey - ex)). generalize dependent (2 ^ 52). intros. nia.
Qed.

Lemma aligned_diff_compare sx mx ex sy my ey :
  bounded prec emax mx ex = true -> bounded prec emax my ey = true ->
  SFcompare (S754_finite sx mx ex) (S754_finite sy my ey)
  = Some (aligned_diff sx mx ex sy my ey ?= 0).
Proof.
  intros Hx Hy. unfold aligned_diff.
  rewrite !shl_align_fst by lia.
  cbn [SFcompare]. f_equal.
  change (Pos.compare_cont Eq mx my) with (Pos.compare mx my).
  assert (Px : 0 < 2 ^ (ex - Z.min ex ey)) by (apply Z.pow_pos_nonneg; lia).
  assert (Py : 0 < 2 ^ (ey - Z.min ex ey)) by (apply Z.pow_pos_nonneg; lia).
  destruct (Z.compare_spec ex ey) as [E|E|E].
  - subst ey. rewrite Z.min_id, Z.sub_diag in *. change (2 ^ 0) with 1. rewrite !Z.mul_1_r.
    destruct sx, sy; cbn [cond_Zopp]; symmetry;
      try (destruct (Pos.compare_spec mx my); cbn [CompOpp];
           first [apply Z.compare_eq_iff | apply Z.compare_lt_iff | apply Z.compare_gt_iff]; lia);
      first [apply Z.compare_lt_iff | apply Z.compare_gt_iff]; lia.
  - pose proof (scaled_lt mx my ex ey Hx Hy E) as Hlt.
    rewrite Z.min_l in * by lia. rewrite Z.sub_diag. change (2 ^ 0) with 1. rewrite Z.mul_1_r.
    destruct sx, sy; cbn [cond_Zopp]; symmetry;
      first [apply Z.compare_lt_iff | apply Z.compare_gt_iff]; lia.
  - pose proof (scaled_lt my mx ey ex Hy Hx E) as Hlt.
    rewrite Z.min_r in * by lia. rewrite Z.sub_diag. change (2 ^ 0) with 1. rewrite Z.mul_1_r.
    destruct sx, sy; cbn [cond_Zopp]; symmetry;
      first [apply Z.compare_lt_iff | apply Z.compare_gt_iff]; lia.
Qed.

Lemma binary_normalize_compare (m e : Z) :
  emin <= e ->
  SFcompare (binary_normalize prec emax m e false) zero_sf = Some (m ?= 0).
Proof.
  intros He. destruct m as [|p|p]; cbn [binary_normalize].
  - reflexivity.
  - pose proof (binary_round_sign false p e He) as H.
    destruct (binary_round prec emax false p e) as [| | |s q k]; cbn in H; try contradiction; subst; reflexivity.
  - pose proof (binary_round_sign true p e He) as H.
    destruct (binary_round prec emax true p e) as [| | |s q k]; cbn in H; try contradiction; subst; reflexivity.
Qed.

(** The sign of a difference is the order of its operands. *)
Lemma SFsub_compare (X Y : spec_float) :
  valid_binary X = true -> valid_binary Y = true ->
  match SFcompare X Y with
  | Some Eq =>
      match X with
      | S754_infinity _ => SFsub prec emax X Y = S754_nan
      | _ => SFcompare (SFsub prec emax X Y) zero_sf = Some Eq
      end
  | Some c => SFcompare (SFsub prec emax X Y) zero_sf = Some c
  | None => SFcompare (SFsub prec emax X Y) zero_sf = None
  end.
Proof.
  intros HX HY.
  destruct X as [sx|sx| |sx mx ex], Y as [sy|sy| |sy my ey];
    try reflexivity;
    try (destruct sx; try destruct sy; reflexivity);
    try (destruct sy; reflexivity).
  cbn [valid_binary] in HX, HY.
  rewrite (aligned_diff_compare _ _ _ _ _ _ HX HY).
  cbn [SFsub]. fold (aligned_diff sx mx ex sy my ey).
  rewrite binary_normalize_compare.
  - destruct (aligned_diff sx mx ex sy my ey ?= 0); reflexivity.
  - apply bounded_facts in HX as (? & _). apply bounded_facts in HY as (? & _). lia.
Qed.

Lemma CompOpp_cont (m1 m2 : positive) :
  Pos.compare_cont Eq m2 m1 = CompOpp (Pos.compare_cont Eq m1 m2).
Proof. apply (Pos.compare_antisym m1 m2). Qed.

Lemma SFcompare_antisym (X Y : spec_float) :
  SFcompare Y X = option_map CompOpp (SFcompare X Y).
Proof.
  destruct X as [sx|sx| |sx mx ex], Y as [sy|sy| |sy my ey]; try reflexivity;
    try (destruct sx; try destruct sy; reflexivity);
    try (destruct sy; reflexivity).
  cbn [SFcompare option_map]. f_equal.
  rewrite (Z.compare_antisym ex ey), (CompOpp_cont mx my).
  destruct sx, sy; try reflexivity;
    destruct (ex ?= ey); cbn [CompOpp]; try reflexivity;
    destruct (Pos.compare_cont Eq mx my); reflexivity.
Qed.

Lemma SFcompare_Eq_l (X Y Z : spec_float) :
  SFcompare X Y = Some Eq -> SFcompare X Z = SFcompare Y Z.
Proof.
  destruct X as [sx|sx| |sx mx ex], Y as [sy|sy| |sy my ey]; try discriminate;
    try (destruct sx; try destruct sy; try discriminate; intros _;
         destruct Z as [sz|sz| |sz mz ez]; reflexivity);
    try (destruct sy; discriminate).
  cbn [SFcompare]. intros H.
  assert (sx = sy /\ ex = ey /\ mx = my) as (-> & -> & ->); [|reflexivity].
  change (Pos.compare_cont Eq mx my) with (Pos.compare mx my) in H.
  destruct sx, sy; try discriminate;
    destruct (Z.compare_spec ex ey); try discriminate;
    destruct (Pos.compare_spec mx my); try discriminate; auto.
Qed.

Lemma SFcompare_Lt_trans (X Y Z : spec_float) :
  SFcompare X Y = Some Lt -> SFcompare Y Z = Some Lt -> SFcompare X Z = Some Lt.
Proof.
  destruct X as [sx|sx| |sx mx ex], Y as [sy|sy| |sy my ey], Z as [sz|sz| |sz mz ez];
    try discriminate;
    try (destruct sx; try destruct sy; try destruct sz; (discriminate || reflexivity));
    try (destruct sy; try destruct sz; (discriminate || reflexivity));
    try (destruct sz; (discriminate || reflexivity)).
  cbn [SFcompare].
  change (Pos.compare_cont Eq mx my) with (Pos.compare mx my).
  change (Pos.compare_cont Eq my mz) with (Pos.compare my mz).
  change (Pos.compare_cont Eq mx mz) with (Pos.compare mx mz).
  destruct sx, sy, sz; try (discriminate || reflexivity);
    destruct (Z.compare_spec ex ey); try discriminate;
    destruct (Z.compare_spec ey ez); try discriminate;
    destruct (Z.compare_spec ex ez); try lia; try reflexivity;
    destruct (Pos.compare_spec mx my); try discriminate;
    destruct (Pos.compare_spec my mz); try discriminate;
    destruct (Pos.compare_spec mx mz); try lia; try reflexivity.
Qed.

Lemma SFcompare_refl (X : spec_float) : X <> S754_nan -> SFcompare X X = Some Eq.
Proof.
  destruct X as [s|s| |s m e]; try congruence; intros _.
  - reflexivity.
  - destruct s; reflexivity.
  - cbn [SFcompare]. rewrite Z.compare_refl.
    change (Pos.compare_cont Eq m m) with (Pos.compare m m). rewrite Pos.compare_refl.
    destruct s; reflexivity.
Qed.

Lemma SFcompare_total (X Y : spec_float) :
  X <> S754_nan -> Y <> S754_nan -> exists c, SFcompare X Y = Some c.
Proof.
  destruct X as [sx|sx| |sx mx ex], Y as [sy|sy| |sy my ey]; try congruence; intros _ _;
    cbn [SFcompare]; eauto.
Qed.

(** Primitive floats *)

Lemma ltb_fcompare (u v : float) : (u <? v)%float = true <-> fcompare u v = Some Lt.
Proof.
  rewrite FloatAxioms.ltb_spec. unfold SFltb, fcompare.
  destruct (SFcompare _ _) as [[| |]|]; split; congruence.
Qed.

Lemma eqb_fcompare (u v : float) : (u =? v)%float = true <-> fcompare u v = Some Eq.
Proof.
  rewrite FloatAxioms.eqb_spec. unfold SFeqb, fcompare.
  destruct (SFcompare _ _) as [[| |]|]; split; congruence.
Qed.

Lemma is_nan_SF (u : float) : is_nan u = false <-> Prim2SF u <> S754_nan.
Proof.
  unfold is_nan. rewrite FloatAxioms.eqb_spec. unfold SFeqb. split.
  - intros H E. rewrite E in H. discriminate.
  - intros H. rewrite SFcompare_refl by assumption. reflexivity.
Qed.

Lemma fcompare_total (u v : float) :
  is_nan u = false -> is_nan v = false -> exists c, fcompare u v = Some c.
Proof. rewrite !is_nan_SF. apply SFcompare_total. Qed.

Lemma fcompare_antisym (u v : float) : fcompare v u = option_map CompOpp (fcompare u v).
Proof. apply SFcompare_antisym. Qed.

Lemma fcompare_sub (u v : float) :
  match fcompare u v with
  | Some Eq => True
  | c => fcompare (u - v) 0 = c
  end.
Proof.
  unfold fcompare. rewrite FloatAxioms.sub_spec.
  pose proof (SFsub_compare (Prim2SF u) (Prim2SF v) (Prim2SF_valid u) (Prim2SF_valid v)) as H.
  change (Prim2SF 0) with zero_sf.
  destruct (SFcompare (Prim2SF u) (Prim2SF v)) as [[| |]|]; auto.
Qed.

Lemma fcompare_sub_Eq (u v : float) :
  fcompare u v = Some Eq ->
  fcompare (u - v) 0 = Some Eq \/ Prim2SF (u - v) = S754_nan.
Proof.
  unfold fcompare. rewrite FloatAxioms.sub_spec. intros E.
  pose proof (SFsub_compare (Prim2SF u) (Prim2SF v) (Prim2SF_valid u) (Prim2SF_valid v)) as H.
  change (Prim2SF 0) with zero_sf.
  rewrite E in H. destruct (Prim2SF u); auto.
Qed.

(** JavaScript's [u - v < 0] is [u < v], and [u - v > 0] is [u > v], for
    all numbers. *)
Lemma sub_ltb_zero (u v : float) : (u - v <? 0)%float = (u <? v)%float.
Proof.
  apply Bool.eq_iff_eq_true. rewrite !ltb_fcompare.
  pose proof (fcompare_sub u v) as H.
  destruct (fcompare u v) as [[| |]|] eqn:E; try (rewrite H; reflexivity).
  split; [|discriminate].
  destruct (fcompare_sub_Eq u v E) as [H'|H']; [congruence|].
  unfold fcompare. rewrite H'. discriminate.
Qed.

Lemma sub_gtb_zero (u v : float) : (0 <? u - v)%float = (v <? u)%float.
Proof.
  apply Bool.eq_iff_eq_true. rewrite !ltb_fcompare.
  rewrite (fcompare_antisym (u - v) 0), (fcompare_antisym u v).
  pose proof (fcompare_sub u v) as H.
  destruct (fcompare u v) as [[| |]|] eqn:E; try (rewrite H; reflexivity).
  split; [|discriminate].
  destruct (fcompare_sub_Eq u v E) as [H'|H']; [rewrite H'; discriminate|].
  unfold fcompare. rewrite H'. discriminate.
Qed.

Lemma is_finite_SF (u : float) :
  is_finite u = true ->
  match Prim2SF u with
  | S754_infinity _ | S754_nan => False
  | _ => True
  end.
Proof.
  unfold is_finite, is_nan, is_infinity.
  rewrite !FloatAxioms.eqb_spec, abs_spec.
  change (Prim2SF infinity) with (S754_infinity false).
  destruct (Prim2SF u) as [s|s| |s m e]; try (intros _; exact I);
    try destruct s; cbn; discriminate.
Qed.

(** For finite operands, [u == v] makes both differences [== 0]. *)
Lemma sub_eqb_zero (u v : float) :
  is_finite u = true -> (u =? v)%float = true ->
  (u - v =? 0)%float = true /\ (v - u =? 0)%float = true.
Proof.
  intros Hu E. apply is_finite_SF in Hu.
  apply eqb_fcompare in E.
  assert (E' : fcompare v u = Some Eq) by (rewrite fcompare_antisym, E; reflexivity).
  rewrite !eqb_fcompare. unfold fcompare in *. rewrite !FloatAxioms.sub_spec.
  change (Prim2SF 0) with zero_sf.
  pose proof (SFsub_compare _ _ (Prim2SF_valid u) (Prim2SF_valid v)) as H1.
  pose proof (SFsub_compare _ _ (Prim2SF_valid v) (Prim2SF_valid u)) as H2.
  rewrite E in H1. rewrite E' in H2.
  destruct (Prim2SF u) as [su|su| |su mu eu], (Prim2SF v) as [sv|sv| |sv mv ev];
    try contradiction; try discriminate; auto.
Qed.

(** [0x1p-1074] is the smallest positive number. *)
Lemma min_positive_least (f : float) :
  (0 <? f)%float = true -> (0x1p-1074 <=? f)%float = true.
Proof.
  rewrite FloatAxioms.ltb_spec, leb_spec.
  change (Prim2SF 0) with zero_sf.
  replace (Prim2SF 0x1p-1074) with (S754_finite false 1 (-1074)) by (vm_compute; reflexivity).
  pose proof (Prim2SF_valid f) as V.
  destruct (Prim2SF f) as [s|s| |s m e]; try destruct s; try discriminate; try reflexivity.
  intros _. cbn [valid_binary] in V. apply bounded_facts in V as (He & _).
  unfold SpecFloat.emin, prec, emax in He. cbn in He.
  unfold SFleb. cbn [SFcompare].
  destruct (Z.compare_spec (-1074) e); try lia; try reflexivity.
  change (Pos.compare_cont Eq 1 m) with (Pos.compare 1 m).
  destruct (Pos.compare_spec 1 m); try lia; reflexivity.
Qed.

End Binary64.

Section QueueFacts.
Local Open Scope float_scope.

Lemma last_snoc' {A} (l : list A) (v : A) : last (l ++ [v]) = Some v.
Proof. apply last_snoc. Qed.

Lemma removelast_snoc {A} (l : list A) (v : A) : removelast (l ++ [v]) = l.
Proof. apply removelast_last. Qed.

End QueueFacts.

Section EdgeFacts.
Local Open Scope float_scope.

(** C2, as the code has it: the slot is [firstVertex] when
    [distanceFromPlane(leftFace, rightFace, V) > 0] and [lastVertex]
    otherwise, and the vertex is stored in that slot whatever the slot
    held; the faces and the other slot are left as they were. *)
Theorem addVertexToEdge_overwrites (edge : Edge) (vertex : Coordinate) :
  leftFace (addVertexToEdge edge vertex) = leftFace edge
  /\ rightFace (addVertexToEdge edge vertex) = rightFace edge
  /\ if gtb (distanceFromPlane (leftFace edge) (rightFace edge) vertex) 0
     then firstVertex (addVertexToEdge edge vertex) = Some vertex
          /\ lastVertex (addVertexToEdge edge vertex) = lastVertex edge
     else lastVertex (addVertexToEdge edge vertex) = Some vertex
          /\ firstVertex (addVertexToEdge edge vertex) = firstVertex edge.
Proof.
  unfold addVertexToEdge.
  destruct (gtb _ _); cbn; auto.
Qed.

(** C2 fails as stated: (1,-1) lies at distance 1 > 0 from the line
    (0,0)->(2,0), its slot [firstVertex] already holds (1,-5), and the write
    replaces it. *)
Lemma second_write_dropped_fails :
  ~ Spec.second_write_dropped c2_edge (mkCoordinate 1 (-1)).
Proof.
  intros [H _].
  assert (E : addVertexToEdge c2_edge (mkCoordinate 1 (-1)) = c2_edge).
  { apply H; [vm_compute; reflexivity | eexists; reflexivity]. }
  vm_compute in E. discriminate E.
Qed.

Lemma completeEdge_idem (edge : Edge) :
  completeEdge (completeEdge edge) = completeEdge edge.
Proof.
  destruct edge as [lf rf [f|] [l|]]; [reflexivity | | | reflexivity];
    (match goal with |- completeEdge ?r = _ => remember r as e' eqn:He' end;
     unfold completeEdge in He'; simpl in He';
     rewrite He'; clear He';
     match goal with |- context [if ?c then _ else _] => destruct c end;
     reflexivity).
Qed.

(** C7: finalization is idempotent; a second [completeUnboundEdges]
    leaves the diagram, and so every field of every edge, as the first one
    left it. *)
Theorem completeUnboundEdges_idempotent (d : VoronoiDiagram) :
  completeUnboundEdges (completeUnboundEdges d) = completeUnboundEdges d.
Proof.
  destruct d as [sites es sweep q h n].
  unfold completeUnboundEdges, with_edges; cbn.
  f_equal.
  rewrite map_map.
  apply map_ext; intros e; apply completeEdge_idem.
Qed.

End EdgeFacts.

Section EdgeLookup.

Lemma getEdge_test_sym (a b : Site) (e : Edge) :
  getEdge_test a b e = getEdge_test b a e.
Proof. unfold getEdge_test. apply orb_comm. Qed.




End EdgeLookup.

Section TwoSites.
Local Open Scope float_scope.




End TwoSites.

Section CircleFacts.
Import Binary64.
Local Open Scope float_scope.

Lemma ltb_true (u v : float) : (u <? v) = true <-> fcompare u v = Some Lt.
Proof. apply ltb_fcompare. Qed.

Lemma eqb_true (u v : float) : (u =? v) = true <-> fcompare u v = Some Eq.
Proof. apply eqb_fcompare. Qed.

Lemma ltb_false (u v : float) : (u <? v) = false <-> fcompare u v <> Some Lt.
Proof. rewrite <- ltb_true. destruct (u <? v); split; congruence. Qed.

Lemma eqb_false (u v : float) : (u =? v) = false <-> fcompare u v <> Some Eq.
Proof. rewrite <- eqb_true. destruct (u =? v); split; congruence. Qed.

Lemma key_lt_compare (p q : Coordinate) :
  key_lt p q = true <-> key_compare p q = Some Lt.
Proof.
  unfold key_lt, key_compare.
  rewrite orb_true_iff, andb_true_iff, !ltb_true, eqb_true.
  destruct (fcompare (y p) (y q)) as [[| |]|]; split; intros H;
    try tauto; try congruence; try (destruct H as [H|[H _]]; congruence).
  destruct H as [H|[_ H]]; [congruence|assumption].
Qed.

(** What the sort reads of the comparator of [circle]. *)
Lemma circle_compare_lt (p q : Coordinate) :
  order_negative circle_compare p q = true <-> key_compare p q = Some Lt.
Proof.
  unfold order_negative, circle_compare, key_compare.
  destruct (y p =? y q) eqn:E.
  - apply eqb_true in E. rewrite E, sub_ltb_zero, ltb_true. reflexivity.
  - apply eqb_false in E. rewrite sub_ltb_zero, ltb_true.
    destruct (fcompare (y p) (y q)) as [[| |]|]; cbn; split; congruence.
Qed.

Lemma key_compare_antisym (p q : Coordinate) :
  key_compare q p = option_map CompOpp (key_compare p q).
Proof.
  unfold key_compare.
  rewrite (fcompare_antisym (y p) (y q)), (fcompare_antisym (x p) (x q)).
  destruct (fcompare (y p) (y q)) as [[| |]|]; reflexivity.
Qed.

Lemma fcompare_Eq_l (u v w : float) :
  fcompare u v = Some Eq -> fcompare u w = fcompare v w.
Proof. apply SFcompare_Eq_l. Qed.

Lemma fcompare_Eq_r (u v w : float) :
  fcompare v w = Some Eq -> fcompare u v = fcompare u w.
Proof.
  intros H.
  rewrite (fcompare_antisym v u), (fcompare_antisym w u).
  f_equal. apply fcompare_Eq_l. exact H.
Qed.

Lemma fcompare_Lt_trans (u v w : float) :
  fcompare u v = Some Lt -> fcompare v w = Some Lt -> fcompare u w = Some Lt.
Proof. apply SFcompare_Lt_trans. Qed.

Lemma key_compare_Lt_trans (p q r : Coordinate) :
  key_compare p q = Some Lt -> key_compare q r = Some Lt -> key_compare p r = Some Lt.
Proof.
  unfold key_compare.
  destruct (fcompare (y p) (y q)) as [[| |]|] eqn:Epq; try discriminate;
    destruct (fcompare (y q) (y r)) as [[| |]|] eqn:Eqr; try discriminate; intros Hx1 Hx2.
  - rewrite (fcompare_Eq_l _ _ _ Epq), Eqr. eauto using fcompare_Lt_trans.
  - rewrite (fcompare_Eq_l _ _ _ Epq), Eqr. reflexivity.
  - rewrite <- (fcompare_Eq_r _ _ _ Eqr), Epq. reflexivity.
  - rewrite (fcompare_Lt_trans _ _ _ Epq Eqr). reflexivity.
Qed.

Lemma key_compare_total (p q : Coordinate) :
  no_nan p -> no_nan q -> distinct p q ->
  key_compare p q = Some Lt \/ key_compare p q = Some Gt.
Proof.
  intros [Hpx Hpy] [Hqx Hqy] Hd. unfold key_compare, distinct in *.
  destruct (fcompare_total (y p) (y q) Hpy Hqy) as [cy Ey].
  destruct (fcompare_total (x p) (x q) Hpx Hqx) as [cx Ex].
  rewrite Ey, Ex.
  destruct cy; auto. destruct cx; auto.
  apply eqb_true in Ex, Ey. rewrite Ex, Ey in Hd. discriminate.
Qed.

Lemma sort3 (p q r : Coordinate) :
  key_compare p q = Some Lt -> key_compare q r = Some Lt ->
  let sorted := [p; q; r] in
  Array_sort circle_compare [p; q; r] = sorted
  /\ Array_sort circle_compare [p; r; q] = sorted
  /\ Array_sort circle_compare [q; p; r] = sorted
  /\ Array_sort circle_compare [q; r; p] = sorted
  /\ Array_sort circle_compare [r; p; q] = sorted
  /\ Array_sort circle_compare [r; q; p] = sorted.
Proof.
  intros Hpq Hqr.
  pose proof (key_compare_Lt_trans _ _ _ Hpq Hqr) as Hpr.
  assert (G : forall u v, key_compare u v = Some Lt ->
                order_negative circle_compare u v = true
                /\ order_negative circle_compare v u = false).
  { intros u v H. split.
    - by apply circle_compare_lt.
    - apply not_true_is_false. rewrite circle_compare_lt, key_compare_antisym, H. done. }
  destruct (G _ _ Hpq) as [Gpq Gqp], (G _ _ Hqr) as [Gqr Grq], (G _ _ Hpr) as [Gpr Grp].
  unfold Array_sort, CountAndMakeRun, binary_insert.
  repeat (progress (rewrite ?Gpq, ?Gqp, ?Gqr, ?Grq, ?Gpr, ?Grp; cbn -[order_negative])).
  repeat split; reflexivity.
Qed.

Lemma circle_of_sorted (u v w p q r : Coordinate) :
  Array_sort circle_compare [u; v; w] = [p; q; r] -> circle u v w = circle_sorted p q r.
Proof. intros H. unfold circle. rewrite H. reflexivity. Qed.

Ltac perm3 :=
  first [ reflexivity
        | apply perm_swap
        | apply perm_skip, perm_swap
        | (etrans; [apply perm_swap|]; apply perm_skip, perm_swap)
        | (etrans; [apply perm_skip, perm_swap|]; apply perm_swap)
        | (etrans; [apply perm_swap|]; etrans; [apply perm_skip, perm_swap|];
           apply perm_swap) ].

Ltac sorted_as p q r Hpq Hqr :=
  destruct (sort3 p q r Hpq Hqr) as (? & ? & ? & ? & ? & ?);
  exists p, q, r; rewrite !key_lt_compare;
  split_and!; [perm3 | exact Hpq | exact Hqr | apply circle_of_sorted; assumption ..].

(** C5: for three points without [NaN] coordinates that are pairwise
    distinct, [circle] sorts them into one order [p], [q], [r] (ascending y,
    ties by ascending x) whatever the order of the arguments, and so returns
    the same centre and radius for all six orders. *)
Theorem circle_permutation_invariant (a b c : Coordinate) :
  no_nan a -> no_nan b -> no_nan c ->
  distinct a b -> distinct a c -> distinct b c ->
  exists p q r,
    Permutation [a; b; c] [p; q; r]
    /\ key_lt p q = true /\ key_lt q r = true
    /\ circle a b c = circle_sorted p q r
    /\ circle a c b = circle_sorted p q r
    /\ circle b a c = circle_sorted p q r
    /\ circle b c a = circle_sorted p q r
    /\ circle c a b = circle_sorted p q r
    /\ circle c b a = circle_sorted p q r.
Proof.
  intros Ha Hb Hc Hab Hac Hbc.
  assert (Flip : forall u v, key_compare u v = Some Gt -> key_compare v u = Some Lt)
    by (intros u v H; rewrite key_compare_antisym, H; reflexivity).
  destruct (key_compare_total a b Ha Hb Hab) as [Eab|Eab],
           (key_compare_total a c Ha Hc Hac) as [Eac|Eac],
           (key_compare_total b c Hb Hc Hbc) as [Ebc|Ebc].
  - sorted_as a b c Eab Ebc.
  - sorted_as a c b Eac (Flip _ _ Ebc).
  - pose proof (key_compare_Lt_trans _ _ _ Eab Ebc). congruence.
  - sorted_as c a b (Flip _ _ Eac) Eab.
  - sorted_as b a c (Flip _ _ Eab) Eac.
  - pose proof (key_compare_Lt_trans _ _ _ Eac (Flip _ _ Ebc)). congruence.
  - sorted_as b c a Ebc (Flip _ _ Eac).
  - sorted_as c b a (Flip _ _ Ebc) (Flip _ _ Eab).
Qed.

Lemma circle_permutation_invariant_witness :
  exists p q r,
    Permutation [c5_a; c5_b; c5_c] [p; q; r]
    /\ key_lt p q = true /\ key_lt q r = true
    /\ circle c5_a c5_b c5_c = circle_sorted p q r
    /\ circle c5_a c5_c c5_b = circle_sorted p q r
    /\ circle c5_b c5_a c5_c = circle_sorted p q r
    /\ circle c5_b c5_c c5_a = circle_sorted p q r
    /\ circle c5_c c5_a c5_b = circle_sorted p q r
    /\ circle c5_c c5_b c5_a = circle_sorted p q r.
Proof.
  apply (circle_permutation_invariant c5_a c5_b c5_c);
    first [ split; vm_compute; reflexivity | vm_compute; reflexivity ].
Defined.

End CircleFacts.

Section SortPermutation.
Context {A : Type} (cmp : A -> A -> float).

(** The binary search ends before its fuel: the result is the same for
    any fuel that is at least the width of the interval. *)
Lemma binary_search_fuel (fuel fuel' : nat) (pivot : A) (sorted : list A) (left right : nat) :
  right - left <= fuel -> right - left <= fuel' ->
  binary_search cmp fuel pivot sorted left right
  = binary_search cmp fuel' pivot sorted left right.
Proof.
  revert fuel' left right. induction fuel as [|fuel IH]; intros fuel' left right Hf Hf'.
  - destruct fuel' as [|fuel']; [reflexivity |]. cbn [binary_search].
    destruct (Nat.ltb_spec left right); [lia | reflexivity].
  - cbn [binary_search]. destruct (Nat.ltb_spec left right) as [Hlt|Hge].
    + destruct fuel' as [|fuel']; [lia |]. cbn [binary_search].
      destruct (Nat.ltb_spec left right); [| lia].
      assert (Hhalf : (right - left) / 2 < right - left) by (apply Nat.div_lt; lia).
      destruct (sorted !! (left + (right - left) / 2)); [| reflexivity].
      destruct (order_negative cmp pivot a); apply IH; lia.
    + destruct fuel' as [|fuel']; [reflexivity |]. cbn [binary_search].
      destruct (Nat.ltb_spec left right); [lia | reflexivity].
Qed.

Lemma binary_insert_perm (sorted : list A) (pivot : A) :
  binary_insert cmp sorted pivot ≡ₚ pivot :: sorted.
Proof.
  unfold binary_insert. rewrite <- Permutation_middle. by rewrite take_drop.
Qed.

Lemma foldl_binary_insert_perm (rest sorted : list A) :
  foldl (binary_insert cmp) sorted rest ≡ₚ sorted ++ rest.
Proof.
  revert sorted. induction rest as [|v rest IH]; intros sorted; cbn [foldl].
  - by rewrite app_nil_r.
  - rewrite IH, binary_insert_perm. by rewrite <- Permutation_middle.
Qed.

Lemma CountAndMakeRun_perm (l : list A) :
  fst (CountAndMakeRun cmp l) ++ snd (CountAndMakeRun cmp l) ≡ₚ l.
Proof.
  destruct l as [|a [|b t]]; [done.. |].
  unfold CountAndMakeRun. cbn zeta.
  destruct (order_negative cmp b a); cbn [fst snd];
    [rewrite reverse_Permutation |]; by rewrite take_drop.
Qed.

Lemma Array_sort_perm (l : list A) : Array_sort cmp l ≡ₚ l.
Proof.
  unfold Array_sort. pose proof (CountAndMakeRun_perm l) as H.
  destruct (CountAndMakeRun cmp l) as [run rest]. cbn [fst snd] in H.
  by rewrite foldl_binary_insert_perm.
Qed.

Lemma elem_of_Array_sort (l : list A) (v : A) : v ∈ Array_sort cmp l <-> v ∈ l.
Proof. by rewrite Array_sort_perm. Qed.

Lemma Array_sort_length (l : list A) : length (Array_sort cmp l) = length l.
Proof. apply Permutation_length, Array_sort_perm. Qed.

Lemma Array_sort_Forall (Q : A -> Prop) (l : list A) :
  Forall Q l -> Forall Q (Array_sort cmp l).
Proof. by rewrite Array_sort_perm. Qed.

End SortPermutation.

Section SortFacts.
Context {A : Type} (cmp : A -> A -> float) (P : A -> Prop) (R : A -> A -> Prop).
Hypothesis cmp_R : forall a b, P a -> P b -> (order_negative cmp a b = false <-> R b a).
Hypothesis R_total : forall a b, P a -> P b -> R a b \/ R b a.
Hypothesis R_trans : forall a b c, P a -> P b -> P c -> R a b -> R b c -> R a c.

Lemma sorted_lookup (l : list A) (i j : nat) (a b : A) :
  StronglySorted R l -> l !! i = Some a -> l !! j = Some b -> i < j -> R a b.
Proof.
  intros Hs. revert i j. induction Hs as [|h t Ht IH Hh]; intros i j Hi Hj Hlt; [done |].
  destruct j as [|j]; [lia |]. cbn in Hj. destruct i as [|i].
  - injection Hi as <-. rewrite Forall_forall in Hh. apply Hh. by eapply list_elem_of_lookup_2.
  - cbn in Hi. apply (IH i j); [done.. | lia].
Qed.

Lemma sorted_snoc (l : list A) (z : A) :
  StronglySorted R l -> Forall (fun v => R v z) l -> StronglySorted R (l ++ [z]).
Proof.
  induction 1 as [|h t Ht IH Hh]; intros Hz; cbn.
  - repeat constructor.
  - apply Forall_cons in Hz as [Hhz Htz]. constructor; [by apply IH |].
    apply Forall_app. split; [done | by constructor].
Qed.

(** A run is in order: ascending as it stands, descending once reversed. *)
Lemma run_ascending (previous : A) (l : list A) :
  P previous -> Forall P l ->
  StronglySorted R (previous :: take (run_extension cmp false previous l) l).
Proof.
  intros Hp Hl. revert previous Hp.
  induction Hl as [|current t Hc Ht IH]; intros previous Hp; cbn [run_extension].
  - rewrite take_nil. repeat constructor.
  - destruct (order_negative cmp current previous) eqn:E; cbn [Bool.eqb].
    + rewrite take_0. repeat constructor.
    + apply cmp_R in E; [| done..]. cbn [take].
      pose proof (IH current Hc) as Hs. constructor; [done |].
      constructor; [done |].
      apply StronglySorted_inv in Hs as [_ Hs].
      assert (HP : Forall P (take (run_extension cmp false current t) t))
        by (by apply Forall_take).
      rewrite Forall_forall in Hs, HP |- *. intros v Hv.
      apply (R_trans previous current v); auto.
Qed.

Lemma run_descending (previous : A) (l : list A) :
  P previous -> Forall P l ->
  StronglySorted R (reverse (previous :: take (run_extension cmp true previous l) l)).
Proof.
  intros Hp Hl. revert previous Hp.
  induction Hl as [|current t Hc Ht IH]; intros previous Hp; cbn [run_extension].
  - rewrite take_nil. repeat constructor.
  - destruct (order_negative cmp current previous) eqn:E; cbn [Bool.eqb].
    + assert (Hcp : R current previous).
      { destruct (R_total current previous Hc Hp) as [H|H]; [done |].
        apply cmp_R in H; [congruence | done..]. }
      cbn [take]. rewrite reverse_cons.
      pose proof (IH current Hc) as Hs. apply sorted_snoc; [done |].
      assert (HP : Forall P (current :: take (run_extension cmp true current t) t))
        by (constructor; [done | by apply Forall_take]).
      apply Forall_reverse. rewrite <- (reverse_involutive (_ :: _)) in HP |- *.
      rewrite reverse_involutive in HP.
      rewrite reverse_involutive.
      rewrite Forall_forall in HP |- *. intros v Hv.
      apply elem_of_cons in Hv as [-> | Hv]; [done |].
      apply (R_trans v current previous); auto.
      * apply HP. by right.
      * rewrite reverse_cons in Hs.
        apply (StronglySorted_app_1_elem_of R _ [current]) with (x1 := v) (x2 := current) in Hs;
          [done | by apply elem_of_reverse | set_solver].
    + rewrite take_0. repeat constructor.
Qed.

Lemma CountAndMakeRun_sorted (l : list A) :
  Forall P l -> StronglySorted R (fst (CountAndMakeRun cmp l)).
Proof.
  intros Hl. destruct l as [|a [|b t]]; [repeat constructor.. |].
  unfold CountAndMakeRun. cbn zeta.
  apply Forall_cons in Hl as [Ha Hl].
  destruct (order_negative cmp b a) eqn:E; cbn [fst].
  - pose proof (run_descending a (b :: t) Ha Hl) as H.
    cbn [run_extension] in H. rewrite E in H. exact H.
  - pose proof (run_ascending a (b :: t) Ha Hl) as H.
    cbn [run_extension] in H. rewrite E in H. exact H.
Qed.

Lemma binary_search_spec (fuel : nat) (pivot : A) (sorted : list A) (left right : nat) :
  P pivot -> Forall P sorted -> StronglySorted R sorted ->
  left <= right <= length sorted -> right - left <= fuel ->
  Forall (fun v => R v pivot) (take left sorted) ->
  Forall (fun v => R pivot v) (drop right sorted) ->
  Forall (fun v => R v pivot) (take (binary_search cmp fuel pivot sorted left right) sorted)
  /\ Forall (fun v => R pivot v) (drop (binary_search cmp fuel pivot sorted left right) sorted).
Proof.
  intros Hp HP Hs. revert left right.
  induction fuel as [|fuel IH]; intros left right Hb Hf HL HR; cbn [binary_search].
  - assert (left = right) as -> by lia. done.
  - destruct (Nat.ltb_spec left right) as [Hlt|Hge];
      [| assert (left = right) as -> by lia; done].
    assert (Hhalf : (right - left) / 2 < right - left) by (apply Nat.div_lt; lia).
    set (mid := left + (right - left) / 2) in *.
    destruct (lookup_lt_is_Some_2 sorted mid ltac:(lia)) as [element Hm]. rewrite Hm.
    assert (He : P element).
    { rewrite Forall_forall in HP. apply HP. by eapply list_elem_of_lookup_2. }
    destruct (order_negative cmp pivot element) eqn:E.
    + assert (Hpe : R pivot element).
      { destruct (R_total pivot element Hp He) as [H|H]; [done |].
        apply cmp_R in H; [congruence | done..]. }
      apply IH; [lia | lia | done |].
      rewrite Forall_lookup. intros i v Hv. rewrite lookup_drop in Hv.
      destruct i as [|i].
      * rewrite Nat.add_0_r in Hv. congruence.
      * apply (R_trans pivot element v); auto.
        -- rewrite Forall_forall in HP. apply HP. by eapply list_elem_of_lookup_2.
        -- apply (sorted_lookup sorted mid (mid + S i)); auto. lia.
    + apply cmp_R in E; [| done..].
      apply IH; [lia | lia | | done].
      rewrite Forall_lookup. intros i v Hv.
      apply lookup_take_Some in Hv as [Hv Hi].
      destruct (decide (i = mid)) as [-> | Hne]; [congruence |].
      apply (R_trans v element pivot); auto.
      * rewrite Forall_forall in HP. apply HP. by eapply list_elem_of_lookup_2.
      * apply (sorted_lookup sorted i mid); auto. lia.
Qed.

Lemma binary_insert_sorted (sorted : list A) (pivot : A) :
  P pivot -> Forall P sorted -> StronglySorted R sorted ->
  StronglySorted R (binary_insert cmp sorted pivot).
Proof.
  intros Hp HP Hs. unfold binary_insert.
  destruct (binary_search_spec (length sorted) pivot sorted 0 (length sorted))
    as [HL HR]; [done.. | lia | lia | by rewrite take_0 | by rewrite drop_all |].
  set (k := binary_search _ _ _ _ _ _) in *.
  rewrite <- (take_drop k sorted) in Hs.
  apply StronglySorted_app in Hs as (Hc & H1 & H2).
  apply StronglySorted_app. split_and!; [| done | by constructor].
  intros x1 x2 H1' [-> | H2']%elem_of_cons.
  - rewrite Forall_forall in HL. by apply HL.
  - by apply Hc.
Qed.

Lemma Array_sort_sorted (l : list A) :
  Forall P l -> StronglySorted R (Array_sort cmp l).
Proof.
  intros Hl. unfold Array_sort.
  pose proof (CountAndMakeRun_sorted l Hl) as Hs.
  pose proof (CountAndMakeRun_perm cmp l) as Hp.
  destruct (CountAndMakeRun cmp l) as [run rest]. cbn [fst snd] in Hs, Hp.
  assert (HP : Forall P (run ++ rest)) by (by rewrite Hp).
  apply Forall_app in HP as [Hrun Hrest]. clear Hp Hl.
  revert run Hs Hrun. induction Hrest as [|v rest Hv Hrest IH]; intros run Hs Hrun; [done |].
  cbn [foldl]. apply IH.
  - by apply binary_insert_sorted.
  - rewrite binary_insert_perm. by constructor.
Qed.

End SortFacts.

Lemma sorted_before_last {A} (R : A -> A -> Prop) (l : list A) (z x : A) :
  StronglySorted R (l ++ [z]) -> x ∈ l -> R x z.
Proof.
  induction l as [|a l IH]; cbn; [set_solver|].
  intros Hs. apply StronglySorted_inv in Hs as [Hs Ha].
  intros [->|Hx]%elem_of_cons; [|auto].
  rewrite Forall_forall in Ha. apply Ha. set_solver.
Qed.

Section QueueOrder.
Import Binary64.
Local Open Scope float_scope.

Lemma key_compare_Eq_l (p q r : Coordinate) :
  key_compare p q = Some Eq -> key_compare p r = key_compare q r.
Proof.
  unfold key_compare.
  destruct (fcompare (y p) (y q)) as [[| |]|] eqn:Ey; try discriminate. intros Ex.
  by rewrite (fcompare_Eq_l _ _ (y r) Ey), (fcompare_Eq_l _ _ (x r) Ex).
Qed.

Lemma key_compare_Eq_r (p q r : Coordinate) :
  key_compare q r = Some Eq -> key_compare p q = key_compare p r.
Proof.
  intros H.
  rewrite (key_compare_antisym q p), (key_compare_antisym r p).
  f_equal. by apply key_compare_Eq_l.
Qed.

Lemma key_compare_Some (p q : Coordinate) :
  no_nan p -> no_nan q -> exists c, key_compare p q = Some c.
Proof.
  intros [Hpx Hpy] [Hqx Hqy]. unfold key_compare.
  destruct (fcompare_total (y p) (y q) Hpy Hqy) as [cy ->].
  destruct (fcompare_total (x p) (x q) Hpx Hqx) as [cx ->].
  destruct cy; eauto.
Qed.

Lemma precedes_total (p q : Coordinate) :
  no_nan p -> no_nan q -> precedes p q \/ precedes q p.
Proof.
  intros Hp Hq. unfold precedes. rewrite (key_compare_antisym p q).
  destruct (key_compare_Some p q Hp Hq) as [[| |] ->]; cbn; auto.
Qed.

Lemma precedes_trans (p q r : Coordinate) :
  no_nan p -> no_nan q -> no_nan r ->
  precedes p q -> precedes q r -> precedes p r.
Proof.
  unfold precedes. intros Hp Hq Hr Hpq Hqr.
  destruct (key_compare_Some p q Hp Hq) as [[| |] Epq]; try done.
  - by rewrite (key_compare_Eq_l _ _ r Epq).
  - destruct (key_compare_Some q r Hq Hr) as [[| |] Eqr]; try done.
    + by rewrite <- (key_compare_Eq_r p _ _ Eqr), Epq.
    + assert (Erq : key_compare r q = Some Lt)
        by (by rewrite key_compare_antisym, Eqr).
      assert (Eqp : key_compare q p = Some Lt)
        by (by rewrite key_compare_antisym, Epq).
      pose proof (key_compare_Lt_trans _ _ _ Erq Eqp) as Erp.
      by rewrite key_compare_antisym, Erp.
Qed.

(** What [precedes p q] says in the engine's terms: [q.y] is not above
    [p.y], and when the two y are [==], [q.x] is not above [p.x]. *)
Lemma precedes_y (p q : Coordinate) :
  precedes p q ->
  (y p <? y q) = false /\ ((y p =? y q) = true -> (x p <? x q) = false).
Proof.
  unfold precedes, key_compare. intros H. split.
  - apply ltb_false. intros E. by rewrite E in H.
  - intros E%eqb_true. rewrite E in H. by apply ltb_false.
Qed.


Lemma sortSites_compare_precedes (a b : SiteEvent) :
  order_negative sortSites_compare a b = false <-> precedes (point b) (point a).
Proof.
  unfold order_negative, sortSites_compare, precedes, key_compare.
  rewrite (fcompare_antisym (y (point a)) (y (point b))).
  destruct (y (point a) =? y (point b)) eqn:E.
  - apply eqb_true in E. rewrite E, sub_ltb_zero. apply ltb_false.
  - apply eqb_false in E. unfold gtb.
    destruct (y (point b) <? y (point a)) eqn:E'.
    + apply ltb_true in E'. rewrite fcompare_antisym in E'.
      destruct (fcompare (y (point a)) (y (point b))) as [[| |]|]; done.
    + apply ltb_false in E'. rewrite fcompare_antisym in E'.
      destruct (fcompare (y (point a)) (y (point b))) as [[| |]|]; done.
Qed.

(** The two sorts leave the arrays descending (for points without
    [NaN], on which the comparators are a total order). *)
Lemma sortSites_descending (q : PriorityQueue) :
  Forall (fun e => no_nan (point e)) (siteEvents q) ->
  sites_descending (siteEvents (sortSites q)).
Proof.
  intros H. unfold sortSites, sites_descending. cbn [siteEvents].
  apply (Array_sort_sorted sortSites_compare (fun e => no_nan (point e))); try done.
  - intros a b _ _. apply sortSites_compare_precedes.
  - intros a b. apply precedes_total.
  - intros a b c. apply precedes_trans.
Qed.





End QueueOrder.

Section Finalization.
Import Binary64.
Local Open Scope float_scope.

(** C6: finalization rewrites every edge on its own.  An edge missing only
    [firstVertex] gets the endpoint with x = +100 when the x of the midpoint
    of its faces is strictly greater than [lastVertex.x] and x = -100
    otherwise, and y = bisectorY(leftFace, rightFace, x); an edge missing
    only [lastVertex] gets the same endpoint computed from [firstVertex]; an
    edge missing both vertices, like an edge missing none, is left as it
    is. *)
Theorem completeUnboundEdges_envelope (d : VoronoiDiagram) :
  edges (completeUnboundEdges d) = map completeEdge (edges d)
  /\ forall edge : Edge,
       completeEdge edge =
         match firstVertex edge, lastVertex edge with
         | None, Some last' =>
             mkEdge (leftFace edge) (rightFace edge)
                    (Some (envelope_endpoint (leftFace edge) (rightFace edge) last'))
                    (Some last')
         | Some first, None =>
             mkEdge (leftFace edge) (rightFace edge)
                    (Some first)
                    (Some (envelope_endpoint (leftFace edge) (rightFace edge) first))
         | _, _ => edge
         end.
Proof.
  split; [reflexivity|].
  intros [lf rf [f|] [l|]]; try reflexivity;
    unfold completeEdge, envelope_endpoint; cbn [firstVertex lastVertex leftFace rightFace];
    unfold gtb at 1; rewrite sub_gtb_zero; unfold gtb;
    match goal with |- context [if ?c then _ else _] => destruct c end; reflexivity.
Qed.

(** C9, as the code has it: for two points with the same y (finite), the
    test [b.y - a.y == 0] succeeds, no division takes place, and the result
    is (x - (a.x+b.x)/2) * Number.EPSILON + (a.y+b.y)/2 in binary64
    arithmetic, where Number.EPSILON = 2^-52 stands for the whole inverse
    gradient. *)
Theorem bisectorY_vertical_EPSILON (a b : Coordinate) (xVal : float) :
  is_finite (y a) = true -> (y a =? y b) = true ->
  bisectorY a b xVal = (xVal - (x a + x b) / 2) * Number_EPSILON + (y a + y b) / 2
  /\ Number_EPSILON = 0x1p-52.
Proof.
  intros Hfin Heq. split; [|reflexivity].
  unfold bisectorY.
  destruct (sub_eqb_zero (y a) (y b) Hfin Heq) as [_ ->].
  reflexivity.
Qed.

Lemma bisectorY_vertical_EPSILON_witness :
  bisectorY c9_a c9_b 100 = (100 - (x c9_a + x c9_b) / 2) * Number_EPSILON + (y c9_a + y c9_b) / 2
  /\ Number_EPSILON = 0x1p-52.
Proof.
  apply (bisectorY_vertical_EPSILON c9_a c9_b 100); vm_compute; reflexivity.
Defined.

(** C9 fails as stated.  For (0,0), (2,0) and x = 100 the result is
    99 * 2^-52, not the 99 * 2^-1074 that the smallest positive number
    would give (the two are not even [==]); and for two points at
    y = 2^1023 the result is [Infinity], because the sum of the two y
    overflows. *)
Lemma bisectorY_vertical_fails :
  (bisectorY c9_a c9_b 100 =? Spec.bisectorY_vertical c9_a c9_b 100) = false
  /\ bisectorY c9_a c9_b 100 = 99 * 0x1p-52
  /\ Spec.bisectorY_vertical c9_a c9_b 100 = 99 * 0x1p-1074
  /\ (0 <? 0x1p-1074) = true /\ (0x1p-1074 <? Number_EPSILON) = true
  /\ bisectorY (mkCoordinate 0 0x1p1023) (mkCoordinate 1 0x1p1023) 0 = infinity.
Proof. vm_compute. repeat split. Qed.

End Finalization.

Section DegenerateCircle.
Local Open Scope float_scope.

(** C4 does not hold of the code.  With the sites (1,-1), (0,0), (1,0),
    (2,0), (2,5) the fifth step (the site event of (2,5)) finds the arcs
    of (0,0), (1,0), (2,0) adjacent.  [circle] gives them the centre
    (0.5, -Infinity); [getVertexEvent] compares the centre with [Infinity]
    only, does not return [null], and the event is put in the queue, with
    the event point y = NaN. *)
Theorem non_finite_centre_is_queued :
  exists d event,
    new_VoronoiDiagram c4_sites ≫= steps 5 = Some d
    /\ last (vertexEvents (queue d)) = Some event
    /\ (arcSite d (arcs0 event), arcSite d (arcs1 event), arcSite d (arcs2 event))
       = (mkSite 1 (mkCoordinate 0 0), mkSite 2 (mkCoordinate 1 0), mkSite 3 (mkCoordinate 2 0))
    /\ circle (mkCoordinate 0 0) (mkCoordinate 1 0) (mkCoordinate 2 0)
       = mkCircleResult (mkCoordinate 0.5 neg_infinity) infinity
    /\ Spec.non_finite_centre
         (circle (mkCoordinate 0 0) (mkCoordinate 1 0) (mkCoordinate 2 0)) = true
    /\ vertexPoint event = mkCoordinate 0.5 neg_infinity
    /\ eventPoint event = mkCoordinate 0.5 nan
    /\ is_Some (getVertexEvent d 0 (arcs1 event) ≫= id).
Proof.
  eexists _, _. split; [vm_compute; reflexivity|].
  split; [vm_compute; reflexivity|].
  vm_compute. repeat split. eexists; reflexivity.
Qed.

End DegenerateCircle.

Section Linked.

Lemma last_or_cons (a : nat) (l : list nat) (prev : option nat) :
  last_or (a :: l) prev = last_or l (Some a).
Proof.
  unfold last_or. destruct l as [|b l]; [reflexivity|].
  rewrite last_cons_cons. destruct (last (b :: l)) eqn:E; [reflexivity|].
  apply last_None in E. discriminate.
Qed.

Lemma last_or_snoc (l : list nat) (z : nat) (prev : option nat) :
  last_or (l ++ [z]) prev = Some z.
Proof. unfold last_or. by rewrite last_snoc. Qed.

Lemma linked_app (h : list ParabolaArc) (prev next : option nat) (l1 l2 : list nat) :
  linked h prev (l1 ++ l2) next
  <-> linked h prev l1 (hd_or l2 next) /\ linked h (last_or l1 prev) l2 next.
Proof.
  revert prev. induction l1 as [|a l1 IH]; intros prev.
  - cbn. unfold last_or. cbn. tauto.
  - cbn [app linked]. rewrite IH, last_or_cons.
    assert (E : hd_or (l1 ++ l2) next = hd_or l1 (hd_or l2 next))
      by (destruct l1; reflexivity).
    rewrite E. tauto.
Qed.

Lemma linked_frame (h h' : list ParabolaArc) (prev next : option nat) (l : list nat) :
  (forall a, a ∈ l -> h' !! a = h !! a) ->
  linked h prev l next -> linked h' prev l next.
Proof.
  revert prev. induction l as [|a l IH]; intros prev Hsame; [done|].
  cbn. intros [(A & HA & Hl & Hr) Hrest]. split.
  - exists A. rewrite Hsame by set_solver. done.
  - apply IH; [|done]. intros b Hb. apply Hsame. set_solver.
Qed.

Lemma linked_lookup (h : list ParabolaArc) (prev next : option nat) (l : list nat) (a : nat) :
  linked h prev l next -> a ∈ l -> is_Some (h !! a).
Proof.
  revert prev. induction l as [|b l IH]; intros prev; [set_solver|].
  cbn. intros [(B & HB & _) Hrest] [->|Ha]%elem_of_cons; eauto.
Qed.

(** The last arc of a segment gets a new right neighbour. *)
Lemma linked_relink_next (h h' : list ParabolaArc) (prev next next' : option nat)
    (l : list nat) (z : nat) :
  z ∉ l ->
  linked h prev (l ++ [z]) next ->
  h' !! z = set_rightArc next' <$> h !! z ->
  (forall a, a ∈ l -> h' !! a = h !! a) ->
  linked h' prev (l ++ [z]) next'.
Proof.
  intros Hz Hl Hz' Hsame.
  apply linked_app in Hl as [Hl1 Hl2]. apply linked_app. split.
  - cbn in *. eapply linked_frame; eauto.
  - cbn in *. destruct Hl2 as [(Z & HZ & Hleft & _) _]. split; [|done].
    exists (set_rightArc next' Z). rewrite Hz', HZ. done.
Qed.

(** The first arc of a segment gets a new left neighbour. *)
Lemma linked_relink_prev (h h' : list ParabolaArc) (prev prev' next : option nat)
    (l : list nat) (z : nat) :
  z ∉ l ->
  linked h prev (z :: l) next ->
  h' !! z = set_leftArc prev' <$> h !! z ->
  (forall a, a ∈ l -> h' !! a = h !! a) ->
  linked h' prev' (z :: l) next.
Proof.
  intros Hz Hl Hz' Hsame. cbn in *.
  destruct Hl as [(Z & HZ & _ & Hright) Hrest]. split.
  - exists (set_leftArc prev' Z). rewrite Hz', HZ. done.
  - eapply linked_frame; eauto.
Qed.

(** What the links of an arc of the beachline say about its place. *)
Lemma linked_at (h : list ParabolaArc) (pre post : list nat) (a : nat) :
  linked h None (pre ++ a :: post) None ->
  exists A, h !! a = Some A /\ leftArc A = last_or pre None /\ rightArc A = hd_or post None.
Proof.
  intros H. apply linked_app in H as [_ H]. cbn in H.
  destruct H as [(A & HA & Hl & Hr) _]. eauto.
Qed.

Lemma last_or_Some (l : list nat) (a : nat) :
  last_or l None = Some a -> exists l', l = l' ++ [a].
Proof.
  unfold last_or. destruct (last l) eqn:E; [|discriminate].
  intros [= ->]. by apply last_Some in E.
Qed.

Lemma hd_or_Some (l : list nat) (a : nat) :
  hd_or l None = Some a -> exists l', l = a :: l'.
Proof. destruct l; [discriminate|]. intros [= ->]. eauto. Qed.

Lemma linked_consecutive (h : list ParabolaArc) (bl : list nat) (a l r : nat) (A : ParabolaArc) :
  linked h None bl None -> a ∈ bl ->
  h !! a = Some A -> leftArc A = Some l -> rightArc A = Some r ->
  consecutive l a r bl.
Proof.
  intros Hbl (pre & post & ->)%list_elem_of_split HA Hl Hr.
  destruct (linked_at _ _ _ _ Hbl) as (A' & HA' & Hl' & Hr').
  rewrite HA in HA'. injection HA' as <-.
  rewrite Hl in Hl'. rewrite Hr in Hr'.
  symmetry in Hl', Hr'.
  apply last_or_Some in Hl' as [pre' ->]. apply hd_or_Some in Hr' as [post' ->].
  exists pre', post'. by rewrite <- app_assoc.
Qed.

(** Replacing one arc of the beachline by a segment keeps the triples
    that do not contain the arc. *)
Lemma consecutive_replace (l m r a : nat) (xs p q : list nat) :
  consecutive l m r (p ++ a :: q) -> a <> l -> a <> m -> a <> r ->
  consecutive l m r (p ++ xs ++ q).
Proof.
  intros (pre & post & E) Hl Hm Hr. revert pre E.
  induction p as [|b p IH]; intros pre E.
  - destruct pre as [|c pre]; cbn in E; [congruence|].
    injection E as _ ->. exists (xs ++ pre), post. by rewrite <- !app_assoc.
  - destruct pre as [|c pre]; cbn in E.
    + injection E as -> E.
      destruct p as [|b1 p]; cbn in E; [congruence|]. injection E as -> E.
      destruct p as [|b2 p]; cbn in E; [congruence|]. injection E as -> E.
      subst post. exists [], (p ++ xs ++ q). reflexivity.
    + injection E as -> E.
      destruct (IH pre E) as (pre' & post' & E').
      exists (c :: pre'), post'. cbn. by rewrite E'.
Qed.

Lemma consecutive_elem (l m r : nat) (bl : list nat) :
  consecutive l m r bl -> l ∈ bl /\ m ∈ bl /\ r ∈ bl.
Proof. intros (pre & post & ->). set_solver. Qed.

End Linked.

Section Invariant.

Lemma beachline_on (d : VoronoiDiagram) (bl : list nat) (a : nat) :
  beachline_inv d bl -> (on_beachline d a <-> a ∈ bl).
Proof.
  intros [_ _ Hown Harcs _]. split.
  - intros (i & s & Hs & Ha). by apply (Harcs _ _ _ Hs) in Ha as [? _].
  - intros Ha. pose proof (Hown _ Ha) as Hlt.
    apply lookup_lt_is_Some in Hlt as [s Hs].
    eexists _, s. split; [exact Hs|]. by apply (Harcs _ _ _ Hs).
Qed.

Lemma beachline_link_symmetric (d : VoronoiDiagram) (bl : list nat) :
  beachline_inv d bl -> link_symmetric d.
Proof.
  intros Hinv a Ha.
  apply (beachline_on _ _ _ Hinv) in Ha.
  pose proof (bl_linked _ _ _ _ Hinv) as Hl.
  apply list_elem_of_split in Ha as (pre & post & E). rewrite E in Hl.
  destruct (linked_at _ _ _ _ Hl) as (A & HA & Hleft & Hright).
  unfold arcAt. rewrite (list_lookup_total_correct _ _ _ HA).
  split.
  - intros r Hr. rewrite Hr in Hright. symmetry in Hright.
    apply hd_or_Some in Hright as [post' ->].
    replace (pre ++ a :: r :: post') with ((pre ++ [a]) ++ r :: post') in *
      by (by rewrite <- app_assoc).
    destruct (linked_at _ _ _ _ Hl) as (R & HR & HRl & _).
    rewrite (list_lookup_total_correct _ _ _ HR), HRl, last_or_snoc.
    split; [|done]. apply (beachline_on _ _ _ Hinv). rewrite E. set_solver.
  - intros l Hlft. rewrite Hlft in Hleft. symmetry in Hleft.
    apply last_or_Some in Hleft as [pre' ->].
    replace ((pre' ++ [l]) ++ a :: post) with (pre' ++ l :: a :: post) in *
      by (by rewrite <- app_assoc).
    destruct (linked_at _ _ _ _ Hl) as (L & HL & _ & HLr).
    rewrite (list_lookup_total_correct _ _ _ HL), HLr.
    split; [|done]. apply (beachline_on _ _ _ Hinv). rewrite E. set_solver.
Qed.

(** *** The queue keeps its events *)

Lemma Array_pop_Some {A} (l : list A) (v : A) :
  last l = Some v -> l = removelast l ++ [v].
Proof. intros [l' ->]%last_Some. by rewrite removelast_snoc. Qed.

Lemma elem_of_removelast {A} (l : list A) (v : A) : v ∈ removelast l -> v ∈ l.
Proof.
  destruct (last l) as [w|] eqn:E.
  - apply Array_pop_Some in E. intros H. rewrite E. set_solver.
  - apply last_None in E. by subst l.
Qed.

Lemma pop_vertexEvents (q q' : PriorityQueue) (r : EventResult) :
  pop q = (r, q') ->
  (forall e, vertexEvent r = Some e -> e ∈ vertexEvents q)
  /\ (forall e, e ∈ vertexEvents q' -> e ∈ vertexEvents q).
Proof.
  unfold pop, Array_pop, Array_push.
  destruct (last (vertexEvents q)) as [v|] eqn:Ev.
  - pose proof (Array_pop_Some _ _ Ev) as Hv.
    destruct (last (siteEvents q)) as [s|] eqn:Es.
    + case_match; intros [= <- <-]; cbn; split; try done.
      * intros e. by rewrite <- Hv.
      * intros e [= <-]. rewrite Hv. set_solver.
      * intros e. apply elem_of_removelast.
    + intros [= <- <-]; cbn; split.
      * intros e [= <-]. rewrite Hv. set_solver.
      * intros e. apply elem_of_removelast.
  - intros [= <- <-]; cbn. split; done.
Qed.

Lemma removeArcTriples_events (d : VoronoiDiagram) (arc : nat) (e : VertexEvent) :
  e ∈ vertexEvents (queue (removeArcTriples d arc)) ->
  e ∈ vertexEvents (queue d) /\ references arc e = false.
Proof.
  unfold removeArcTriples, with_queue, removeVertexEvents, sortVertices.
  cbn [queue vertexEvents siteEvents].
  rewrite elem_of_Array_sort, list_elem_of_filter.
  intros [Hnot He]. split; [done|].
  destruct (references arc e) eqn:Href; [|done].
  unfold not_indexOf in Hnot. apply negb_true_iff in Hnot.
  assert (Hex : existsb (fun v => Nat.eqb (event_ref v) (event_ref e))
                  (filter (fun element => references arc element = true)
                          (vertexEvents (queue d))) = true).
  { apply existsb_exists. exists e. split; [|apply Nat.eqb_refl].
    apply list_elem_of_In, list_elem_of_filter. done. }
  congruence.
Qed.

Lemma references_false (arc : nat) (e : VertexEvent) :
  references arc e = false -> arc <> arcs0 e /\ arc <> arcs1 e /\ arc <> arcs2 e.
Proof.
  unfold references. rewrite !orb_false_iff, !Nat.eqb_neq. naive_solver.
Qed.

End Invariant.

Section Preservation.

Lemma NoDup_replace (p q xs : list nat) (a : nat) :
  NoDup (p ++ a :: q) -> NoDup xs ->
  (forall b, b ∈ xs -> (b ∉ p) /\ (b ∉ q)) ->
  NoDup (p ++ xs ++ q).
Proof.
  rewrite !NoDup_app, NoDup_cons.
  intros (Hp & Hpq & Ha & Hq) Hxs Hfresh.
  split_and!; try done.
  - intros b Hb [Hb'|Hb']%elem_of_app.
    + by destruct (Hfresh _ Hb').
    + apply (Hpq _ Hb). set_solver.
  - intros b Hb. by destruct (Hfresh _ Hb).
Qed.

Lemma elem_of_replace (p q xs : list nat) (a b : nat) :
  NoDup (p ++ a :: q) ->
  b ∈ p ++ xs ++ q <-> (b ∈ p ++ a :: q /\ b <> a) \/ b ∈ xs.
Proof.
  rewrite NoDup_app, NoDup_cons. intros (_ & Hpq & Ha & _).
  rewrite !elem_of_app, elem_of_cons. split.
  - intros [Hb|[Hb|Hb]]; [left|by right|left].
    + split; [by left|]. intros ->. apply (Hpq _ Hb). set_solver.
    + split; [right; by right|]. by intros ->.
  - intros [[[Hb|[->|Hb]] Hne]|Hb]; tauto.
Qed.

Lemma owner_alter (f : ParabolaArc -> ParabolaArc) (h : list ParabolaArc) (i a : nat) :
  (forall X, activeSite (f X) = activeSite X) ->
  activeSite (alter f i h !!! a) = activeSite (h !!! a).
Proof.
  intros Hf. rewrite list_lookup_total_alter.
  case_decide as H; [|done]. destruct H as [-> _]. apply Hf.
Qed.

Lemma owner_alter2 (f g : ParabolaArc -> ParabolaArc) (h : list ParabolaArc) (i j a : nat) :
  (forall X, activeSite (f X) = activeSite X) ->
  (forall X, activeSite (g X) = activeSite X) ->
  activeSite (alter f i (alter g j h) !!! a) = activeSite (h !!! a).
Proof. intros Hf Hg. by rewrite !owner_alter. Qed.

(** A vertex event: the middle arc [M] of three consecutive arcs leaves
    the beachline. *)
Lemma beachline_vertex_event (sites : list ActiveSite) (h : list ParabolaArc)
    (events events' : list VertexEvent) (pre post : list nat) (L M R : nat) :
  beachline sites h events (pre ++ L :: M :: R :: post) ->
  (forall e, e ∈ events' -> e ∈ events /\ references M e = false) ->
  beachline
    (alter (set_arcs (filter (fun arc => arc <> M))) (activeSite (h !!! M)) sites)
    (alter (set_leftArc (Some L)) R (alter (set_rightArc (Some R)) L h))
    events' (pre ++ L :: R :: post).
Proof.
  intros [Hnd Hl Hown Harcs Hev] Hev'.
  replace (pre ++ L :: M :: R :: post) with ((pre ++ [L]) ++ M :: R :: post) in *
    by (by rewrite <- app_assoc).
  replace (pre ++ L :: R :: post) with ((pre ++ [L]) ++ [] ++ R :: post)
    by (by rewrite <- app_assoc).
  assert (Hin : forall a, a ∈ (pre ++ [L]) ++ [] ++ R :: post
                  <-> a ∈ (pre ++ [L]) ++ M :: R :: post /\ a <> M).
  { intros a. rewrite (elem_of_replace _ _ [] M a Hnd). set_solver. }
  pose proof Hnd as Hnd'.
  rewrite NoDup_app, !NoDup_cons, NoDup_app in Hnd'.
  destruct Hnd' as ((_ & HpreL & _) & Hdisj & HM & HR & _).
  assert (HLM : L <> M) by (intros ->; apply (Hdisj M); set_solver).
  assert (HLR : L <> R) by (intros ->; apply (Hdisj R); set_solver).
  assert (HLpre : L ∉ pre) by (intros HL; apply (HpreL _ HL); set_solver).
  assert (HLpost : L ∉ post) by (intros HL; apply (Hdisj L); set_solver).
  assert (HRpre : R ∉ pre) by (intros HR'; apply (Hdisj R); set_solver).
  set (h1 := alter (set_rightArc (Some R)) L h).
  set (h2 := alter (set_leftArc (Some L)) R h1).
  split.
  - apply (NoDup_replace _ _ [] M); [done|constructor|set_solver].
  - apply linked_app in Hl as [Hl1 Hl2]. rewrite last_or_snoc in Hl2.
    cbn [hd_or] in Hl1. cbn [linked] in Hl2. destruct Hl2 as [_ Hl2].
    apply linked_app. cbn [app hd_or]. rewrite last_or_snoc. split.
    + apply (linked_relink_next h h2 None (Some M) (Some R)); try done.
      * subst h2 h1. by rewrite list_lookup_alter_ne, list_lookup_alter_eq.
      * intros a Ha. subst h2 h1.
        rewrite !list_lookup_alter_ne; [done|set_solver..].
    + apply (linked_relink_prev h h2 (Some M) (Some L)); try done.
      * subst h2 h1. by rewrite list_lookup_alter_eq, list_lookup_alter_ne.
      * intros a Ha. subst h2 h1.
        rewrite !list_lookup_alter_ne; [done|set_solver..].
  - intros a [Ha _]%Hin. rewrite length_alter. subst h2 h1.
    rewrite owner_alter2 by done. by apply Hown.
  - intros i s' a Hs'. subst h2 h1. rewrite owner_alter2 by done.
    rewrite Hin. rewrite list_lookup_alter in Hs'.
    case_decide as Hi.
    + destruct (sites !! activeSite (h !!! M)) as [s|] eqn:Hs; [|done].
      injection Hs' as <-. subst i. cbn [set_arcs arcs].
      rewrite list_elem_of_filter, (Harcs _ _ a Hs). tauto.
    + rewrite (Harcs _ _ a Hs'). split; [|tauto].
      intros [Ha Howner]. split_and!; try done. intros ->. done.
  - intros e [He Href]%Hev'. apply references_false in Href as (? & ? & ?).
    apply consecutive_replace with (a := M); auto.
Qed.

Lemma split_arena_lookup (h : list ParabolaArc) (newSite A a : nat) :
  let N := length h in
  let X := h !!! A in
  split_arena h newSite A !! a =
    relink (set_leftArc (Some (S (S N)))) (rightArc X) a <$>
      (relink (set_rightArc (Some (S N))) (leftArc X) a <$>
         ((h ++ [mkParabolaArc newSite (Some (S N)) (Some (S (S N)))])
          ++ [mkParabolaArc (activeSite X) (leftArc X) (Some N);
              mkParabolaArc (activeSite X) (Some N) (rightArc X)]) !! a).
Proof.
  cbn zeta. unfold split_arena, relink.
  set (h2 := (h ++ [_]) ++ [_; _]).
  destruct (rightArc (h !!! A)) as [r|], (leftArc (h !!! A)) as [l|];
    rewrite ?list_lookup_alter; repeat case_decide; simplify_eq;
    try done; try (by destruct (h2 !! a)).
Qed.

Lemma relink_owner (f : ParabolaArc -> ParabolaArc) (o : option nat) (a : nat)
    (X : ParabolaArc) :
  (forall Y, activeSite (f Y) = activeSite Y) ->
  activeSite (relink f o a X) = activeSite X.
Proof. intros Hf. unfold relink. by case_decide. Qed.

Lemma relink_ne (f : ParabolaArc -> ParabolaArc) (o : option nat) (a : nat)
    (X : ParabolaArc) :
  o <> Some a -> relink f o a X = X.
Proof. intros H. unfold relink. by case_decide. Qed.

Lemma relink_eq (f : ParabolaArc -> ParabolaArc) (a : nat) (X : ParabolaArc) :
  relink f (Some a) a X = f X.
Proof. unfold relink. by case_decide. Qed.

(** A site event: the arc [A] of the beachline is replaced by the triple
    (left copy, new arc, right copy). *)
Lemma beachline_site_event (sites : list ActiveSite) (h : list ParabolaArc)
    (events events' : list VertexEvent) (pre post : list nat) (A : nat) (site' : Site) :
  beachline sites h events (pre ++ A :: post) ->
  (forall e, e ∈ events' -> e ∈ events /\ references A e = false) ->
  beachline
    (alter (set_arcs (fun arcs' =>
              filter (fun element => element <> A) arcs' ++ [S (length h); S (S (length h))]))
           (activeSite (h !!! A)) (sites ++ [mkActiveSite site' [length h]]))
    (split_arena h (length sites) A)
    events' (pre ++ S (length h) :: length h :: S (S (length h)) :: post).
Proof.
  intros [Hnd Hl Hown Harcs Hev] Hev'.
  set (N := length h). set (sa := split_arena h (length sites) A).
  set (bl := pre ++ A :: post) in *.
  assert (Hlt : forall a, a ∈ bl -> a < N).
  { intros a Ha. destruct (linked_lookup _ _ _ _ _ Hl Ha) as [Y HY].
    by apply lookup_lt_Some in HY. }
  destruct (linked_at _ _ _ _ Hl) as (X & HX & HXl & HXr).
  assert (EX : h !!! A = X) by (by apply list_lookup_total_correct).
  assert (HAbl : A ∈ bl) by (subst bl; set_solver).
  pose proof Hnd as Hnd'. unfold bl in Hnd'.
  rewrite NoDup_app, NoDup_cons in Hnd'.
  destruct Hnd' as (Hndpre & Hdisj & HApost & Hndpost).
  assert (HLin : forall l, leftArc X = Some l -> l ∈ pre).
  { intros l E. rewrite HXl in E. apply last_or_Some in E as [pre' ->]. set_solver. }
  assert (HRin : forall r, rightArc X = Some r -> r ∈ post).
  { intros r E. rewrite HXr in E. apply hd_or_Some in E as [post' ->]. set_solver. }
  assert (HLfresh : forall k, N <= k -> leftArc X <> Some k).
  { intros k Hk E. apply HLin in E. assert (k < N) by (apply Hlt; subst bl; set_solver). lia. }
  assert (HRfresh : forall k, N <= k -> rightArc X <> Some k).
  { intros k Hk E. apply HRin in E. assert (k < N) by (apply Hlt; subst bl; set_solver). lia. }
  assert (Fold : forall a, a < N ->
            sa !! a = relink (set_leftArc (Some (S (S N)))) (rightArc X) a <$>
                        (relink (set_rightArc (Some (S N))) (leftArc X) a <$> h !! a)).
  { intros a Ha. subst sa. rewrite split_arena_lookup. cbn zeta. rewrite EX.
    by rewrite <- app_assoc, lookup_app_l by (fold N; lia). }
  assert (FN : sa !! N = Some (mkParabolaArc (length sites) (Some (S N)) (Some (S (S N))))).
  { subst sa. rewrite split_arena_lookup. cbn zeta. rewrite EX.
    rewrite lookup_app_l by (rewrite length_app; cbn; fold N; lia).
    rewrite lookup_app_r by (fold N; lia). fold N. rewrite Nat.sub_diag. cbn.
    rewrite !relink_ne by (first [apply HLfresh | apply HRfresh]; lia). done. }
  assert (FL : sa !! S N = Some (mkParabolaArc (activeSite X) (leftArc X) (Some N))).
  { subst sa. rewrite split_arena_lookup. cbn zeta. rewrite EX.
    rewrite lookup_app_r by (rewrite length_app; cbn; fold N; lia).
    rewrite length_app. cbn [length]. fold N.
    replace (S N - (N + 1)) with 0 by lia. cbn.
    rewrite !relink_ne by (first [apply HLfresh | apply HRfresh]; lia). done. }
  assert (FR : sa !! S (S N) = Some (mkParabolaArc (activeSite X) (Some N) (rightArc X))).
  { subst sa. rewrite split_arena_lookup. cbn zeta. rewrite EX.
    rewrite lookup_app_r by (rewrite length_app; cbn; fold N; lia).
    rewrite length_app. cbn [length]. fold N.
    replace (S (S N) - (N + 1)) with 1 by lia. cbn.
    rewrite !relink_ne by (first [apply HLfresh | apply HRfresh]; lia). done. }
  assert (Fowner : forall a, a ∈ bl -> activeSite (sa !!! a) = activeSite (h !!! a)).
  { intros a Ha. destruct (linked_lookup _ _ _ _ _ Hl Ha) as [Y HY].
    rewrite (list_lookup_total_correct _ _ _ HY).
    erewrite list_lookup_total_correct; [|rewrite Fold by auto; rewrite HY; reflexivity].
    by rewrite !relink_owner. }
  assert (Hin : forall a, a ∈ pre ++ [S N; N; S (S N)] ++ post
                  <-> (a ∈ bl /\ a <> A) \/ a ∈ [S N; N; S (S N)]).
  { intros a. apply elem_of_replace. exact Hnd. }
  change (pre ++ S N :: N :: S (S N) :: post) with (pre ++ [S N; N; S (S N)] ++ post).
  split.
  - apply (NoDup_replace _ _ _ A); [done| |].
    + repeat constructor; set_solver by lia.
    + intros b Hb. assert (N <= b) by set_solver by lia.
      split; intros Hb'; assert (b < N) by (apply Hlt; subst bl; set_solver); lia.
  - apply linked_app in Hl as [Hl1 Hl2]. cbn [hd_or] in Hl1.
    cbn [linked] in Hl2. destruct Hl2 as [_ Hl2].
    apply linked_app. split.
    + cbn [app hd_or].
      destruct (last pre) as [z|] eqn:Ez.
      * apply last_Some in Ez as [pre0 ->].
        assert (HzL : leftArc X = Some z) by (by rewrite HXl, last_or_snoc).
        apply NoDup_app in Hndpre as (_ & Hz & _).
        assert (Hzpre0 : z ∉ pre0) by (intros Hz'; apply (Hz _ Hz'); set_solver).
        assert (HzR : rightArc X <> Some z).
        { intros E. apply HRin in E. apply (Hdisj z); set_solver. }
        apply (linked_relink_next h sa None (Some A) (Some (S N))); try done.
        -- rewrite Fold by (apply Hlt; subst bl; set_solver).
           rewrite HzL. destruct (h !! z) as [Z|]; [|done]. cbn.
           by rewrite relink_eq, relink_ne.
        -- intros a Ha. rewrite Fold by (apply Hlt; subst bl; set_solver).
           destruct (h !! a) as [Y|]; [|done]. cbn.
           rewrite !relink_ne; [done|..].
           ++ rewrite HzL. intros [= ->]. done.
           ++ intros E. apply HRin in E. apply (Hdisj a); set_solver.
      * apply last_None in Ez. subst pre. done.
    + cbn [app linked hd_or]. split_and!.
      * eexists. split; [exact FL|]. done.
      * eexists. split; [exact FN|]. done.
      * eexists. split; [exact FR|]. done.
      * destruct post as [|r post0]; [done|].
        assert (HrR : rightArc X = Some r) by (by rewrite HXr).
        apply NoDup_cons in Hndpost as [Hr Hndpost0].
        assert (HrL : leftArc X <> Some r).
        { intros E. apply HLin in E. apply (Hdisj r); set_solver. }
        apply (linked_relink_prev h sa (Some A) (Some (S (S N)))); try done.
        -- rewrite Fold by (apply Hlt; subst bl; set_solver).
           rewrite HrR. destruct (h !! r) as [Z|]; [|done]. cbn.
           by rewrite relink_eq, relink_ne.
        -- intros a Ha. rewrite Fold by (apply Hlt; subst bl; set_solver).
           destruct (h !! a) as [Y|]; [|done]. cbn.
           rewrite !relink_ne; [done|..].
           ++ intros E. apply HLin in E. apply (Hdisj a); set_solver.
           ++ rewrite HrR. intros [= ->]. done.
  - intros a Ha. rewrite length_alter, length_app. cbn [length].
    apply Hin in Ha as [[Ha _]|Ha].
    + rewrite Fowner by done. pose proof (Hown _ Ha). lia.
    + pose proof (Hown _ HAbl) as HoA. rewrite EX in HoA.
      assert (a = S N \/ a = N \/ a = S (S N)) as [->|[->| ->]] by set_solver.
      * rewrite (list_lookup_total_correct _ _ _ FL). cbn. lia.
      * rewrite (list_lookup_total_correct _ _ _ FN). cbn. lia.
      * rewrite (list_lookup_total_correct _ _ _ FR). cbn. lia.
  - intros i s' a Hs'. rewrite Hin.
    pose proof (Hown _ HAbl) as HoA.
    assert (Hnew : forall b, b ∈ [S N; N; S (S N)] ->
              activeSite (sa !!! b) = (if decide (b = N) then length sites else activeSite X)).
    { intros b Hb.
      assert (b = S N \/ b = N \/ b = S (S N)) as [->|[->| ->]] by set_solver.
      - rewrite (list_lookup_total_correct _ _ _ FL). case_decide; [lia|done].
      - rewrite (list_lookup_total_correct _ _ _ FN). case_decide; [done|lia].
      - rewrite (list_lookup_total_correct _ _ _ FR). case_decide; [lia|done]. }
    rewrite EX in *.
    rewrite list_lookup_alter in Hs'. case_decide as Hi.
    + (* the owner of the split arc *)
      subst i. rewrite lookup_app_l in Hs' by lia.
      destruct (sites !! activeSite X) as [s|] eqn:Hs; [|done].
      injection Hs' as <-. cbn [set_arcs arcs].
      rewrite elem_of_app, list_elem_of_filter, (Harcs _ _ a Hs). split.
      * intros [[Hne [Ha Ho]]|Ha].
        -- split; [by left|]. by rewrite Fowner.
        -- assert (a ∈ [S N; N; S (S N)]) by set_solver.
           split; [by right|]. rewrite Hnew by done. case_decide; [set_solver by lia|done].
      * intros [[[Ha Hne]|Ha] Ho].
        -- left. rewrite Fowner in Ho by done. done.
        -- right. rewrite Hnew in Ho by done. case_decide; [lia|]. set_solver.
    + apply lookup_app_Some in Hs' as [Hs'|[Hge Hs']].
      * (* another site of before *)
        rewrite (Harcs _ _ a Hs'). apply lookup_lt_Some in Hs'. split.
        -- intros [Ha Ho]. split; [|by rewrite Fowner].
           left. split; [done|]. intros ->. rewrite EX in Ho. done.
        -- intros [[[Ha Hne]|Ha] Ho].
           ++ rewrite Fowner in Ho by done. done.
           ++ rewrite Hnew in Ho by done. case_decide; lia.
      * (* the new site *)
        assert (i = length sites) as ->.
        { apply lookup_lt_Some in Hs'. cbn in Hs'. lia. }
        rewrite Nat.sub_diag in Hs'. injection Hs' as <-. cbn [arcs].
        rewrite list_elem_of_singleton. split.
        -- intros ->. split; [right; set_solver|].
           by rewrite (list_lookup_total_correct _ _ _ FN).
        -- intros [[[Ha Hne]|Ha] Ho].
           ++ rewrite Fowner in Ho by done. pose proof (Hown _ Ha). lia.
           ++ rewrite Hnew in Ho by done. case_decide; [done|lia].
  - intros e [He Href]%Hev'. apply references_false in Href as (? & ? & ?).
    apply consecutive_replace with (a := A); auto.
Qed.

Lemma beachline_events (sites : list ActiveSite) (h : list ParabolaArc)
    (events events' : list VertexEvent) (bl : list nat) :
  beachline sites h events bl ->
  (forall e, e ∈ events' ->
     e ∈ events \/ consecutive (arcs0 e) (arcs1 e) (arcs2 e) bl) ->
  beachline sites h events' bl.
Proof.
  intros [Hnd Hl Hown Harcs Hev] Hev'. split; try done.
  intros e [He|He]%Hev'; auto.
Qed.

(** Sorting the arcs of a site changes no membership. *)
Lemma beachline_sort_arcs (sites : list ActiveSite) (h : list ParabolaArc)
    (events : list VertexEvent) (bl : list nat) (cmp : nat -> nat -> float) (i : nat) :
  beachline sites h events bl ->
  beachline (alter (set_arcs (Array_sort cmp)) i sites) h events bl.
Proof.
  intros [Hnd Hl Hown Harcs Hev]. split; try done.
  - intros a Ha. rewrite length_alter. auto.
  - intros j s' a Hs'. rewrite list_lookup_alter in Hs'. case_decide as Hj.
    + subst j. destruct (sites !! i) as [s|] eqn:Hs; [|done].
      injection Hs' as <-. cbn [set_arcs arcs].
      rewrite elem_of_Array_sort. by apply Harcs.
    + by apply Harcs.
Qed.

Lemma beachline_neighbours (sites : list ActiveSite) (h : list ParabolaArc)
    (events : list VertexEvent) (bl : list nat) (a : nat) :
  beachline sites h events bl -> a ∈ bl ->
  (forall l, leftArc (h !!! a) = Some l -> l ∈ bl)
  /\ (forall r, rightArc (h !!! a) = Some r -> r ∈ bl).
Proof.
  intros [_ Hl _ _ _] (pre & post & ->)%list_elem_of_split.
  destruct (linked_at _ _ _ _ Hl) as (A & HA & Hleft & Hright).
  rewrite (list_lookup_total_correct _ _ _ HA). split.
  - intros l E. rewrite Hleft in E. apply last_or_Some in E as [pre' ->]. set_solver.
  - intros r E. rewrite Hright in E. apply hd_or_Some in E as [post' ->]. set_solver.
Qed.

Lemma getVertexEvent_arcs (d : VoronoiDiagram) (k arc : nat) (e : VertexEvent) :
  getVertexEvent d k arc = Some (Some e) ->
  leftArc (arcAt d arc) = Some (arcs0 e) /\ arcs1 e = arc
  /\ rightArc (arcAt d arc) = Some (arcs2 e).
Proof.
  unfold getVertexEvent.
  destruct (leftArc (arcAt d arc)) as [l|]; [|done].
  destruct (rightArc (arcAt d arc)) as [r|]; [|done]. cbn.
  repeat case_match; intros [= <-]; done.
Qed.

Lemma getVertexEvent_consecutive (d : VoronoiDiagram) (events : list VertexEvent)
    (bl : list nat) (k arc : nat) (oe : option VertexEvent) :
  beachline (activeSites d) (arena d) events bl -> arc ∈ bl ->
  getVertexEvent d k arc = Some oe ->
  forall e, oe = Some e -> consecutive (arcs0 e) (arcs1 e) (arcs2 e) bl.
Proof.
  intros Hinv Harc Hget e ->.
  apply getVertexEvent_arcs in Hget as (Hleft & <- & Hright).
  destruct (linked_lookup _ _ _ _ _ (bl_linked _ _ _ _ Hinv) Harc) as [A HA].
  unfold arcAt in *. rewrite (list_lookup_total_correct _ _ _ HA) in Hleft, Hright.
  eapply linked_consecutive; eauto using bl_linked.
Qed.

Lemma updateVertexEventsForNewSite_inv (d d' : VoronoiDiagram) (bl : list nat) (arc : nat) :
  beachline_inv d bl -> arc ∈ bl ->
  updateVertexEventsForNewSite d arc = Some d' ->
  beachline_inv d' bl.
Proof.
  intros Hinv Harc. unfold updateVertexEventsForNewSite.
  pose (good := fun oe : option VertexEvent =>
                  forall e, oe = Some e -> consecutive (arcs0 e) (arcs1 e) (arcs2 e) bl).
  destruct (beachline_neighbours _ _ _ _ _ Hinv Harc) as [HL HR]. fold (arcAt d arc) in HL, HR.
  destruct (leftArc (arcAt d arc)) as [l|] eqn:El; [|done]. cbn [mbind option_bind].
  pose proof (HL _ eq_refl) as Hl.
  match goal with |- ?c ≫= _ = _ -> _ =>
    destruct c as [leftEvents|] eqn:ELE end; [|done]. cbn [mbind option_bind].
  destruct (rightArc (arcAt d arc)) as [r|] eqn:Er; [|done]. cbn [mbind option_bind].
  pose proof (HR _ eq_refl) as Hr.
  match goal with |- ?c ≫= _ = _ -> _ =>
    destruct c as [rightEvents|] eqn:ERE end; [|done]. cbn [mbind option_bind].
  intros [= <-].
  assert (GL : Forall good leftEvents).
  { destruct (beachline_neighbours _ _ _ _ _ Hinv Hl) as [HLL _]. fold (arcAt d l) in HLL.
    destruct (leftArc (arcAt d l)) as [ll|] eqn:Ell; [|injection ELE as <-; constructor].
    pose proof (HLL _ eq_refl) as Hll.
    destruct (getVertexEvent d 0 l) as [e1|] eqn:E1; [|done]. cbn in ELE.
    pose proof (getVertexEvent_consecutive _ _ _ _ _ _ Hinv Hl E1) as G1.
    destruct (leftArc (arcAt d ll)); [|injection ELE as <-; repeat constructor; done].
    destruct (getVertexEvent d 1 ll) as [e2|] eqn:E2; [|done]. cbn in ELE.
    pose proof (getVertexEvent_consecutive _ _ _ _ _ _ Hinv Hll E2) as G2.
    injection ELE as <-. repeat constructor; done. }
  assert (GR : Forall good rightEvents).
  { destruct (beachline_neighbours _ _ _ _ _ Hinv Hr) as [_ HRR]. fold (arcAt d r) in HRR.
    destruct (rightArc (arcAt d r)) as [rr|] eqn:Err; [|injection ERE as <-; constructor].
    pose proof (HRR _ eq_refl) as Hrr.
    destruct (getVertexEvent d 2 r) as [e3|] eqn:E3; [|done]. cbn in ERE.
    pose proof (getVertexEvent_consecutive _ _ _ _ _ _ Hinv Hr E3) as G3.
    destruct (rightArc (arcAt d rr)); [|injection ERE as <-; repeat constructor; done].
    destruct (getVertexEvent d 3 rr) as [e4|] eqn:E4; [|done]. cbn in ERE.
    pose proof (getVertexEvent_consecutive _ _ _ _ _ _ Hinv Hrr E4) as G4.
    injection ERE as <-. repeat constructor; done. }
  unfold beachline_inv, with_eventsAllocated, with_queue, pushVertexEvents, sortVertices.
  cbn [activeSites arena queue vertexEvents siteEvents].
  apply (beachline_events _ _ _ _ _ Hinv).
  intros e. rewrite elem_of_Array_sort, elem_of_app, list_elem_of_omap.
  intros [He|(oe & Hoe & Hid)]; [by left|right].
  cbn in Hid. subst oe.
  apply elem_of_app in Hoe as [Hoe|Hoe].
  - by apply (proj1 (Forall_forall _ _) GL _ Hoe).
  - by apply (proj1 (Forall_forall _ _) GR _ Hoe).
Qed.

Lemma updateEdge_frame (d d' : VoronoiDiagram) (a b : Site) (v : Coordinate) :
  updateEdge d a b v = Some d' ->
  activeSites d' = activeSites d /\ arena d' = arena d /\ queue d' = queue d.
Proof.
  unfold updateEdge. destruct (getEdge d a b) as [[i e]|]; [|done].
  cbn. intros [= <-]. done.
Qed.

(** Vertex events preserve the invariant. *)
Lemma processVertexEvent_inv (d d' : VoronoiDiagram) (bl : list nat) (event : VertexEvent) :
  beachline_inv d bl ->
  consecutive (arcs0 event) (arcs1 event) (arcs2 event) bl ->
  processVertexEvent d event = Some d' ->
  exists bl', beachline_inv d' bl'.
Proof.
  intros Hinv (pre & post & ->). unfold processVertexEvent.
  set (dm := with_edges _ (removeArcTriples _ _)).
  assert (Hdm : beachline_inv dm (pre ++ arcs0 event :: arcs2 event :: post)).
  { unfold beachline_inv. subst dm.
    apply (beachline_vertex_event _ _ _ _ _ _ _ _ _ Hinv).
    intros e He. cbn [with_edges queue] in He.
    apply removeArcTriples_events in He. exact He. }
  clearbody dm.
  destruct (updateEdge dm _ _ _) as [d1|] eqn:E1; [|done]. cbn [mbind option_bind].
  intros E2.
  apply updateEdge_frame in E1 as (A1 & B1 & C1).
  apply updateEdge_frame in E2 as (A2 & B2 & C2).
  exists (pre ++ arcs0 event :: arcs2 event :: post).
  unfold beachline_inv in *. by rewrite A2, B2, C2, A1, B1, C1.
Qed.

Lemma closestParabola_lt (d : VoronoiDiagram) (site' : Site) (i : nat) :
  snd (closestParabola d site') = Some i -> i < length (activeSites d).
Proof.
  unfold closestParabola.
  match goal with |- context [foldl ?f _ _] => set (step := f) end.
  assert (G : forall l n c o,
            (forall i, o = Some i -> i < n) ->
            fst (foldl step (n, (c, o)) l) = n + length l
            /\ forall i, snd (snd (foldl step (n, (c, o)) l)) = Some i -> i < n + length l).
  { induction l as [|s l IH]; intros n c o Ho; cbn [foldl length].
    - rewrite Nat.add_0_r. auto.
    - replace (n + S (length l)) with (S n + length l) by lia.
      subst step. cbn beta iota. case_match; apply IH.
      + intros j [= <-]. lia.
      + intros j Hj. specialize (Ho _ Hj). lia. }
  destruct (G (activeSites d) 0 neg_infinity None ltac:(done)) as [_ G'].
  intros H. apply (G' i). done.
Qed.

Lemma scanArcs_elem (d : VoronoiDiagram) (site' : Site) (l : list nat) (a : nat) :
  scanArcs d site' l = Some (Some a) -> a ∈ l.
Proof.
  unfold scanArcs.
  match goal with |- context [foldl ?f _ _] => set (step := f) end.
  assert (G : forall l acc,
            foldl step acc l = Some (Some a) -> acc = Some (Some a) \/ a ∈ l).
  { clear l. induction l as [|b l IH]; intros acc; cbn [foldl]; [auto|].
    intros [H|H]%IH; [|right; set_solver].
    subst step. cbn beta in H.
    destruct acc as [c|]; [|done]. cbn in H.
    destruct (rightArc (arcAt d b)); [|done]. cbn in H.
    case_match; injection H as H'; [right; set_solver|left; by subst]. }
  intros [H|H]%G; [done|exact H].
Qed.

Lemma containingArc_elem (d : VoronoiDiagram) (site' : Site) (l : list nat) (a : nat) :
  containingArc d site' l = Some (Some a) -> a ∈ l.
Proof.
  unfold containingArc. case_match.
  - intros [= Ha]. by apply list_elem_of_lookup_2 in Ha.
  - destruct (scanArcs d site' (removelast l)) as [[b|]|] eqn:E; cbn; intros [= Ha].
    + subst b. apply scanArcs_elem in E. by apply elem_of_removelast.
    + apply last_Some in Ha as [l' ->]. set_solver.
Qed.

(** Site events preserve the invariant. *)
Lemma insertSite_inv (d d' : VoronoiDiagram) (bl : list nat) (site' : Site) :
  beachline_inv d bl ->
  insertSite d site' = Some d' ->
  exists bl', beachline_inv d' bl'.
Proof.
  intros Hinv. unfold insertSite.
  destruct (snd (closestParabola d site')) as [i0|] eqn:Ei; [|done].
  cbn [mbind option_bind].
  destruct (containingArc d site' _) as [[A|]|] eqn:Ef; [|done..].
  cbn [mbind option_bind].
  apply closestParabola_lt in Ei. apply containingArc_elem in Ef.
  assert (HA : A ∈ bl).
  { pose proof (list_lookup_lookup_total_lt _ _ Ei) as Hs.
    by apply (bl_arcs _ _ _ _ Hinv _ _ A Hs) in Ef as [? _]. }
  assert (HAlt : A < length (arena d)).
  { destruct (linked_lookup _ _ _ _ _ (bl_linked _ _ _ _ Hinv) HA) as [X HX].
    by apply lookup_lt_Some in HX. }
  apply list_elem_of_split in HA as (pre & post & ->).
  set (N := length (arena d)).
  set (d2 := with_activeSites _ (with_arena _ d)).
  destruct (updateBeachLine d2 N A) as [d3|] eqn:Eu; [|done].
  cbn [mbind option_bind]. intros [= <-].
  exists (pre ++ S N :: N :: S (S N) :: post).
  unfold updateBeachLine in Eu.
  set (dm := removeArcTriples _ _) in Eu.
  assert (Hdm : beachline_inv dm (pre ++ S N :: N :: S (S N) :: post)).
  { assert (EX : arcAt d2 A = arena d !!! A).
    { subst d2. unfold arcAt, with_activeSites, with_arena. cbn [arena].
      by rewrite lookup_total_app_l. }
    assert (EN : length (arena d2) = S N).
    { subst d2. unfold with_activeSites, with_arena. cbn [arena].
      rewrite length_app. cbn. lia. }
    assert (EA : arena dm = split_arena (arena d) (length (activeSites d)) A).
    { subst dm. unfold removeArcTriples, with_queue, with_edges. cbn [arena].
      rewrite EX, EN. unfold split_arena.
      assert (E0 : arena (with_arena (fun h =>
                     alter (fun a => mkParabolaArc (activeSite a) (Some (S N)) (Some (S (S N))))
                           N h
                     ++ [mkParabolaArc (activeSite (arena d !!! A)) (leftArc (arena d !!! A))
                                       (Some N);
                         mkParabolaArc (activeSite (arena d !!! A)) (Some N)
                                       (rightArc (arena d !!! A))]) d2)
                   = (arena d ++ [mkParabolaArc (length (activeSites d)) (Some (S N))
                                                (Some (S (S N)))])
                     ++ [mkParabolaArc (activeSite (arena d !!! A)) (leftArc (arena d !!! A))
                                       (Some N);
                         mkParabolaArc (activeSite (arena d !!! A)) (Some N)
                                       (rightArc (arena d !!! A))]).
      { subst d2. unfold with_arena, with_activeSites. cbn [arena].
        rewrite alter_app_r_alt by (fold N; lia). fold N. by rewrite Nat.sub_diag. }
      destruct (leftArc (arena d !!! A)) as [l|], (rightArc (arena d !!! A)) as [r|];
        unfold with_arena, with_activeSites in *; cbn [arena] in *; by rewrite E0. }
    assert (ES : activeSites dm
                 = alter (set_arcs (fun arcs' =>
                            filter (fun element => element <> A) arcs' ++ [S N; S (S N)]))
                         (activeSite (arena d !!! A))
                         (activeSites d ++ [mkActiveSite site' [N]])).
    { subst dm. unfold removeArcTriples, with_queue, with_edges. cbn [activeSites].
      rewrite EX, EN.
      destruct (leftArc (arena d !!! A)) as [l|], (rightArc (arena d !!! A)) as [r|];
        subst d2; unfold with_arena, with_activeSites; cbn [activeSites]; reflexivity. }
    unfold beachline_inv. rewrite EA, ES.
    apply (beachline_site_event _ _ _ _ _ _ _ _ Hinv).
    intros e He. subst dm. apply removeArcTriples_events in He as [He Href].
    split; [|done].
    destruct (leftArc (arcAt d2 A)) as [l|], (rightArc (arcAt d2 A)) as [r|];
      exact He. }
  clearbody dm.
  apply (updateVertexEventsForNewSite_inv _ _ _ _ Hdm) in Eu; [|set_solver].
  unfold beachline_inv, with_activeSites. cbn [activeSites arena queue].
  by apply beachline_sort_arcs.
Qed.

(** The bootstrap establishes the invariant: the beachline is
    (left arc, dividing arc, right arc). *)
End Preservation.

(** ** Further properties of the queue, the steps and the helpers *)


(** *** The queue: pop, push and remove *)

Section QueueExtras.

Lemma isEmpty_nil (q : PriorityQueue) :
  isEmpty q = true <-> siteEvents q = [] /\ vertexEvents q = [].
Proof.
  unfold isEmpty. rewrite andb_true_iff, !Nat.eqb_eq.
  split; intros [H1 H2].
  - split; apply nil_length_inv; assumption.
  - rewrite H1, H2. done.
Qed.

(** What [pop] returns on a queue without events. *)
Lemma pop_drained (q : PriorityQueue) :
  isEmpty q = true -> pop q = (mkEventResult true None None, q).
Proof.
  rewrite isEmpty_nil. destruct q as [S V]. cbn [siteEvents vertexEvents].
  intros [-> ->]. reflexivity.
Qed.

(** X1: [pop] on an empty queue: the queue is empty exactly when [pop]
    returns a site event whose [siteEvent] is [undefined] and leaves the
    queue as it was. *)
Theorem pop_empty_queue (q : PriorityQueue) :
  isEmpty q = true <-> pop q = (mkEventResult true None None, q).
Proof.
  rewrite isEmpty_nil. destruct q as [S V]. unfold pop, Array_pop. cbn [siteEvents vertexEvents].
  split.
  - intros [-> ->]. reflexivity.
  - destruct (last V) as [v|] eqn:EV, (last S) as [s|] eqn:ES.
    + case_match; intros [=].
    + intros [=].
    + intros [=].
    + intros _. apply last_None in EV, ES. done.
Qed.

(** The two ways [pop] can take an event off a queue that is not empty. *)
Lemma pop_cases (q : PriorityQueue) :
  isEmpty q = false ->
  (exists s, fst (pop q) = mkEventResult true (Some s) None
             /\ siteEvents q = siteEvents (snd (pop q)) ++ [s]
             /\ vertexEvents (snd (pop q)) = vertexEvents q)
  \/ (exists v, fst (pop q) = mkEventResult false None (Some v)
                /\ vertexEvents q = vertexEvents (snd (pop q)) ++ [v]
                /\ siteEvents (snd (pop q)) = siteEvents q).
Proof.
  intros HE. destruct q as [S V]. unfold pop, Array_pop. cbn [siteEvents vertexEvents].
  destruct (last V) as [v|] eqn:EV, (last S) as [s|] eqn:ES.
  - apply Array_pop_Some in EV, ES. case_match; [left; exists s | right; exists v];
      cbn; unfold Array_push; rewrite <- ?EV, <- ?ES; done.
  - right. exists v. apply Array_pop_Some in EV. cbn. done.
  - left. exists s. apply Array_pop_Some in ES. cbn. done.
  - apply last_None in EV, ES. subst. discriminate HE.
Qed.

(** X2: [pop] on a queue that is not empty takes exactly one event: either
    the last site event or the last vertex event is returned, it is removed
    from its array, and the other array is as before (the entry that was
    popped for the comparison is pushed back); the number of queued events
    drops by one. *)
Theorem pop_takes_one_event (q : PriorityQueue) :
  isEmpty q = false ->
  length (siteEvents (snd (pop q))) + length (vertexEvents (snd (pop q))) + 1
  = length (siteEvents q) + length (vertexEvents q)
  /\ ((exists s, fst (pop q) = mkEventResult true (Some s) None
                 /\ siteEvents q = siteEvents (snd (pop q)) ++ [s]
                 /\ vertexEvents (snd (pop q)) = vertexEvents q)
      \/ (exists v, fst (pop q) = mkEventResult false None (Some v)
                    /\ vertexEvents q = vertexEvents (snd (pop q)) ++ [v]
                    /\ siteEvents (snd (pop q)) = siteEvents q)).
Proof.
  intros HE. pose proof (pop_cases q HE) as H. split; [| exact H].
  destruct H as [(s & _ & Hs & Hv) | (v & _ & Hv & Hs)].
  - apply (f_equal length) in Hs. rewrite length_app in Hs. cbn [length] in Hs.
    rewrite Hv. lia.
  - apply (f_equal length) in Hv. rewrite length_app in Hv. cbn [length] in Hv.
    rewrite Hs. lia.
Qed.

Lemma pop_takes_one_event_witness :
  (length (siteEvents (snd (pop c1_queue))) + length (vertexEvents (snd (pop c1_queue))) + 1
   = length (siteEvents c1_queue) + length (vertexEvents c1_queue))%nat
  /\ ((exists s, fst (pop c1_queue) = mkEventResult true (Some s) None
                 /\ siteEvents c1_queue = siteEvents (snd (pop c1_queue)) ++ [s]
                 /\ vertexEvents (snd (pop c1_queue)) = vertexEvents c1_queue)
      \/ (exists v, fst (pop c1_queue) = mkEventResult false None (Some v)
                    /\ vertexEvents c1_queue = vertexEvents (snd (pop c1_queue)) ++ [v]
                    /\ siteEvents (snd (pop c1_queue)) = siteEvents c1_queue)).
Proof. apply (pop_takes_one_event c1_queue). reflexivity. Defined.

Lemma StronglySorted_app_l {A} (R : A -> A -> Prop) (l l' : list A) :
  StronglySorted R (l ++ l') -> StronglySorted R l.
Proof.
  induction l as [|a l IH]; cbn; intros H; [constructor |].
  apply StronglySorted_inv in H as [H1 H2].
  constructor; [auto |]. apply Forall_app in H2 as [H2 _]. exact H2.
Qed.

(** X3: [pop] keeps both arrays of the queue in descending order. *)
Theorem pop_keeps_descending (q : PriorityQueue) :
  sites_descending (siteEvents q) -> vertices_descending (vertexEvents q) ->
  sites_descending (siteEvents (snd (pop q)))
  /\ vertices_descending (vertexEvents (snd (pop q))).
Proof.
  intros HS HV. destruct (isEmpty q) eqn:HE.
  - apply pop_drained in HE. rewrite HE. done.
  - unfold sites_descending, vertices_descending in *.
    destruct (pop_cases q HE) as [(s & _ & Hs & Hv) | (v & _ & Hv & Hs)].
    + rewrite Hv. split; [| done]. rewrite Hs in HS. eapply StronglySorted_app_l, HS.
    + rewrite Hs. split; [done |]. rewrite Hv in HV. eapply StronglySorted_app_l, HV.
Qed.

Lemma pop_keeps_descending_witness :
  sites_descending (siteEvents (snd (pop c1_long_queue)))
  /\ vertices_descending (vertexEvents (snd (pop c1_long_queue))).
Proof.
  apply (pop_keeps_descending c1_long_queue);
    repeat constructor; vm_compute; discriminate.
Defined.

(** X4: [pushSiteEvents] does not append: it replaces the site events by
    the given sites (sorted), so the site events pushed before are lost; the
    vertex events are untouched. *)
Theorem pushSiteEvents_replaces (values values' : list Site) (q : PriorityQueue) :
  pushSiteEvents values (pushSiteEvents values' q) = pushSiteEvents values q
  /\ siteEvents (pushSiteEvents values q) ≡ₚ map mkSiteEvent values
  /\ vertexEvents (pushSiteEvents values q) = vertexEvents q.
Proof.
  split; [reflexivity |]. split; [| reflexivity].
  apply Array_sort_perm.
Qed.

Lemma not_indexOf_false (values : list VertexEvent) (e : VertexEvent) :
  not_indexOf values e = false <-> exists v, v ∈ values /\ event_ref v = event_ref e.
Proof.
  unfold not_indexOf. rewrite negb_false_iff, existsb_exists.
  split; intros (v & Hv & Hr); exists v.
  - apply Nat.eqb_eq in Hr. split; [apply list_elem_of_In, Hv | done].
  - split; [apply list_elem_of_In, Hv | apply Nat.eqb_eq, Hr].
Qed.

(** X5: [removeVertexEvents] removes by object identity: an event is
    queued afterwards exactly when it was queued before and is not one of
    the given event objects; the site events are untouched. *)
Theorem removeVertexEvents_by_identity (values : list VertexEvent) (q : PriorityQueue)
    (e : VertexEvent) :
  (e ∈ vertexEvents (removeVertexEvents values q)
   <-> e ∈ vertexEvents q /\ forall v, v ∈ values -> event_ref v <> event_ref e)
  /\ siteEvents (removeVertexEvents values q) = siteEvents q.
Proof.
  split; [| reflexivity].
  unfold removeVertexEvents, sortVertices. cbn [vertexEvents siteEvents].
  rewrite elem_of_Array_sort, list_elem_of_filter.
  split; intros [H1 H2]; split; auto.
  - intros v Hv Hr. apply not_true_iff_false in H1; [done |].
    apply not_indexOf_false. eauto.
  - destruct (not_indexOf values e) eqn:E; [done |].
    apply not_indexOf_false in E as (v & Hv & Hr). destruct (H2 v Hv Hr).
Qed.

Lemma filter_all {A} (P : A -> Prop) `{!forall x, Decision (P x)} (l : list A) :
  Forall P l -> filter P l = l.
Proof.
  induction 1 as [|a l Ha _ IH]; [reflexivity |].
  rewrite filter_cons_True by done. f_equal. exact IH.
Qed.

Lemma filter_none {A} (P : A -> Prop) `{!forall x, Decision (P x)} (l : list A) :
  Forall (fun a => ~ P a) l -> filter P l = [].
Proof.
  induction 1 as [|a l Ha _ IH]; [reflexivity |].
  rewrite filter_cons_False by done. exact IH.
Qed.

(** X6: pushing vertex events adds exactly them, and removing the same
    events again gives back the events queued before (as a collection),
    provided none of the pushed event objects was queued already. *)
Theorem push_then_remove_vertex_events (values : list VertexEvent) (q : PriorityQueue) :
  (forall e v, e ∈ vertexEvents q -> v ∈ values -> event_ref v <> event_ref e) ->
  vertexEvents (pushVertexEvents values q) ≡ₚ vertexEvents q ++ values
  /\ vertexEvents (removeVertexEvents values (pushVertexEvents values q)) ≡ₚ vertexEvents q
  /\ siteEvents (removeVertexEvents values (pushVertexEvents values q)) = siteEvents q.
Proof.
  intros Hfresh. split; [apply Array_sort_perm |]. split; [| reflexivity].
  unfold removeVertexEvents, pushVertexEvents, sortVertices. cbn [vertexEvents siteEvents].
  rewrite Array_sort_perm, Array_sort_perm, filter_app.
  rewrite filter_all, filter_none; [by rewrite app_nil_r | |].
  - apply Forall_forall. intros v Hv. apply not_true_iff_false, not_indexOf_false. eauto.
  - apply Forall_forall. intros e He.
    destruct (not_indexOf values e) eqn:E; [done |].
    apply not_indexOf_false in E as (v & Hv & Hr). destruct (Hfresh e v He Hv Hr).
Qed.

Lemma push_then_remove_vertex_events_witness :
  vertexEvents (pushVertexEvents [c1_far] c1_queue) ≡ₚ vertexEvents c1_queue ++ [c1_far]
  /\ vertexEvents (removeVertexEvents [c1_far] (pushVertexEvents [c1_far] c1_queue))
     ≡ₚ vertexEvents c1_queue
  /\ siteEvents (removeVertexEvents [c1_far] (pushVertexEvents [c1_far] c1_queue))
     = siteEvents c1_queue.
Proof.
  apply (push_then_remove_vertex_events [c1_far] c1_queue).
  intros e v He Hv. apply list_elem_of_singleton in He, Hv. subst. simpl. lia.
Defined.

End QueueExtras.


(** *** What each operation leaves unchanged *)

Section Frames.

Lemma map_site_alter (f : list nat -> list nat) (i : nat) (l : list ActiveSite) :
  map site (alter (set_arcs f) i l) = map site l.
Proof.
  revert i. induction l as [|s l IH]; intros [|i]; cbn; try reflexivity.
  f_equal. apply IH.
Qed.

Lemma omap_length_le {A B} (f : A -> option B) (l : list A) :
  length (omap f l) <= length l.
Proof. induction l as [|a l IH]; cbn; [lia |]. destruct (f a); cbn; lia. Qed.

Lemma removeArcTriples_frame (d : VoronoiDiagram) (arc : nat) :
  activeSites (removeArcTriples d arc) = activeSites d
  /\ arena (removeArcTriples d arc) = arena d
  /\ edges (removeArcTriples d arc) = edges d
  /\ siteEvents (queue (removeArcTriples d arc)) = siteEvents (queue d)
  /\ length (vertexEvents (queue (removeArcTriples d arc)))
     <= length (vertexEvents (queue d)).
Proof.
  unfold removeArcTriples, with_queue, removeVertexEvents, sortVertices.
  cbn [activeSites arena edges queue siteEvents vertexEvents].
  split_and!; try reflexivity.
  rewrite Array_sort_length. apply length_filter.
Qed.

Lemma updateVertexEventsForNewSite_frame (d d' : VoronoiDiagram) (arc : nat) :
  updateVertexEventsForNewSite d arc = Some d' ->
  activeSites d' = activeSites d /\ arena d' = arena d /\ edges d' = edges d
  /\ siteEvents (queue d') = siteEvents (queue d)
  /\ length (vertexEvents (queue d')) <= length (vertexEvents (queue d)) + 4.
Proof.
  unfold updateVertexEventsForNewSite.
  destruct (leftArc (arcAt d arc)) as [l|]; [|done]. cbn [mbind option_bind].
  match goal with |- ?c ≫= _ = _ -> _ =>
    destruct c as [leftEvents|] eqn:ELE end; [|done]. cbn [mbind option_bind].
  destruct (rightArc (arcAt d arc)) as [r|]; [|done]. cbn [mbind option_bind].
  match goal with |- ?c ≫= _ = _ -> _ =>
    destruct c as [rightEvents|] eqn:ERE end; [|done]. cbn [mbind option_bind].
  intros [= <-].
  assert (GL : length leftEvents <= 2).
  { destruct (leftArc (arcAt d l)) as [ll|]; [|injection ELE as <-; cbn; lia].
    destruct (getVertexEvent d 0 l) as [e1|]; [|done]. cbn in ELE.
    destruct (leftArc (arcAt d ll)); [|injection ELE as <-; cbn; lia].
    destruct (getVertexEvent d 1 ll) as [e2|]; [|done]. cbn in ELE.
    injection ELE as <-. cbn; lia. }
  assert (GR : length rightEvents <= 2).
  { destruct (rightArc (arcAt d r)) as [rr|]; [|injection ERE as <-; cbn; lia].
    destruct (getVertexEvent d 2 r) as [e3|]; [|done]. cbn in ERE.
    destruct (rightArc (arcAt d rr)); [|injection ERE as <-; cbn; lia].
    destruct (getVertexEvent d 3 rr) as [e4|]; [|done]. cbn in ERE.
    injection ERE as <-. cbn; lia. }
  unfold with_eventsAllocated, with_queue, pushVertexEvents, sortVertices.
  cbn [activeSites arena edges queue siteEvents vertexEvents].
  split_and!; try reflexivity.
  rewrite Array_sort_length, length_app.
  pose proof (omap_length_le id (leftEvents ++ rightEvents)) as Ho.
  rewrite length_app in Ho. lia.
Qed.

Lemma updateBeachLine_frame (d d' : VoronoiDiagram) (newArc intersectedArc : nat) :
  updateBeachLine d newArc intersectedArc = Some d' ->
  map site (activeSites d') = map site (activeSites d)
  /\ length (arena d') = length (arena d) + 2
  /\ (exists a b, edges d' = edges d ++ [mkEdge a b None None])
  /\ siteEvents (queue d') = siteEvents (queue d)
  /\ length (vertexEvents (queue d')) <= length (vertexEvents (queue d)) + 4.
Proof.
  unfold updateBeachLine. intros H.
  apply updateVertexEventsForNewSite_frame in H as (HS & HA & HE & HQ & HV).
  match type of HS with _ = activeSites (removeArcTriples ?dm _) => set (m := dm) in * end.
  destruct (removeArcTriples_frame m intersectedArc) as (HS' & HA' & HE' & HQ' & HV').
  rewrite HS, HA, HE, HQ, HS', HA', HE', HQ'.
  assert (Hm : map site (activeSites m) = map site (activeSites d)
               /\ length (arena m) = length (arena d) + 2
               /\ (exists a b, edges m = edges d ++ [mkEdge a b None None])
               /\ queue m = queue d).
  { subst m.
    destruct (leftArc (arcAt d intersectedArc)), (rightArc (arcAt d intersectedArc));
      unfold with_edges, with_arena, with_activeSites;
      cbn [activeSites arena edges queue];
      rewrite ?map_site_alter, ?length_alter, ?length_app, ?length_alter; cbn [length];
      (split_and!; [reflexivity | lia | eauto | reflexivity]). }
  destruct Hm as (M1 & M2 & M3 & M4). rewrite M4 in *.
  split_and!; try done. lia.
Qed.

Lemma insertSite_frame (d d' : VoronoiDiagram) (site' : Site) :
  insertSite d site' = Some d' ->
  map site (activeSites d') = map site (activeSites d) ++ [site']
  /\ length (arena d') = length (arena d) + 3
  /\ (exists a b, edges d' = edges d ++ [mkEdge a b None None])
  /\ siteEvents (queue d') = siteEvents (queue d)
  /\ length (vertexEvents (queue d')) <= length (vertexEvents (queue d)) + 4.
Proof.
  unfold insertSite.
  destruct (snd (closestParabola d site')) as [i0|]; [|done]. cbn [mbind option_bind].
  destruct (containingArc d site' _) as [[A|]|]; [|done..]. cbn [mbind option_bind].
  match goal with |- ?c ≫= _ = _ -> _ => destruct c as [d3|] eqn:Eu end; [|done].
  cbn [mbind option_bind]. intros [= <-].
  apply updateBeachLine_frame in Eu as (HS & HA & HE & HQ & HV).
  unfold with_activeSites, with_arena in *.
  cbn [activeSites arena edges queue] in *.
  rewrite map_site_alter, HS, HA, HQ, map_app, length_app. cbn [map length site].
  split_and!; try done; lia.
Qed.

Lemma updateEdge_faces (d d' : VoronoiDiagram) (a b : Site) (v : Coordinate) :
  updateEdge d a b v = Some d' ->
  map faces (edges d') = map faces (edges d).
Proof.
  unfold updateEdge, getEdge.
  destruct (list_find _ (edges d)) as [[i e]|] eqn:E; [|done].
  cbn. intros [= <-]. cbn [with_edges edges].
  apply list_find_Some in E as (Hi & _ & _).
  change (map faces ?l) with (faces <$> l).
  rewrite list_fmap_insert. apply list_insert_id.
  rewrite list_lookup_fmap, Hi. cbn. f_equal.
  unfold faces, addVertexToEdge. by case_match.
Qed.

Lemma processVertexEvent_frame (d d' : VoronoiDiagram) (e : VertexEvent) :
  processVertexEvent d e = Some d' ->
  map site (activeSites d') = map site (activeSites d)
  /\ length (arena d') = length (arena d)
  /\ (exists new, map faces (edges d') = map faces (edges d) ++ [faces new])
  /\ siteEvents (queue d') = siteEvents (queue d)
  /\ (forall e', e' ∈ vertexEvents (queue d') ->
        e' ∈ vertexEvents (queue d) /\ references (arcs1 e) e' = false)
  /\ length (vertexEvents (queue d')) <= length (vertexEvents (queue d)).
Proof.
  unfold processVertexEvent.
  set (dm := with_edges _ (removeArcTriples _ _)).
  destruct (updateEdge dm _ _ _) as [d1|] eqn:E1; [|done]. cbn [mbind option_bind].
  intros E2.
  pose proof (updateEdge_faces _ _ _ _ _ E1) as F1.
  pose proof (updateEdge_faces _ _ _ _ _ E2) as F2.
  apply updateEdge_frame in E1 as (A1 & B1 & C1).
  apply updateEdge_frame in E2 as (A2 & B2 & C2).
  rewrite A2, B2, C2, A1, B1, C1, F2, F1. subst dm.
  match goal with |- context [removeArcTriples ?dm ?a] =>
    set (m := dm); destruct (removeArcTriples_frame m a) as (HS & HA & HE & HQ & HV) end.
  unfold with_edges at 1 2 3 4 5 6. cbn [activeSites arena edges queue].
  rewrite HS, HA, HE, HQ.
  split_and!.
  - subst m. unfold with_arena, with_activeSites. cbn [activeSites]. apply map_site_alter.
  - subst m. unfold with_arena, with_activeSites. cbn [arena]. by rewrite !length_alter.
  - eexists. rewrite map_app. cbn [map]. reflexivity.
  - reflexivity.
  - intros e' He'. apply removeArcTriples_events in He'. exact He'.
  - exact HV.
Qed.

End Frames.

(** *** Steps: progress, edges and allocations *)

Section Steps.

Lemma computeStep_cases (d d' : VoronoiDiagram) :
  computeStep d = Some d' ->
  let q := snd (pop (queue d)) in
  (exists s, fst (pop (queue d)) = mkEventResult true (Some s) None
             /\ siteEvents (queue d) = siteEvents q ++ [s]
             /\ vertexEvents q = vertexEvents (queue d)
             /\ insertSite (with_lineSweepPosition (y (point s)) (with_queue (fun _ => q) d))
                           (point s) = Some d')
  \/ (exists v, fst (pop (queue d)) = mkEventResult false None (Some v)
                /\ vertexEvents (queue d) = vertexEvents q ++ [v]
                /\ siteEvents q = siteEvents (queue d)
                /\ processVertexEvent
                     (with_lineSweepPosition (y (eventPoint v)) (with_queue (fun _ => q) d)) v
                   = Some d').
Proof.
  intros H. cbn zeta. unfold computeStep in H.
  destruct (isEmpty (queue d)) eqn:HE.
  - apply pop_drained in HE. rewrite HE in H. discriminate H.
  - destruct (pop_cases _ HE) as [(s & Hr & Hs & Hv) | (v & Hr & Hv & Hs)];
      destruct (pop (queue d)) as [r q]; cbn [fst snd] in *; subst r;
      cbn [isSiteEvent siteEvent vertexEvent mbind option_bind] in H; [left | right]; eauto.
Qed.

Lemma computeStep_pending (d d' : VoronoiDiagram) :
  computeStep d = Some d' -> pending d' < pending d.
Proof.
  intros H. apply computeStep_cases in H. cbn zeta in H. unfold pending.
  destruct H as [(s & _ & Hs & Hv & H) | (v & _ & Hv & Hs & H)].
  - apply insertSite_frame in H as (_ & _ & _ & HQ & HV).
    cbn [with_lineSweepPosition with_queue queue] in HQ, HV.
    rewrite HQ, Hs, length_app. rewrite Hv in HV. cbn [length]. lia.
  - apply processVertexEvent_frame in H as (_ & _ & _ & HQ & _ & HV).
    cbn [with_lineSweepPosition with_queue queue] in HQ, HV.
    rewrite HQ, Hs, Hv, length_app. cbn [length]. lia.
Qed.

Lemma isEmpty_pending (d : VoronoiDiagram) : isEmpty (queue d) = true <-> pending d = 0.
Proof.
  rewrite isEmpty_nil. unfold pending. split.
  - intros [-> ->]. reflexivity.
  - intros H. split; apply nil_length_inv; lia.
Qed.

(** X9: [computeStep] on a drained queue throws. *)
Theorem computeStep_on_empty_queue (d : VoronoiDiagram) :
  isEmpty (queue d) = true -> computeStep d = None.
Proof.
  intros HE. apply pop_drained in HE. unfold computeStep. rewrite HE. reflexivity.
Qed.

Lemma computeStep_on_empty_queue_witness : computeStep c10_diagram = None.
Proof. apply (computeStep_on_empty_queue c10_diagram). reflexivity. Defined.

(** X10: every step that returns makes [pending] (five times the number
    of site events plus the number of vertex events) strictly smaller: the
    site events never grow in number, the vertex events by at most four. *)
Theorem computeStep_decreases_pending (d d' : VoronoiDiagram) :
  computeStep d = Some d' ->
  pending d' < pending d
  /\ length (siteEvents (queue d')) <= length (siteEvents (queue d))
  /\ length (vertexEvents (queue d')) <= length (vertexEvents (queue d)) + 4.
Proof.
  intros H. split; [by apply computeStep_pending |].
  apply computeStep_cases in H. cbn zeta in H.
  destruct H as [(s & _ & Hs & Hv & H) | (v & _ & Hv & Hs & H)].
  - apply insertSite_frame in H as (_ & _ & _ & HQ & HV).
    cbn [with_lineSweepPosition with_queue queue] in HQ, HV.
    rewrite HQ, Hs, length_app. rewrite Hv in HV. cbn [length]. lia.
  - apply processVertexEvent_frame in H as (_ & _ & _ & HQ & _ & HV).
    cbn [with_lineSweepPosition with_queue queue] in HQ, HV.
    rewrite HQ, Hs. rewrite Hv, length_app. cbn [length]. lia.
Qed.

Lemma computeStep_decreases_pending_witness :
  (pending seed_one < pending seed_start)%nat
  /\ (length (siteEvents (queue seed_one)) <= length (siteEvents (queue seed_start)))%nat
  /\ (length (vertexEvents (queue seed_one))
      <= length (vertexEvents (queue seed_start)) + 4)%nat.
Proof. apply (computeStep_decreases_pending seed_start seed_one). vm_compute. reflexivity. Defined.



Lemma computeStep_edges (d d' : VoronoiDiagram) :
  computeStep d = Some d' ->
  exists new, map faces (edges d') = map faces (edges d) ++ [faces new].
Proof.
  intros H. apply computeStep_cases in H. cbn zeta in H.
  destruct H as [(s & _ & _ & _ & H) | (v & _ & _ & _ & H)].
  - apply insertSite_frame in H as (_ & _ & (a & b & HE) & _).
    cbn [with_lineSweepPosition with_queue edges] in HE.
    eexists. rewrite HE, map_app. reflexivity.
  - apply processVertexEvent_frame in H as (_ & _ & HE & _). exact HE.
Qed.

(** X13: every step that returns makes [edges] one longer: one edge is
    appended, and the faces of the edges that existed are unchanged (only
    vertices are written). *)
Theorem computeStep_appends_one_edge (d d' : VoronoiDiagram) :
  computeStep d = Some d' ->
  length (edges d') = S (length (edges d))
  /\ exists new, map faces (edges d') = map faces (edges d) ++ [faces new].
Proof.
  intros H. destruct (computeStep_edges _ _ H) as [new Hnew].
  split; [| by exists new].
  apply (f_equal length) in Hnew. rewrite length_app, !length_map in Hnew.
  cbn in Hnew. lia.
Qed.

Lemma computeStep_appends_one_edge_witness :
  length (edges seed_one) = S (length (edges seed_start))
  /\ exists new, map faces (edges seed_one) = map faces (edges seed_start) ++ [faces new].
Proof. apply (computeStep_appends_one_edge seed_start seed_one). vm_compute. reflexivity. Defined.

(** X15: a site event appends one active site (for the event's site) and
    allocates three arcs; a vertex event does neither.  The sites of the
    active sites that existed are unchanged. *)
Theorem computeStep_allocations (d d' : VoronoiDiagram) :
  computeStep d = Some d' ->
  if isSiteEvent (fst (pop (queue d))) then
    exists s, siteEvent (fst (pop (queue d))) = Some s
              /\ map site (activeSites d') = map site (activeSites d) ++ [point s]
              /\ length (arena d') = length (arena d) + 3
  else
    map site (activeSites d') = map site (activeSites d)
    /\ length (arena d') = length (arena d).
Proof.
  intros H. apply computeStep_cases in H. cbn zeta in H.
  destruct H as [(s & -> & _ & _ & H) | (v & -> & _ & _ & H)]; cbn [isSiteEvent siteEvent].
  - apply insertSite_frame in H as (HS & HA & _). eauto.
  - apply processVertexEvent_frame in H as (HS & HA & _). eauto.
Qed.

Lemma computeStep_allocations_witness :
  if isSiteEvent (fst (pop (queue seed_start))) then
    exists s, siteEvent (fst (pop (queue seed_start))) = Some s
              /\ map site (activeSites seed_one) = map site (activeSites seed_start) ++ [point s]
              /\ length (arena seed_one) = (length (arena seed_start) + 3)%nat
  else
    map site (activeSites seed_one) = map site (activeSites seed_start)
    /\ length (arena seed_one) = length (arena seed_start).
Proof. apply (computeStep_allocations seed_start seed_one). vm_compute. reflexivity. Defined.

End Steps.

(** *** The constructor *)

Section Bootstrap.
Local Open Scope float_scope.

Lemma last_two {A} (l : list A) :
  (length l < 2 /\ (last l = None \/ last (removelast l) = None))%nat
  \/ exists rest b a, l = (rest ++ [b]) ++ [a].
Proof.
  destruct l as [|a l] using rev_ind; [left; cbn; split; [lia | auto] |].
  clear IHl. destruct l as [|b l] using rev_ind.
  - left. cbn. split; [lia | auto].
  - right. exists l, b, a. reflexivity.
Qed.

Lemma insertFirstSites_fresh (sites' : list SiteEvent) :
  insertFirstSites (mkVoronoiDiagram [] [] 0 (mkPriorityQueue sites' []) [] 0)
  = first ← last sites';
    second ← last (removelast sites');
    Some (mkVoronoiDiagram
            [mkActiveSite (point first) [1; 2]%nat; mkActiveSite (point second) [0%nat]]
            [mkEdge (point first) (point second) None None]
            0
            (mkPriorityQueue (removelast (removelast sites')) [])
            [mkParabolaArc 1 (Some 1%nat) (Some 2%nat);
             mkParabolaArc 0 None (Some 0%nat);
             mkParabolaArc 0 (Some 0%nat) None]
            0).
Proof.
  unfold insertFirstSites, pop, Array_pop. cbn.
  destruct (last sites') as [first|]; [| reflexivity]. cbn.
  destruct (last (removelast sites')) as [second|]; reflexivity.
Qed.

(** X7: the constructor throws exactly when it is given fewer than two
    sites. *)
Theorem new_VoronoiDiagram_needs_two_sites (sites : list Site) :
  new_VoronoiDiagram sites = None <-> (length sites < 2)%nat.
Proof.
  unfold new_VoronoiDiagram, pushSiteEvents, sortSites. cbn [siteEvents vertexEvents].
  rewrite insertFirstSites_fresh.
  set (S := Array_sort _ _).
  assert (HL : length S = length sites).
  { subst S. by rewrite Array_sort_length, length_map. }
  rewrite <- HL. clearbody S.
  destruct (last_two S) as [[Hlt Hn] | (rest & b & a & ->)].
  - split; [auto |]. intros _. destruct Hn as [-> | Hn]; [reflexivity |].
    destruct (last S); cbn; [by rewrite Hn | reflexivity].
  - rewrite last_snoc', removelast_snoc, last_snoc'. cbn.
    rewrite !length_app. cbn. split; [done | lia].
Qed.

Lemma float_ltb_irrefl (u : float) : (u <? u) = false.
Proof.
  destruct (u <? u) eqn:E; [| reflexivity].
  apply Binary64.ltb_fcompare in E.
  pose proof (Binary64.fcompare_antisym u u) as H. rewrite E in H. discriminate H.
Qed.

(** X8: the state after the constructor: the last two entries of the
    sorted site events were consumed; the last one owns the two outer arcs,
    the one before it the dividing arc; there is one edge between them with
    no vertex, no vertex event, and the sweep line is still at 0.  When no
    coordinate is [NaN], no site lies below the first site taken. *)
Theorem bootstrap_takes_two_lowest_sites (sites : list Site) (d : VoronoiDiagram) :
  new_VoronoiDiagram sites = Some d ->
  exists rest second first,
    Array_sort sortSites_compare (map mkSiteEvent sites)
      = rest ++ [mkSiteEvent second; mkSiteEvent first]
    /\ d = mkVoronoiDiagram
             [mkActiveSite first [1; 2]%nat; mkActiveSite second [0%nat]]
             [mkEdge first second None None]
             0
             (mkPriorityQueue rest [])
             [mkParabolaArc 1 (Some 1%nat) (Some 2%nat);
              mkParabolaArc 0 None (Some 0%nat);
              mkParabolaArc 0 (Some 0%nat) None]
             0
    /\ (Forall no_nan (map site_point sites) ->
        forall s : Site, s ∈ sites -> (y s <? y first) = false).
Proof.
  unfold new_VoronoiDiagram. intros H.
  pose proof (sortSites_descending (mkPriorityQueue (map mkSiteEvent sites) [])) as Hsorted.
  unfold pushSiteEvents, sortSites, sites_descending in *. cbn [siteEvents vertexEvents] in *.
  rewrite insertFirstSites_fresh in H.
  pose proof (elem_of_Array_sort sortSites_compare (map mkSiteEvent sites)) as Helem.
  set (S := Array_sort _ _) in *. clearbody S.
  destruct (last_two S) as [[Hlt Hn] | (rest & [second] & [first] & ->)].
  - destruct Hn as [Hn | Hn]; rewrite Hn in H; [done |]. destruct (last S); done.
  - rewrite last_snoc', removelast_snoc, last_snoc', removelast_snoc in H.
    cbn in H. injection H as <-.
    exists rest, second, first. rewrite <- (assoc_L (++)). split_and!; [reflexivity.. |].
    intros Hnan s Hs.
    assert (Hse : mkSiteEvent s ∈ (rest ++ [mkSiteEvent second]) ++ [mkSiteEvent first]).
    { apply Helem, list_elem_of_fmap. eauto. }
    apply elem_of_app in Hse as [Hse | Hse].
    + assert (Hsrt : StronglySorted (fun a b => precedes (point a) (point b))
                       ((rest ++ [mkSiteEvent second]) ++ [mkSiteEvent first])).
      { apply Hsorted.
        apply Forall_forall. intros e He. apply list_elem_of_fmap in He as (s' & -> & Hs').
        cbn. apply (proj1 (Forall_forall _ _) Hnan). apply list_elem_of_fmap. eauto. }
      apply (precedes_y _ _ (sorted_before_last _ _ _ _ Hsrt Hse)).
    + apply list_elem_of_singleton in Hse. injection Hse as ->. apply float_ltb_irrefl.
Qed.

Lemma bootstrap_takes_two_lowest_sites_witness :
  exists rest second first,
    Array_sort sortSites_compare (map mkSiteEvent seed_sites)
      = rest ++ [mkSiteEvent second; mkSiteEvent first]
    /\ seed_start = mkVoronoiDiagram
             [mkActiveSite first [1; 2]%nat; mkActiveSite second [0%nat]]
             [mkEdge first second None None]
             0
             (mkPriorityQueue rest [])
             [mkParabolaArc 1 (Some 1%nat) (Some 2%nat);
              mkParabolaArc 0 None (Some 0%nat);
              mkParabolaArc 0 (Some 0%nat) None]
             0
    /\ (Forall no_nan (map site_point seed_sites) ->
        forall s : Site, s ∈ seed_sites -> (y s <? y first) = false).
Proof. apply (bootstrap_takes_two_lowest_sites seed_sites seed_start). vm_compute. reflexivity. Defined.

End Bootstrap.

(** *** Edges: finalization and lookup *)

Section EdgeExtras.
Local Open Scope float_scope.

(** X19: after finalization no edge has exactly one vertex. *)
Theorem completeUnboundEdges_no_half_edge (d : VoronoiDiagram) (e : Edge) :
  e ∈ edges (completeUnboundEdges d) ->
  (firstVertex e = None <-> lastVertex e = None).
Proof.
  unfold completeUnboundEdges, with_edges. cbn [edges].
  intros He. apply list_elem_of_fmap in He as (e0 & -> & _).
  unfold completeEdge.
  destruct (firstVertex e0) eqn:E1, (lastVertex e0) eqn:E2; try case_match;
    cbn; rewrite ?E1, ?E2; done.
Qed.

Lemma completeUnboundEdges_no_half_edge_witness :
  firstVertex (completeEdge c2_edge) = None <-> lastVertex (completeEdge c2_edge) = None.
Proof.
  apply (completeUnboundEdges_no_half_edge c2_diagram (completeEdge c2_edge)).
  apply list_elem_of_here.
Defined.

(** X20: [updateEdge] throws exactly when no edge joins the two sites,
    in either orientation. *)
Theorem updateEdge_missing_edge (d : VoronoiDiagram) (a b : Site) (vertex : Coordinate) :
  updateEdge d a b vertex = None
  <-> forall e, e ∈ edges d -> getEdge_test a b e = false.
Proof.
  unfold updateEdge, getEdge.
  destruct (list_find _ (edges d)) as [[i e]|] eqn:E; cbn.
  - apply list_find_Some in E as (Hi & He & _).
    split; [done |]. intros H. apply list_elem_of_lookup_2 in Hi.
    specialize (H _ Hi). congruence.
  - split; [| done]. intros _ e He.
    apply list_find_None in E. apply (proj1 (Forall_forall _ _) E) in He.
    by apply not_true_is_false.
Qed.

(** X21: when [canAddVertexToEdge] answers [true], the [updateEdge] with
    the same arguments overwrites nothing: every vertex that an edge had
    is still there. *)
Theorem canAddVertexToEdge_guards_updateEdge (d d' : VoronoiDiagram) (a b : Site)
    (vertex : Coordinate) :
  canAddVertexToEdge d a b vertex = true ->
  updateEdge d a b vertex = Some d' ->
  length (edges d') = length (edges d)
  /\ forall i e e', edges d !! i = Some e -> edges d' !! i = Some e' ->
       (forall p, firstVertex e = Some p -> firstVertex e' = Some p)
       /\ (forall p, lastVertex e = Some p -> lastVertex e' = Some p).
Proof.
  unfold canAddVertexToEdge, updateEdge.
  destruct (getEdge d a b) as [[i0 e0]|] eqn:E; [| done]. cbn [mbind option_bind].
  intros Hcan [= <-]. cbn [with_edges edges].
  rewrite length_insert. split; [reflexivity |].
  unfold getEdge in E. apply list_find_Some in E as (Hi0 & _ & _).
  intros i e e' Hi Hi'.
  destruct (decide (i = i0)) as [-> | Hne].
  - rewrite list_lookup_insert_eq in Hi' by (by eapply lookup_lt_Some).
    injection Hi' as <-. assert (e = e0) as -> by congruence.
    unfold addVertexToEdge.
    destruct (gtb (distanceFromPlane (leftFace e0) (rightFace e0) vertex) 0);
      apply bool_decide_eq_true in Hcan; cbn [set_firstVertex set_lastVertex firstVertex lastVertex];
      rewrite Hcan; done.
  - rewrite list_lookup_insert_ne in Hi' by done.
    assert (e' = e) as -> by congruence. done.
Qed.

Lemma canAddVertexToEdge_guards_updateEdge_witness :
  length (edges c2_updated) = length (edges c2_diagram)
  /\ forall i e e', edges c2_diagram !! i = Some e -> edges c2_updated !! i = Some e' ->
       (forall p, firstVertex e = Some p -> firstVertex e' = Some p)
       /\ (forall p, lastVertex e = Some p -> lastVertex e' = Some p).
Proof.
  apply (canAddVertexToEdge_guards_updateEdge c2_diagram c2_updated c10_a c10_b
           (mkCoordinate 1 5)); vm_compute; reflexivity.
Defined.

End EdgeExtras.


(** *** The neighbours of an arc in the linked list *)

Section Neighbours.

Lemma linked_at_total (d : VoronoiDiagram) (pre post : list nat) (a : nat) :
  linked (arena d) None (pre ++ a :: post) None ->
  leftArc (arcAt d a) = last_or pre None /\ rightArc (arcAt d a) = hd_or post None.
Proof.
  intros H. destruct (linked_at _ _ _ _ H) as (A & HA & HL & HR).
  unfold arcAt. by rewrite (list_lookup_total_correct _ _ _ HA).
Qed.

End Neighbours.

(** *** The traversals of the beachline *)

Section Traversal.

Lemma logBeachLine_start_spec (d : VoronoiDiagram) (pre post : list nat) (a : nat)
    (fuel t : nat) :
  linked (arena d) None (pre ++ a :: post) None ->
  length pre <= fuel ->
  logBeachLine_start fuel d a t
  = Some (default a (head pre), t + length pre).
Proof.
  revert a post fuel t. induction pre as [|l pre IH] using rev_ind; intros a post fuel t HL Hf.
  - destruct (linked_at_total d [] _ _ HL) as [L _]. cbn in L.
    destruct fuel; cbn; rewrite L, Nat.add_0_r; reflexivity.
  - destruct (linked_at_total d _ _ _ HL) as [L _]. rewrite last_or_snoc in L.
    rewrite length_app in Hf. cbn in Hf.
    destruct fuel as [|fuel]; [lia |]. cbn [logBeachLine_start]. rewrite L.
    rewrite <- app_assoc in HL. cbn in HL.
    rewrite (IH l (a :: post) fuel (S t) HL) by lia.
    rewrite length_app. cbn. f_equal. f_equal; [| lia].
    destruct pre; reflexivity.
Qed.

Lemma logBeachLine_sites_spec (d : VoronoiDiagram) (pre post : list nat) (fuel : nat) :
  linked (arena d) None (pre ++ post) None ->
  length post <= fuel ->
  logBeachLine_sites fuel d (hd_or post None) = Some (map (arcSite d) post).
Proof.
  revert pre fuel. induction post as [|a post IH]; intros pre fuel HL Hf.
  - destruct fuel; reflexivity.
  - destruct (linked_at_total d _ _ _ HL) as [_ R].
    cbn in Hf. destruct fuel as [|fuel]; [lia |].
    cbn [hd_or logBeachLine_sites]. rewrite R.
    rewrite (cons_middle a pre post), app_assoc in HL.
    rewrite (IH (pre ++ [a]) fuel HL) by lia.
    reflexivity.
Qed.

Lemma default_last_cons {A} (a r : A) (post : list A) :
  default a (last (r :: post)) = default r (last post).
Proof.
  destruct post as [|p post]; [reflexivity |].
  change (last (r :: p :: post)) with (last (p :: post)).
  destruct (last (p :: post)) eqn:E; [reflexivity |]. apply last_None in E. done.
Qed.

Lemma reverseLogBeachLine_start_spec (d : VoronoiDiagram) (pre post : list nat) (a : nat)
    (fuel t : nat) :
  linked (arena d) None (pre ++ a :: post) None ->
  length post <= fuel ->
  reverseLogBeachLine_start fuel d a t
  = Some (default a (last post), t + length post).
Proof.
  revert pre a fuel t. induction post as [|r post IH]; intros pre a fuel t HL Hf.
  - destruct (linked_at_total d _ _ _ HL) as [_ R]. cbn in R.
    destruct fuel; cbn; rewrite R, Nat.add_0_r; reflexivity.
  - destruct (linked_at_total d _ _ _ HL) as [_ R]. cbn in R.
    cbn in Hf. destruct fuel as [|fuel]; [lia |]. cbn [reverseLogBeachLine_start]. rewrite R.
    rewrite (cons_middle a pre (r :: post)), app_assoc in HL.
    rewrite (IH (pre ++ [a]) r fuel (S t) HL) by lia.
    cbn [length]. f_equal. f_equal; [| lia].
    symmetry. apply default_last_cons.
Qed.

Lemma reverseLogBeachLine_sites_spec (d : VoronoiDiagram) (pre post : list nat) (fuel : nat) :
  linked (arena d) None (pre ++ post) None ->
  length pre <= fuel ->
  reverseLogBeachLine_sites fuel d (last_or pre None) = Some (rev (map (arcSite d) pre)).
Proof.
  revert post fuel. induction pre as [|a pre IH] using rev_ind; intros post fuel HL Hf.
  - destruct fuel; reflexivity.
  - rewrite <- app_assoc in HL. cbn in HL.
    destruct (linked_at_total d _ _ _ HL) as [L _].
    rewrite length_app in Hf. cbn in Hf. destruct fuel as [|fuel]; [lia |].
    rewrite last_or_snoc. cbn [reverseLogBeachLine_sites]. rewrite L.
    rewrite (IH (a :: post) fuel HL) by lia.
    rewrite map_app, rev_app_distr. reflexivity.
Qed.

End Traversal.



(** *** Infinities and NaN in the geometry primitives *)

Section SpecialValues.
Local Open Scope float_scope.

Lemma binary_round_aux_cases (s : bool) (m e : Z) (l : location) :
  let r := binary_round_aux prec emax s m e l in
  r = S754_nan \/ r = S754_zero s \/ r = S754_infinity s
  \/ exists m' e', r = S754_finite s m' e'.
Proof.
  unfold binary_round_aux.
  destruct (shr_fexp prec emax m e l) as [mrs' e'].
  destruct (shr_fexp prec emax _ e' loc_Exact) as [mrs'' e''].
  destruct (shr_m mrs''); [| destruct (Z.leb _ _) |]; eauto 8.
Qed.

Lemma eqb_zero_SF (u : float) : (u =? 0) = true -> exists s, Prim2SF u = S754_zero s.
Proof.
  rewrite FloatAxioms.eqb_spec. change (Prim2SF 0) with (S754_zero false).
  destruct (Prim2SF u) as [s|[]| |[] m e]; try discriminate; eauto.
Qed.

Lemma sub_of_equal (u v : float) :
  (u =? v) = true -> nan_or_zero (Prim2SF (u - v)).
Proof.
  intros H. apply Binary64.eqb_fcompare in H.
  destruct (Binary64.fcompare_sub_Eq u v H) as [Hz | Hn]; [right | left; exact Hn].
  apply eqb_zero_SF, Binary64.eqb_fcompare, Hz.
Qed.

Lemma not_finite_SF (u : float) :
  not_a_number_or_infinite (Prim2SF u) -> is_finite u = false.
Proof.
  intros H. destruct (is_finite u) eqn:E; [| reflexivity].
  apply Binary64.is_finite_SF in E.
  destruct H as [H | [s H]]; rewrite H in E; destruct E.
Qed.

(** The value of a parabola whose focus lies on the directrix: the
    translated directrix [D] is a zero (or [NaN]), and the quotient by
    [2 * D] is never a number. *)
Lemma degenerate_parabola_SF (D X Y : spec_float) :
  nan_or_zero D ->
  not_a_number_or_infinite
    (SFadd prec emax
       (SFdiv prec emax
          (SFsub prec emax (SFmul prec emax D D) (SFmul prec emax X X))
          (SFmul prec emax (Prim2SF 2) D)) Y).
Proof.
  change (Prim2SF 2) with (S754_finite false 4503599627370496 (-51)).
  intros [-> | [s ->]]; [left; reflexivity |].
  assert (HX : let p := SFmul prec emax X X in
               p = S754_nan \/ p = S754_zero false \/ p = S754_infinity false
               \/ exists m e, p = S754_finite false m e).
  { destruct X as [sx|sx| |sx mx ex]; cbn [SFmul]; rewrite ?xorb_nilpotent; eauto 8.
    apply binary_round_aux_cases. }
  cbn zeta in HX.
  destruct HX as [-> | [-> | [-> | (m & e & ->)]]];
    destruct s, Y as [sy|sy| |sy my ey]; try destruct sy;
    cbn; unfold not_a_number_or_infinite; eauto.
Qed.

Lemma parabolaPointY_on_directrix (focus : Coordinate) (directrix xPos : float) :
  (directrix =? y focus) = true ->
  not_a_number_or_infinite (Prim2SF (parabolaPointY focus directrix xPos)).
Proof.
  intros H. unfold parabolaPointY.
  rewrite add_spec, div_spec, sub_spec, !mul_spec.
  apply degenerate_parabola_SF, sub_of_equal, H.
Qed.

Lemma never_closest (r c : float) :
  not_a_number_or_infinite (Prim2SF r) ->
  negb (r =? Infinity) && gtb r c = false.
Proof.
  unfold gtb. rewrite FloatAxioms.eqb_spec, FloatAxioms.ltb_spec.
  change (Prim2SF Infinity) with (S754_infinity false).
  intros [-> | [[] ->]]; destruct (Prim2SF c) as [[]|[]| |[] ? ?]; reflexivity.
Qed.

End SpecialValues.

Section SegmentFacts.
Local Open Scope float_scope.

Lemma float_eqb_sym (u v : float) : (u =? v) = (v =? u).
Proof.
  apply Bool.eq_iff_eq_true. rewrite !Binary64.eqb_fcompare, (Binary64.fcompare_antisym u v).
  destruct (fcompare u v) as [[]|]; simpl; split; congruence.
Qed.

Lemma sub_of_distinct (u v : float) : (u =? v) = false -> (u - v =? 0) = false.
Proof.
  intros H. destruct (u - v =? 0) eqn:E; [| reflexivity].
  apply Binary64.eqb_fcompare in E.
  pose proof (Binary64.fcompare_sub u v) as Hs.
  destruct (fcompare u v) as [[]|] eqn:Ec; try congruence.
  apply Binary64.eqb_fcompare in Ec. congruence.
Qed.

Lemma segment_division_SF (N DY DX Y : spec_float) :
  nan_or_zero DY -> SFeqb DX (S754_zero false) = false ->
  not_a_number_or_infinite
    (SFadd prec emax (SFdiv prec emax N (SFdiv prec emax DY DX)) Y).
Proof.
  intros [-> | [[] ->]] HDX;
    destruct DX as [[]|[]| |[] mx ex]; try discriminate HDX;
    destruct N as [[]|[]| |[] mn en], Y as [[]|[]| |[] my ey];
    cbn; unfold not_a_number_or_infinite; eauto.
Qed.

End SegmentFacts.

Section SegmentTheorems.
Local Open Scope float_scope.

(** X22: for a vertical segment ([a.x == b.x], finite) [segmentY] and
    [segmentX] take [Number.EPSILON] as the gradient. *)
Theorem segment_vertical_EPSILON (a b : Coordinate) (v : float) :
  is_finite (x a) = true -> (x a =? x b) = true ->
  segmentY a b v = (v - x a) * Number_EPSILON + y a
  /\ segmentX a b v = (v - y a) / Number_EPSILON + x a.
Proof.
  intros Hfin Heq. destruct (Binary64.sub_eqb_zero _ _ Hfin Heq) as [_ Hz].
  unfold segmentY, segmentX. rewrite Hz. split; reflexivity.
Qed.

Lemma segment_vertical_EPSILON_witness :
  segmentY (mkCoordinate 1 0) (mkCoordinate 1 5) 3 = (3 - 1) * Number_EPSILON + 0
  /\ segmentX (mkCoordinate 1 0) (mkCoordinate 1 5) 3 = (3 - 0) / Number_EPSILON + 1.
Proof.
  apply (segment_vertical_EPSILON (mkCoordinate 1 0) (mkCoordinate 1 5) 3); reflexivity.
Defined.

(** X23: for a horizontal segment ([a.y == b.y], [a.x != b.x]) the
    gradient is zero (or [NaN]) and [segmentX] divides by it: the result is
    never a finite number. *)
Theorem segmentX_horizontal_not_finite (a b : Coordinate) (yVal : float) :
  (y a =? y b) = true -> (x a =? x b) = false ->
  is_finite (segmentX a b yVal) = false.
Proof.
  intros Hy Hx. rewrite float_eqb_sym in Hy, Hx.
  pose proof (sub_of_distinct _ _ Hx) as Hd.
  unfold segmentX. rewrite Hd.
  apply not_finite_SF. rewrite add_spec, !div_spec.
  apply segment_division_SF; [apply sub_of_equal, Hy |].
  rewrite FloatAxioms.eqb_spec in Hd. exact Hd.
Qed.

Lemma segmentX_horizontal_not_finite_witness :
  is_finite (segmentX (mkCoordinate 0 2) (mkCoordinate 4 2) 3) = false.
Proof.
  apply (segmentX_horizontal_not_finite (mkCoordinate 0 2) (mkCoordinate 4 2) 3); reflexivity.
Defined.

End SegmentTheorems.

Section SweepLineSites.
Local Open Scope float_scope.

Lemma closestParabola_none (d : VoronoiDiagram) (site' : Site) :
  Forall (fun s => (lineSweepPosition d =? y (site s)) = true) (activeSites d) ->
  snd (closestParabola d site') = None.
Proof.
  unfold closestParabola.
  match goal with |- context [foldl ?f _ _] => set (step := f) end.
  intros H. generalize 0%nat. generalize neg_infinity.
  induction H as [| s l Hs _ IH]; intros; [reflexivity |].
  cbn [foldl]. subst step. cbn beta iota zeta.
  rewrite never_closest by (apply parabolaPointY_on_directrix, Hs).
  apply IH.
Qed.

(** X25: [insertSite] throws when every active site lies on the sweep
    line (no closest parabola is found). *)
Theorem insertSite_all_on_sweep_line (d : VoronoiDiagram) (site' : Site) :
  Forall (fun s => (lineSweepPosition d =? y (site s)) = true) (activeSites d) ->
  insertSite d site' = None.
Proof.
  intros H. unfold insertSite. rewrite (closestParabola_none d site' H). reflexivity.
Qed.

Lemma insertSite_all_on_sweep_line_witness :
  insertSite (with_lineSweepPosition 3 seed_start) (mkSite 4 (mkCoordinate 5 3)) = None.
Proof.
  apply (insertSite_all_on_sweep_line (with_lineSweepPosition 3 seed_start)).
  vm_compute. repeat constructor.
Defined.

End SweepLineSites.

Section HorizontalTriple.
Local Open Scope float_scope.

Lemma float_eqb_trans (u v w : float) : (u =? v) = true -> (v =? w) = true -> (u =? w) = true.
Proof.
  rewrite !Binary64.eqb_fcompare. intros H1 H2.
  rewrite (fcompare_Eq_l u v w H1). exact H2.
Qed.

Lemma times_infinity_SF (X Y : spec_float) :
  not_a_number_or_infinite
    (SFadd prec emax (SFmul prec emax X (S754_infinity false)) Y).
Proof.
  destruct X as [[]|[]| |[] mx ex], Y as [[]|[]| |[] my ey];
    cbn; unfold not_a_number_or_infinite; eauto.
Qed.

Lemma circle_sorted_horizontal (p q r : Coordinate) :
  (y q - y p =? 0) = true -> (y r - y q =? 0) = true ->
  is_finite (y (centre (circle_sorted p q r))) = false.
Proof.
  intros H1 H2. unfold circle_sorted. rewrite H1, H2.
  change (Infinity =? Infinity) with true. cbn beta iota zeta.
  cbn [centre y]. apply not_finite_SF.
  rewrite add_spec, mul_spec.
  change (Prim2SF Infinity) with (S754_infinity false).
  apply times_infinity_SF.
Qed.

Lemma sub_eqb_zero_of (u v w : float) :
  is_finite u = true -> (u =? v) = true -> (u =? w) = true -> (w - v =? 0) = true.
Proof.
  intros Hu Hv Hw.
  assert (Hwv : (w =? v) = true) by (eapply float_eqb_trans; [rewrite float_eqb_sym|]; eauto).
  apply Binary64.is_finite_SF in Hu.
  apply Binary64.eqb_fcompare in Hw, Hwv. apply Binary64.eqb_fcompare.
  unfold fcompare in *. rewrite FloatAxioms.sub_spec.
  change (Prim2SF 0) with zero_sf.
  pose proof (Binary64.SFsub_compare _ _ (Prim2SF_valid w) (Prim2SF_valid v)) as H.
  rewrite Hwv in H.
  destruct (Prim2SF u) as [su|su| |[] mu eu], (Prim2SF w) as [sw|[]| |sw mw ew];
    try contradiction; try discriminate; auto.
Qed.

(** X26: for three points with the same finite y, the y of the centre
    that [circle] returns is not a finite number. *)
Theorem circle_horizontal_not_finite (a b c : Coordinate) :
  is_finite (y a) = true -> (y a =? y b) = true -> (y a =? y c) = true ->
  is_finite (y (centre (circle a b c))) = false.
Proof.
  intros Hfin Hb Hc.
  set (Q := fun p : Coordinate => (y a =? y p) = true).
  assert (HQ : Forall Q (Array_sort circle_compare [a; b; c])).
  { apply Array_sort_Forall. repeat constructor; unfold Q; auto.
    apply Binary64.eqb_fcompare, Binary64.SFcompare_refl.
    apply Binary64.is_finite_SF in Hfin. destruct (Prim2SF (y a)); done. }
  pose proof (Permutation_length (Array_sort_perm circle_compare [a; b; c])) as Hlen.
  unfold circle.
  destruct (Array_sort circle_compare [a; b; c]) as [|p [|q [|r [|]]]]; try discriminate Hlen.
  inversion HQ as [|? ? Hp HQ']; subst. inversion HQ' as [|? ? Hq HQ'']; subst.
  inversion HQ'' as [|? ? Hr _]; subst.
  apply circle_sorted_horizontal; eapply sub_eqb_zero_of; eauto.
Qed.

Lemma circle_horizontal_not_finite_witness :
  is_finite (y (centre (circle (mkCoordinate 0 1) (mkCoordinate 3 1) (mkCoordinate 5 1)))) = false.
Proof.
  apply (circle_horizontal_not_finite (mkCoordinate 0 1) (mkCoordinate 3 1) (mkCoordinate 5 1));
    reflexivity.
Defined.

End HorizontalTriple.

Section DegenerateParabola.
Local Open Scope float_scope.

(** X24: for a focus on the directrix [parabolaPointY] is never a finite
    number, and the test of [insertSite],
    [yDist != Infinity && yDist > closestParabolaYDistance], rejects it
    whatever the distance found so far. *)
Theorem parabolaPointY_on_directrix_not_finite (focus : Coordinate) (directrix xPos : float) :
  (directrix =? y focus) = true ->
  is_finite (parabolaPointY focus directrix xPos) = false
  /\ forall closest, negb (parabolaPointY focus directrix xPos =? Infinity)
                     && gtb (parabolaPointY focus directrix xPos) closest = false.
Proof.
  intros H. pose proof (parabolaPointY_on_directrix focus directrix xPos H) as Hn.
  split; [apply not_finite_SF, Hn |]. intros closest. apply never_closest, Hn.
Qed.

Lemma parabolaPointY_on_directrix_not_finite_witness :
  is_finite (parabolaPointY (mkCoordinate 0 5) 5 3) = false
  /\ forall closest, negb (parabolaPointY (mkCoordinate 0 5) 5 3 =? Infinity)
                     && gtb (parabolaPointY (mkCoordinate 0 5) 5 3) closest = false.
Proof. apply (parabolaPointY_on_directrix_not_finite (mkCoordinate 0 5) 5 3). reflexivity. Defined.

End DegenerateParabola.


(** *** Edges between neighbouring arcs *)

Section Adjacency.

Lemma adjacent_nil (l r : nat) : ~ adjacent l r [].
Proof. intros (pre & post & H). by destruct pre. Qed.

Lemma adjacent_cons (l r a : nat) (q : list nat) :
  adjacent l r (a :: q) <-> (a = l /\ head q = Some r) \/ adjacent l r q.
Proof.
  split.
  - intros (pre & post & H). destruct pre as [|x pre]; cbn in H.
    + injection H as -> ->. by left.
    + injection H as -> ->. right. by exists pre, post.
  - intros [[-> H] | (pre & post & ->)].
    + destruct q as [|b q]; [done |]. injection H as ->. by exists [], q.
    + by exists (a :: pre), post.
Qed.

Lemma adjacent_app (l r : nat) (p q : list nat) :
  adjacent l r (p ++ q)
  <-> adjacent l r p \/ (last p = Some l /\ head q = Some r) \/ adjacent l r q.
Proof.
  induction p as [|a p IH]; cbn [app].
  - split; [auto |]. intros [H | [[H _] | H]]; [by apply adjacent_nil in H | done | done].
  - rewrite !adjacent_cons, IH. pose proof (adjacent_nil l r) as Hnil.
    destruct p as [|b p]; cbn [last head app]; naive_solver.
Qed.

Lemma adjacent_middle (l r : nat) (pre post : list nat) :
  adjacent l r (pre ++ l :: r :: post).
Proof. by exists pre, post. Qed.

End Adjacency.

Section EdgesInvariant.

Lemma site_alter_total (f : list nat -> list nat) (i j : nat) (l : list ActiveSite) :
  site (alter (set_arcs f) i l !!! j) = site (l !!! j).
Proof.
  rewrite list_lookup_total_alter. case_decide as H; [destruct H as [-> _] |]; reflexivity.
Qed.

Lemma getEdge_test_faces (a b : Site) (e e' : Edge) :
  faces e = faces e' -> getEdge_test a b e = getEdge_test a b e'.
Proof. unfold faces, getEdge_test. intros [= -> ->]. reflexivity. Qed.

Lemma edge_between_transfer (d d' : VoronoiDiagram) (l r l' r' : nat) :
  arcSite d' l' = arcSite d l -> arcSite d' r' = arcSite d r ->
  (forall f, f ∈ map faces (edges d) -> f ∈ map faces (edges d')) ->
  edge_between d l r -> edge_between d' l' r'.
Proof.
  intros Hl Hr Hf (e & He & Ht).
  assert (Hfe : faces e ∈ map faces (edges d')).
  { apply Hf, list_elem_of_fmap. eauto. }
  apply list_elem_of_fmap in Hfe as (e' & Hfe & He').
  exists e'. split; [exact He' |]. rewrite Hl, Hr, <- (getEdge_test_faces _ _ _ _ Hfe). exact Ht.
Qed.

Lemma edge_between_sym (d : VoronoiDiagram) (l r : nat) :
  edge_between d l r -> edge_between d r l.
Proof. intros (e & He & Ht). exists e. by rewrite getEdge_test_sym. Qed.

Lemma adjacent_elem (l r : nat) (bl : list nat) : adjacent l r bl -> l ∈ bl /\ r ∈ bl.
Proof. intros (pre & post & ->). set_solver. Qed.

Lemma edge_between_new (d : VoronoiDiagram) (l r : nat) :
  (arcSite d l, arcSite d r) ∈ map faces (edges d) -> edge_between d l r.
Proof.
  intros H. apply list_elem_of_fmap in H as (e & Hf & He).
  exists e. split; [exact He |]. unfold faces in Hf. injection Hf as Hl Hr.
  unfold getEdge_test, same_site. rewrite <- Hl, <- Hr, !Nat.eqb_refl. reflexivity.
Qed.

Lemma updateEdge_is_Some (d : VoronoiDiagram) (a b : Site) (v : Coordinate) :
  (exists e, e ∈ edges d /\ getEdge_test a b e = true) -> is_Some (updateEdge d a b v).
Proof.
  intros (e & He & Ht). unfold updateEdge, getEdge.
  destruct (list_find _ (edges d)) as [[i e']|] eqn:E; [cbn; eauto |].
  apply list_find_None in E. apply (proj1 (Forall_forall _ _) E) in He. done.
Qed.

Lemma processVertexEvent_edges_inv (d : VoronoiDiagram) (pre post : list nat)
    (event : VertexEvent) :
  let bl := pre ++ arcs0 event :: arcs1 event :: arcs2 event :: post in
  let bl' := pre ++ arcs0 event :: arcs2 event :: post in
  beachline_inv d bl -> edges_inv d bl ->
  exists d', processVertexEvent d event = Some d'
             /\ beachline_inv d' bl' /\ edges_inv d' bl'.
Proof.
  intros bl bl' Hinv HE. subst bl bl'. unfold processVertexEvent.
  set (dm := with_edges _ (removeArcTriples _ _)).
  assert (Hdm : beachline_inv dm (pre ++ arcs0 event :: arcs2 event :: post)).
  { unfold beachline_inv. subst dm.
    apply (beachline_vertex_event _ _ _ _ _ _ _ _ _ Hinv).
    intros e He. cbn [with_edges queue] in He.
    apply removeArcTriples_events in He. exact He. }
  assert (HS : forall a, arcSite dm a = arcSite d a).
  { intros a. subst dm.
    unfold arcSite, arcAt, with_edges, removeArcTriples, with_queue, with_arena,
      with_activeSites. cbn [activeSites arena].
    rewrite owner_alter2 by done. apply site_alter_total. }
  assert (HEm : exists new, edges dm = edges d ++ [new]
                            /\ faces new = (arcSite d (arcs0 event), arcSite d (arcs2 event))).
  { subst dm. eexists. split; [reflexivity |].
    unfold faces, addVertexToEdge.
    case_match; cbn [leftFace rightFace set_firstVertex set_lastVertex];
      f_equal; exact (HS _). }
  destruct HEm as (new & HEm & Hnew).
  assert (Hold : forall f, f ∈ map faces (edges d) -> f ∈ map faces (edges dm)).
  { intros f Hf. rewrite HEm, map_app. apply elem_of_app. by left. }
  assert (HLM : edge_between dm (arcs0 event) (arcs1 event)).
  { apply (edge_between_transfer d _ (arcs0 event) (arcs1 event)); auto.
    apply HE, adjacent_middle. }
  assert (HMR : edge_between dm (arcs1 event) (arcs2 event)).
  { apply (edge_between_transfer d _ (arcs1 event) (arcs2 event)); auto. apply HE.
    exists (pre ++ [arcs0 event]), post. by rewrite <- app_assoc. }
  clearbody dm.
  destruct (updateEdge_is_Some dm _ _ (vertexPoint event) HLM) as [d1 E1].
  rewrite E1. cbn [mbind option_bind].
  pose proof (updateEdge_faces _ _ _ _ _ E1) as F1.
  pose proof (updateEdge_frame _ _ _ _ _ E1) as (A1 & B1 & C1).
  assert (HS1 : forall a, arcSite d1 a = arcSite dm a).
  { intros a. unfold arcSite, arcAt. by rewrite A1, B1. }
  assert (HMR1 : edge_between d1 (arcs1 event) (arcs2 event)).
  { apply (edge_between_transfer dm _ (arcs1 event) (arcs2 event)); auto.
    intros f. by rewrite F1. }
  destruct (updateEdge_is_Some d1 _ _ (vertexPoint event) HMR1) as [d2 E2].
  rewrite E2. exists d2. split; [reflexivity |].
  pose proof (updateEdge_faces _ _ _ _ _ E2) as F2.
  pose proof (updateEdge_frame _ _ _ _ _ E2) as (A2 & B2 & C2).
  assert (HS2 : forall a, arcSite d2 a = arcSite d a).
  { intros a. rewrite <- HS, <- HS1. unfold arcSite, arcAt. by rewrite A2, B2. }
  split.
  - unfold beachline_inv in *. by rewrite A2, B2, C2, A1, B1, C1.
  - intros l r Hadj.
    assert (Hcase : (l = arcs0 event /\ r = arcs2 event)
                    \/ adjacent l r (pre ++ arcs0 event :: arcs1 event :: arcs2 event :: post)).
    { apply adjacent_app in Hadj as [H | [[H1 H2] | H]].
      - right. apply adjacent_app. by left.
      - right. apply adjacent_app. right. left. cbn in *. done.
      - apply adjacent_cons in H as [[-> H] | H].
        + left. cbn in H. by injection H as ->.
        + right. apply adjacent_app. right. right.
          apply adjacent_cons. right. apply adjacent_cons. by right. }
    destruct Hcase as [[-> ->] | Hold'].
    + apply edge_between_new. rewrite !HS2, F2, F1, HEm, map_app, <- Hnew.
      apply elem_of_app. right. cbn. apply list_elem_of_here.
    + apply (edge_between_transfer d _ l r); auto.
      intros f Hf. rewrite F2, F1. auto.
Qed.

Lemma split_arena_owner (h : list ParabolaArc) (newSite A a : nat) :
  a < length h + 3 ->
  activeSite (split_arena h newSite A !!! a)
  = activeSite (((h ++ [mkParabolaArc newSite (Some (S (length h))) (Some (S (S (length h))))])
                 ++ [mkParabolaArc (activeSite (h !!! A)) (leftArc (h !!! A)) (Some (length h));
                     mkParabolaArc (activeSite (h !!! A)) (Some (length h)) (rightArc (h !!! A))])
                !!! a).
Proof.
  intros Ha. pose proof (split_arena_lookup h newSite A a) as H. cbn zeta in H.
  match type of H with _ = _ <$> (_ <$> ?l !! a) => set (h2 := l) in * end.
  assert (Hlt : a < length h2).
  { subst h2. rewrite !length_app. cbn. lia. }
  destruct (lookup_lt_is_Some_2 _ _ Hlt) as [X HX].
  rewrite HX in H. cbn in H.
  rewrite (list_lookup_total_correct _ _ _ H), (list_lookup_total_correct _ _ _ HX).
  by rewrite !relink_owner.
Qed.

Lemma updateBeachLine_edges (d d' : VoronoiDiagram) (newArc intersectedArc : nat) :
  updateBeachLine d newArc intersectedArc = Some d' ->
  exists Y, edges d' = edges d ++ [mkEdge (arcSite Y newArc) (arcSite Y intersectedArc) None None]
            /\ activeSites Y = activeSites d' /\ arena Y = arena d'.
Proof.
  unfold updateBeachLine. intros H.
  apply updateVertexEventsForNewSite_frame in H as (HS & HA & HE & _).
  rewrite HS, HA, HE. unfold removeArcTriples, with_queue. cbn [activeSites arena edges].
  match goal with |- context [arcSite ?Y newArc] => exists Y end.
  unfold with_edges at 1 2 3. cbn [activeSites arena edges].
  split_and!; [| reflexivity..]. f_equal.
  destruct (leftArc (arcAt d intersectedArc)), (rightArc (arcAt d intersectedArc));
    reflexivity.
Qed.

Lemma updateBeachLine_split (d : VoronoiDiagram) (pre post : list nat) (A : nat)
    (site' : Site) :
  beachline_inv d (pre ++ A :: post) ->
  exists dm,
    updateBeachLine
      (with_activeSites (fun l => l ++ [mkActiveSite site' [length (arena d)]])
         (with_arena (fun h => h ++ [mkParabolaArc (length (activeSites d)) None None]) d))
      (length (arena d)) A
    = updateVertexEventsForNewSite dm (length (arena d))
    /\ beachline_inv dm (pre ++ S (length (arena d)) :: length (arena d)
                               :: S (S (length (arena d))) :: post)
    /\ arena dm = split_arena (arena d) (length (activeSites d)) A
    /\ activeSites dm
       = alter (set_arcs (fun arcs' =>
                  filter (fun element => element <> A) arcs'
                  ++ [S (length (arena d)); S (S (length (arena d)))]))
               (activeSite (arena d !!! A))
               (activeSites d ++ [mkActiveSite site' [length (arena d)]]).
Proof.
  intros Hinv.
  assert (HAlt : A < length (arena d)).
  { destruct (linked_lookup _ _ _ _ A (bl_linked _ _ _ _ Hinv)) as [X HX]; [set_solver |].
    by apply lookup_lt_Some in HX. }
  set (N := length (arena d)) in *.
  set (d2 := with_activeSites _ (with_arena _ d)).
  unfold updateBeachLine.
  set (dm := removeArcTriples _ _). exists dm. split; [reflexivity |].
  assert (EX : arcAt d2 A = arena d !!! A).
  { subst d2. unfold arcAt, with_activeSites, with_arena. cbn [arena].
    by rewrite lookup_total_app_l. }
  assert (EN : length (arena d2) = S N).
  { subst d2. unfold with_activeSites, with_arena. cbn [arena].
    rewrite length_app. cbn. lia. }
  assert (EA : arena dm = split_arena (arena d) (length (activeSites d)) A).
  { subst dm. unfold removeArcTriples, with_queue, with_edges. cbn [arena].
    rewrite EX, EN. unfold split_arena.
    assert (E0 : arena (with_arena (fun h =>
                   alter (fun a => mkParabolaArc (activeSite a) (Some (S N)) (Some (S (S N))))
                         N h
                   ++ [mkParabolaArc (activeSite (arena d !!! A)) (leftArc (arena d !!! A))
                                     (Some N);
                       mkParabolaArc (activeSite (arena d !!! A)) (Some N)
                                     (rightArc (arena d !!! A))]) d2)
                 = (arena d ++ [mkParabolaArc (length (activeSites d)) (Some (S N))
                                              (Some (S (S N)))])
                   ++ [mkParabolaArc (activeSite (arena d !!! A)) (leftArc (arena d !!! A))
                                     (Some N);
                       mkParabolaArc (activeSite (arena d !!! A)) (Some N)
                                     (rightArc (arena d !!! A))]).
    { subst d2. unfold with_arena, with_activeSites. cbn [arena].
      rewrite alter_app_r_alt by (fold N; lia). fold N. by rewrite Nat.sub_diag. }
    destruct (leftArc (arena d !!! A)) as [l|], (rightArc (arena d !!! A)) as [r|];
      unfold with_arena, with_activeSites in *; cbn [arena] in *; by rewrite E0. }
  assert (ES : activeSites dm
               = alter (set_arcs (fun arcs' =>
                          filter (fun element => element <> A) arcs' ++ [S N; S (S N)]))
                       (activeSite (arena d !!! A))
                       (activeSites d ++ [mkActiveSite site' [N]])).
  { subst dm. unfold removeArcTriples, with_queue, with_edges. cbn [activeSites].
    rewrite EX, EN.
    destruct (leftArc (arena d !!! A)) as [l|], (rightArc (arena d !!! A)) as [r|];
      subst d2; unfold with_arena, with_activeSites; cbn [activeSites]; reflexivity. }
  split_and!; [| exact EA | exact ES].
  unfold beachline_inv. rewrite EA, ES.
  apply (beachline_site_event _ _ _ _ _ _ _ _ Hinv).
  intros e He. subst dm. apply removeArcTriples_events in He as [He Href].
  split; [|done].
  destruct (leftArc (arcAt d2 A)) as [l|], (rightArc (arcAt d2 A)) as [r|];
    exact He.
Qed.

Lemma insertSite_edges_inv (d d' : VoronoiDiagram) (bl : list nat) (site' : Site) :
  beachline_inv d bl -> edges_inv d bl ->
  insertSite d site' = Some d' ->
  exists bl', beachline_inv d' bl' /\ edges_inv d' bl'.
Proof.
  intros Hinv HE. unfold insertSite.
  destruct (snd (closestParabola d site')) as [i0|] eqn:Ei; [|done].
  cbn [mbind option_bind].
  destruct (containingArc d site' _) as [[A|]|] eqn:Ef; [|done..].
  cbn [mbind option_bind].
  apply closestParabola_lt in Ei. apply containingArc_elem in Ef.
  assert (HA : A ∈ bl).
  { pose proof (list_lookup_lookup_total_lt _ _ Ei) as Hs.
    by apply (bl_arcs _ _ _ _ Hinv _ _ A Hs) in Ef as [? _]. }
  assert (Hlt : forall a, a ∈ bl -> a < length (arena d)).
  { intros a Ha.
    destruct (linked_lookup _ _ _ _ _ (bl_linked _ _ _ _ Hinv) Ha) as [X HX].
    by apply lookup_lt_Some in HX. }
  pose proof (Hlt _ HA) as HAlt.
  pose proof (bl_owner _ _ _ _ Hinv) as Hown.
  apply list_elem_of_split in HA as (pre & post & ->).
  destruct (updateBeachLine_split d pre post A site' Hinv) as (dm & Esplit & Hdm & EA & ES).
  set (N := length (arena d)) in *.
  set (d2 := with_activeSites _ (with_arena _ d)) in *.
  destruct (updateBeachLine d2 N A) as [d3|] eqn:Eu; [|done].
  cbn [mbind option_bind]. intros [= <-].
  exists (pre ++ S N :: N :: S (S N) :: post).
  pose proof (updateBeachLine_edges _ _ _ _ Eu) as (Y & HEY & HYS & HYA).
  assert (HSY : forall a, arcSite Y a = arcSite d3 a).
  { intros a. unfold arcSite, arcAt. by rewrite HYS, HYA. }
  rewrite !HSY in HEY. clear Y HYS HYA HSY.
  change (edges d2) with (edges d) in HEY.
  symmetry in Esplit. clearbody d2.
  (* the sites of the arcs after the split *)
  assert (Hsite : forall a, a < N + 3 ->
            arcSite dm a
            = site ((activeSites d ++ [mkActiveSite site' [N]])
                    !!! activeSite
                          (((arena d ++ [mkParabolaArc (length (activeSites d)) (Some (S N))
                                                       (Some (S (S N)))])
                            ++ [mkParabolaArc (activeSite (arena d !!! A))
                                              (leftArc (arena d !!! A)) (Some N);
                                mkParabolaArc (activeSite (arena d !!! A)) (Some N)
                                              (rightArc (arena d !!! A))]) !!! a))).
  { intros a Ha. unfold arcSite, arcAt. rewrite EA, ES, site_alter_total.
    by rewrite split_arena_owner. }
  assert (Hsite_old : forall a, a ∈ pre ++ A :: post -> arcSite dm a = arcSite d a).
  { intros a Ha. pose proof (Hlt _ Ha) as Hl. rewrite Hsite by lia.
    rewrite <- app_assoc. rewrite (lookup_total_app_l (arena d)) by exact Hl.
    rewrite (lookup_total_app_l (activeSites d)) by (apply Hown, Ha). reflexivity. }
  assert (Hsite_N : arcSite dm N = site').
  { rewrite Hsite by lia.
    rewrite (lookup_total_app_l (arena d ++ _)) by (rewrite length_app; cbn; fold N; lia).
    rewrite (list_lookup_total_middle (arena d) []) by done. cbn [activeSite].
    by rewrite (list_lookup_total_middle (activeSites d) []). }
  assert (Hsite_L : arcSite dm (S N) = arcSite d A).
  { rewrite Hsite by lia.
    rewrite (lookup_total_app_r (arena d ++ _)) by (rewrite length_app; cbn; fold N; lia).
    rewrite length_app. cbn [length]. fold N.
    replace (S N - (N + 1)) with 0 by lia. cbn [lookup_total list_lookup_total activeSite].
    rewrite (lookup_total_app_l (activeSites d)) by (apply Hown; set_solver). reflexivity. }
  assert (Hsite_R : arcSite dm (S (S N)) = arcSite d A).
  { rewrite Hsite by lia.
    rewrite (lookup_total_app_r (arena d ++ _)) by (rewrite length_app; cbn; fold N; lia).
    rewrite length_app. cbn [length]. fold N.
    replace (S (S N) - (N + 1)) with 1 by lia. cbn [lookup_total list_lookup_total activeSite].
    rewrite (lookup_total_app_l (activeSites d)) by (apply Hown; set_solver). reflexivity. }
  (* the state after the new vertex events and the sort *)
  pose proof (updateVertexEventsForNewSite_frame _ _ _ Esplit) as (F1 & F2 & _).
  assert (HS3 : forall a, arcSite d3 a = arcSite dm a).
  { intros a. unfold arcSite, arcAt. by rewrite F1, F2. }
  rewrite !HS3, Hsite_N, (Hsite_old A) in HEY by set_solver.
  apply (updateVertexEventsForNewSite_inv _ _ _ _ Hdm) in Esplit; [|set_solver].
  rename Esplit into Eu'.
  assert (HS' : forall a, arcSite (with_activeSites
                    (alter (set_arcs (Array_sort (arcs_compare d3))) i0) d3) a
                  = arcSite dm a).
  { intros a. unfold arcSite, arcAt, with_activeSites. cbn [activeSites arena].
    by rewrite site_alter_total, F1, F2. }
  split.
  { unfold beachline_inv, with_activeSites. cbn [activeSites arena queue].
    by apply beachline_sort_arcs. }
  assert (Hfaces : forall f, f ∈ map faces (edges d) ->
            f ∈ map faces (edges (with_activeSites
                   (alter (set_arcs (Array_sort (arcs_compare d3))) i0) d3))).
  { intros f Hf. unfold with_activeSites. cbn [edges].
    rewrite HEY, map_app. apply elem_of_app. by left. }
  assert (Hnew : (site', arcSite d A)
                 ∈ map faces (edges (with_activeSites
                      (alter (set_arcs (Array_sort (arcs_compare d3))) i0) d3))).
  { unfold with_activeSites. cbn [edges].
    rewrite HEY, map_app. apply elem_of_app. right. cbn. apply list_elem_of_here. }
  set (d' := with_activeSites _ d3) in *. clearbody d'.
  assert (Hold : forall l r l' r',
            adjacent l r (pre ++ A :: post) ->
            arcSite dm l' = arcSite d l -> arcSite dm r' = arcSite d r ->
            edge_between d' l' r').
  { intros l r l' r' Hadj Hl Hr.
    apply (edge_between_transfer d _ l r); rewrite ?HS'; auto. }
  intros l r Hadj.
  apply adjacent_app in Hadj as [H | [[H1 H2] | H]].
  - apply (Hold l r).
    + apply adjacent_app. by left.
    + apply Hsite_old. apply adjacent_elem in H. set_solver.
    + apply Hsite_old. apply adjacent_elem in H. set_solver.
  - cbn in H2. injection H2 as <-. apply (Hold l A).
    + apply adjacent_app. right. left. done.
    + apply Hsite_old. apply last_Some in H1 as [? ->]. set_solver.
    + exact Hsite_L.
  - apply adjacent_cons in H as [[<- H] | H].
    { cbn in H. injection H as <-. apply edge_between_sym, edge_between_new.
      by rewrite !HS', Hsite_N, Hsite_L. }
    apply adjacent_cons in H as [[<- H] | H].
    { cbn in H. injection H as <-. apply edge_between_new.
      by rewrite !HS', Hsite_N, Hsite_R. }
    apply adjacent_cons in H as [[<- H] | H].
    { apply (Hold A r).
      - apply adjacent_app. right. right. apply adjacent_cons. by left.
      - exact Hsite_R.
      - apply Hsite_old. destruct post; [done |]. cbn in H. injection H as ->. set_solver. }
    apply (Hold l r).
    + apply adjacent_app. right. right. apply adjacent_cons. by right.
    + apply Hsite_old. apply adjacent_elem in H. set_solver.
    + apply Hsite_old. apply adjacent_elem in H. set_solver.
Qed.

End EdgesInvariant.

Section EdgesStep.

Lemma computeStep_edges_inv (d d' : VoronoiDiagram) (bl : list nat) :
  beachline_inv d bl -> edges_inv d bl -> computeStep d = Some d' ->
  exists bl', beachline_inv d' bl' /\ edges_inv d' bl'.
Proof.
  intros Hinv HE. unfold computeStep.
  destruct (pop (queue d)) as [nextEvent q] eqn:Ep.
  apply pop_vertexEvents in Ep as [Hev Hq].
  assert (Hinv' : forall sweep,
            beachline_inv (with_lineSweepPosition sweep (with_queue (fun _ => q) d)) bl).
  { intros sweep. unfold beachline_inv. cbn [with_lineSweepPosition with_queue
      activeSites arena queue].
    apply (beachline_events _ _ _ _ _ Hinv). auto. }
  assert (HE' : forall sweep,
            edges_inv (with_lineSweepPosition sweep (with_queue (fun _ => q) d)) bl).
  { intros sweep. exact HE. }
  destruct (isSiteEvent nextEvent).
  - destruct (siteEvent nextEvent) as [event|]; [|done]. cbn [mbind option_bind].
    eapply insertSite_edges_inv; [apply Hinv' | apply HE'].
  - destruct (vertexEvent nextEvent) as [event|]; [|done]. cbn [mbind option_bind].
    destruct (bl_events _ _ _ _ Hinv event (Hev _ eq_refl)) as (pre & post & ->).
    destruct (processVertexEvent_edges_inv _ pre post event
                (Hinv' (y (eventPoint event))) (HE' (y (eventPoint event))))
      as (d'' & -> & Hb & He).
    intros [= <-]. eauto.
Qed.

End EdgesStep.

(** *** Where a step can throw *)

Section SearchOnly.

Lemma getVertexEvent_is_Some (d : VoronoiDiagram) (k arc : nat) :
  is_Some (leftArc (arcAt d arc)) -> is_Some (rightArc (arcAt d arc)) ->
  is_Some (getVertexEvent d k arc).
Proof.
  intros [l Hl] [r Hr]. unfold getVertexEvent. rewrite Hl, Hr. cbn [mbind option_bind].
  repeat case_match; eauto.
Qed.

Lemma updateVertexEventsForNewSite_is_Some (d : VoronoiDiagram) (bl : list nat) (arc : nat) :
  beachline_inv d bl -> arc ∈ bl ->
  is_Some (leftArc (arcAt d arc)) -> is_Some (rightArc (arcAt d arc)) ->
  is_Some (updateVertexEventsForNewSite d arc).
Proof.
  intros Hinv Harc [l Hl] [r Hr].
  pose proof (beachline_link_symmetric _ _ Hinv) as Hsym.
  pose proof (proj2 (beachline_on _ _ arc Hinv) Harc) as Hon.
  destruct (Hsym _ Hon) as [HR HL].
  destruct (HL _ Hl) as [Honl Hlr]. destruct (HR _ Hr) as [Honr Hrl].
  unfold updateVertexEventsForNewSite. rewrite Hl, Hr. cbn [mbind option_bind].
  assert (GL : is_Some (match leftArc (arcAt d l) with
                        | Some ll =>
                            e1 ← getVertexEvent d 0 l;
                            match leftArc (arcAt d ll) with
                            | Some _ => e2 ← getVertexEvent d 1 ll; Some [e1; e2]
                            | None => Some [e1]
                            end
                        | None => Some []
                        end)).
  { destruct (leftArc (arcAt d l)) as [ll|] eqn:Ell; [| eauto].
    destruct (getVertexEvent_is_Some d 0 l) as [e1 ->]; [rewrite Ell; eauto | eauto |].
    cbn [mbind option_bind].
    destruct (Hsym _ Honl) as [_ HLl]. destruct (HLl _ Ell) as [Honll Hllr].
    destruct (leftArc (arcAt d ll)) as [lll|] eqn:Elll; [| eauto].
    destruct (getVertexEvent_is_Some d 1 ll) as [e2 ->]; [rewrite Elll; eauto | eauto |].
    cbn [mbind option_bind]. eauto. }
  assert (GR : is_Some (match rightArc (arcAt d r) with
                        | Some rr =>
                            e3 ← getVertexEvent d 2 r;
                            match rightArc (arcAt d rr) with
                            | Some _ => e4 ← getVertexEvent d 3 rr; Some [e3; e4]
                            | None => Some [e3]
                            end
                        | None => Some []
                        end)).
  { destruct (rightArc (arcAt d r)) as [rr|] eqn:Err; [| eauto].
    destruct (getVertexEvent_is_Some d 2 r) as [e3 ->]; [eauto | rewrite Err; eauto |].
    cbn [mbind option_bind].
    destruct (Hsym _ Honr) as [HRr _]. destruct (HRr _ Err) as [Honrr Hrrl].
    destruct (rightArc (arcAt d rr)) as [rrr|] eqn:Errr; [| eauto].
    destruct (getVertexEvent_is_Some d 3 rr) as [e4 ->]; [eauto | rewrite Errr; eauto |].
    cbn [mbind option_bind]. eauto. }
  destruct GL as [leftEvents ->]. cbn [mbind option_bind].
  destruct GR as [rightEvents ->]. cbn [mbind option_bind]. eauto.
Qed.

Lemma insertSite_found (d : VoronoiDiagram) (bl : list nat) (site' : Site) (i A : nat) :
  beachline_inv d bl ->
  snd (closestParabola d site') = Some i ->
  containingArc d site' (arcs (activeSites d !!! i)) = Some (Some A) ->
  is_Some (insertSite d site').
Proof.
  intros Hinv Ei Ef. unfold insertSite. rewrite Ei. cbn [mbind option_bind].
  rewrite Ef. cbn [mbind option_bind].
  apply closestParabola_lt in Ei. apply containingArc_elem in Ef.
  assert (HA : A ∈ bl).
  { pose proof (list_lookup_lookup_total_lt _ _ Ei) as Hs.
    by apply (bl_arcs _ _ _ _ Hinv _ _ A Hs) in Ef as [? _]. }
  apply list_elem_of_split in HA as (pre & post & ->).
  destruct (updateBeachLine_split d pre post A site' Hinv) as (dm & -> & Hdm & _).
  set (N := length (arena d)) in *.
  pose proof (bl_linked _ _ _ _ Hdm) as HL. fold (arena dm) in HL.
  replace (pre ++ S N :: N :: S (S N) :: post)
    with ((pre ++ [S N]) ++ N :: S (S N) :: post) in HL by (by rewrite <- app_assoc).
  destruct (linked_at_total dm _ _ _ HL) as [L R]. rewrite last_or_snoc in L. cbn in R.
  destruct (updateVertexEventsForNewSite_is_Some dm _ N Hdm) as [d3 ->];
    [set_solver | rewrite L; eauto | rewrite R; eauto |].
  cbn [mbind option_bind]. eauto.
Qed.

End SearchOnly.

(** *** The search for the closest parabola *)

Section ClosestParabola.
Local Open Scope float_scope.

(** X30: the search for the closest parabola returns the distance of
    the site it chose, and no active site has a distance that is not
    [Infinity] and greater than it. *)
Theorem closestParabola_is_highest (d : VoronoiDiagram) (site' : Site) (i : nat) :
  snd (closestParabola d site') = Some i ->
  let yDist := fun s : ActiveSite =>
                 parabolaPointY (site s) (lineSweepPosition d) (x site') in
  (exists s, activeSites d !! i = Some s /\ fst (closestParabola d site') = yDist s)
  /\ forall j s, activeSites d !! j = Some s ->
       (yDist s =? Infinity) = true \/ gtb (yDist s) (fst (closestParabola d site')) = false.
Proof.
  intros Hi yDist. unfold closestParabola in *.
  match type of Hi with context [foldl ?f _ _] => set (step := f) in * end.
  pose (Inv := fun (pre : list ActiveSite) (st : nat * (float * option nat)) =>
          fst st = length pre
          /\ (forall k, snd (snd st) = Some k ->
                exists s, pre !! k = Some s /\ fst (snd st) = yDist s)
          /\ (forall j s, pre !! j = Some s ->
                (yDist s =? Infinity) = true \/ gtb (yDist s) (fst (snd st)) = false)).
  assert (G : forall l pre st, Inv pre st -> Inv (pre ++ l) (foldl step st l)).
  { induction l as [|s l IH]; intros pre st HI; cbn [foldl].
    - by rewrite app_nil_r.
    - rewrite (cons_middle s pre l), app_assoc. apply IH.
      destruct st as [n [c o]]. destruct HI as (Hn & Ho & Hall). cbn [fst snd] in *.
      subst step. cbn beta iota zeta. fold (yDist s).
      destruct (negb (yDist s =? Infinity) && gtb (yDist s) c) eqn:Ec;
        (split; [cbn [fst]; rewrite length_app; cbn; lia |]); cbn [fst snd]; split.
      + intros k [= <-]. exists s. split; [| reflexivity].
        rewrite Hn. by apply list_lookup_middle.
      + apply andb_true_iff in Ec as [_ Ec]. unfold gtb in Ec.
        intros j s' Hj. apply lookup_app_Some in Hj as [Hj | [_ Hj]].
        * destruct (Hall _ _ Hj) as [Hinf | Hle]; [by left | right].
          unfold gtb in *. destruct (yDist s <? yDist s') eqn:E; [| reflexivity].
          apply ltb_true in Ec, E. rewrite <- Hle. symmetry. apply ltb_true.
          eapply fcompare_Lt_trans; eauto.
        * apply list_lookup_singleton_Some in Hj as [_ <-]. right.
          apply float_ltb_irrefl.
      + intros k Hk. destruct (Ho _ Hk) as (s0 & Hs0 & Hc). exists s0.
        split; [by apply lookup_app_l_Some | exact Hc].
      + intros j s' Hj. apply lookup_app_Some in Hj as [Hj | [_ Hj]]; [eauto |].
        apply list_lookup_singleton_Some in Hj as [_ <-].
        apply andb_false_iff in Ec as [Ec | Ec]; [left | by right].
        by apply negb_false_iff in Ec. }
  specialize (G (activeSites d) [] (0%nat, (neg_infinity, None))).
  cbn [app] in G. destruct G as (_ & Ho & Hall); [repeat split; done |].
  split; [apply Ho, Hi | apply Hall].
Qed.

Lemma closestParabola_is_highest_witness :
  (exists s, activeSites (with_lineSweepPosition 5 seed_start) !! 1%nat = Some s
             /\ fst (closestParabola (with_lineSweepPosition 5 seed_start)
                                     (mkSite 2 (mkCoordinate 8 5)))
                = parabolaPointY (site s) 5 8)
  /\ forall j s, activeSites (with_lineSweepPosition 5 seed_start) !! j = Some s ->
       (parabolaPointY (site s) 5 8 =? Infinity) = true
       \/ gtb (parabolaPointY (site s) 5 8)
              (fst (closestParabola (with_lineSweepPosition 5 seed_start)
                                    (mkSite 2 (mkCoordinate 8 5)))) = false.
Proof.
  apply (closestParabola_is_highest (with_lineSweepPosition 5 seed_start)
           (mkSite 2 (mkCoordinate 8 5)) 1).
  vm_compute. reflexivity.
Defined.

End ClosestParabola.


(** ** The states the engine reaches

    The invariants of the beachline and of the edges, carried along the
    runs of the engine. *)

Section OrderOfSortedArrays.

Lemma same_arcs_refl (l : list ActiveSite) : Forall2 same_arcs l l.
Proof. apply Forall2_same_length_lookup_2; [done |]. intros i s s' H1 H2.
  assert (s = s') as -> by congruence. by split. Qed.

Lemma same_up_to_order_refl (d : VoronoiDiagram) : same_up_to_order d d.
Proof. unfold same_up_to_order. split_and!; try done. apply same_arcs_refl. Qed.

Lemma same_up_to_order_trans (d d1 d2 : VoronoiDiagram) :
  same_up_to_order d d1 -> same_up_to_order d1 d2 -> same_up_to_order d d2.
Proof.
  intros (A1 & B1 & C1 & D1 & E1 & F1 & G1) (A2 & B2 & C2 & D2 & E2 & F2 & G2).
  unfold same_up_to_order. split_and!; try congruence.
  - clear -A1 A2. revert A2. generalize (activeSites d2).
    induction A1 as [|s s1 l l1 [H1 H2] _ IH]; intros l2 A2; inversion A2 as [|? s2 ? ? [H3 H4]];
      subst; constructor; [| by apply IH].
    split; [congruence | by rewrite H2].
  - by rewrite E2.
Qed.

Lemma same_up_to_order_reversed (d : VoronoiDiagram) :
  same_up_to_order d (reversed_queue d).
Proof.
  unfold same_up_to_order, reversed_queue, with_queue.
  cbn [activeSites edges lineSweepPosition queue siteEvents vertexEvents arena eventsAllocated].
  split_and!; try done; [apply same_arcs_refl | apply reverse_Permutation].
Qed.

Lemma same_site_lookup (l l' : list ActiveSite) (i : nat) :
  Forall2 same_arcs l l' -> site (l' !!! i) = site (l !!! i).
Proof.
  intros H. revert i. induction H as [|s s' l l' [Hs _] _ IH]; intros i; [reflexivity |].
  destruct i as [|i]; [done | apply IH].
Qed.

Lemma same_up_to_order_arcSite (d d' : VoronoiDiagram) (a : nat) :
  same_up_to_order d d' -> arcSite d' a = arcSite d a.
Proof.
  intros (A & _ & _ & _ & _ & F & _). unfold arcSite, arcAt. rewrite F.
  by apply same_site_lookup.
Qed.

Lemma same_up_to_order_beachline (d d' : VoronoiDiagram) (bl : list nat) :
  same_up_to_order d d' -> beachline_inv d bl -> beachline_inv d' bl.
Proof.
  intros (A & _ & _ & _ & E & F & _) [N L O AR EV]. unfold beachline_inv. rewrite F.
  split; auto.
  - rewrite <- (Forall2_length _ _ _ A). exact O.
  - intros i s' a Hs'.
    destruct (Forall2_lookup_r _ _ _ _ _ A Hs') as (s & Hs & _ & Hp).
    rewrite <- (AR i s a Hs). by rewrite Hp.
  - intros e He. apply EV. by rewrite <- E.
Qed.

Lemma same_up_to_order_edges_inv (d d' : VoronoiDiagram) (bl : list nat) :
  same_up_to_order d d' -> edges_inv d bl -> edges_inv d' bl.
Proof.
  intros H HE l r Hadj.
  apply (edge_between_transfer d d' l r); try by apply same_up_to_order_arcSite.
  - destruct H as (_ & -> & _). done.
  - by apply HE.
Qed.

End OrderOfSortedArrays.

Section EngineRunFacts.

Lemma engine_start_state (sites : list Site) (d : VoronoiDiagram) :
  engine_start sites d ->
  exists rest second first,
    d = mkVoronoiDiagram
          [mkActiveSite first [1; 2]; mkActiveSite second [0]]
          [mkEdge first second None None]
          0%float
          (mkPriorityQueue rest [])
          [mkParabolaArc 1 (Some 1) (Some 2);
           mkParabolaArc 0 None (Some 0);
           mkParabolaArc 0 (Some 0) None]
          0.
Proof.
  intros (sorted & _ & H). rewrite insertFirstSites_fresh in H.
  destruct (last sorted) as [first|]; cbn [mbind option_bind] in H; [| done].
  destruct (last (removelast sorted)) as [second|]; cbn [mbind option_bind] in H; [| done].
  injection H as <-. eauto.
Qed.

Lemma engine_start_inv (sites : list Site) (d : VoronoiDiagram) :
  engine_start sites d -> beachline_inv d [1; 0; 2] /\ edges_inv d [1; 0; 2].
Proof.
  intros H. destruct (engine_start_state _ _ H) as (rest & second & first & ->). split.
  - unfold beachline_inv. cbn [activeSites arena queue vertexEvents].
    split.
    + repeat constructor; set_solver by lia.
    + cbn. split_and!; try done; eexists; (split; [reflexivity|done]).
    + intros a Ha. assert (a = 1 \/ a = 0 \/ a = 2) as [->|[->| ->]] by set_solver; cbn; lia.
    + intros i s a Hs.
      destruct i as [|[|i]]; cbn in Hs; try done; injection Hs as <-; cbn [arcs]; split.
      * intros Ha. assert (a = 1 \/ a = 2) as [->| ->] by set_solver;
          (split; [set_solver|reflexivity]).
      * intros [Ha Ho].
        assert (a = 1 \/ a = 0 \/ a = 2) as [->|[->| ->]] by set_solver;
          cbn in Ho; try done; set_solver.
      * intros Ha. assert (a = 0) as -> by set_solver. split; [set_solver|reflexivity].
      * intros [Ha Ho].
        assert (a = 1 \/ a = 0 \/ a = 2) as [->|[->| ->]] by set_solver;
          cbn in Ho; try done; set_solver.
    + intros e He. set_solver.
  - intros l r Hadj.
    apply adjacent_cons in Hadj as [[<- [= <-]] | Hadj].
    { apply edge_between_new. cbn. apply list_elem_of_here. }
    apply adjacent_cons in Hadj as [[<- [= <-]] | Hadj].
    { apply edge_between_sym, edge_between_new. cbn. apply list_elem_of_here. }
    apply adjacent_cons in Hadj as [[_ [=]] | Hadj]. by apply adjacent_nil in Hadj.
Qed.

Lemma engine_steps_inv (n : nat) (d d' : VoronoiDiagram) :
  engine_steps n d d' ->
  (exists bl, beachline_inv d bl /\ edges_inv d bl) ->
  exists bl', beachline_inv d' bl' /\ edges_inv d' bl'.
Proof.
  induction 1 as [d | n d d1 d2 d' Hstep Hsame _ IH]; [done |].
  intros (bl & Hb & He). apply IH.
  destruct (computeStep_edges_inv _ _ _ Hb He Hstep) as (bl1 & Hb1 & He1).
  exists bl1. split.
  - by apply (same_up_to_order_beachline d1).
  - by apply (same_up_to_order_edges_inv d1).
Qed.

Lemma reaches_inv (sites : list Site) (n : nat) (d : VoronoiDiagram) :
  reaches sites n d -> exists bl, beachline_inv d bl /\ edges_inv d bl.
Proof.
  intros (d0 & Hstart & Hsteps). apply (engine_steps_inv _ _ _ Hsteps).
  exists [1; 0; 2]. by apply (engine_start_inv sites).
Qed.

(** The runs of [steps] are runs of the engine: the order that
    [Array_sort] leaves is one of the orders. *)
Lemma steps_engine_steps (n : nat) (d d' : VoronoiDiagram) :
  steps n d = Some d' -> engine_steps n d d'.
Proof.
  revert d. induction n as [|n IH]; intros d; cbn [steps].
  - intros [= <-]. constructor.
  - destruct (computeStep d) as [d1|] eqn:E; [|done]. cbn [mbind option_bind].
    intros H. eapply engine_steps_S; [exact E | apply same_up_to_order_refl | by apply IH].
Qed.

Lemma new_VoronoiDiagram_engine_start (sites : list Site) (d : VoronoiDiagram) :
  new_VoronoiDiagram sites = Some d -> engine_start sites d.
Proof.
  intros H. exists (Array_sort sortSites_compare (map mkSiteEvent sites)).
  split; [apply Array_sort_perm | exact H].
Qed.

Lemma steps_reaches (sites : list Site) (n : nat) (d : VoronoiDiagram) :
  new_VoronoiDiagram sites ≫= steps n = Some d -> reaches sites n d.
Proof.
  destruct (new_VoronoiDiagram sites) as [d0|] eqn:E0; [|done]. cbn [mbind option_bind].
  intros H. exists d0. split.
  - by apply new_VoronoiDiagram_engine_start.
  - by apply steps_engine_steps.
Qed.

Lemma engine_steps_reorder (n : nat) (d d1 d2 : VoronoiDiagram) :
  engine_steps (S n) d d1 -> same_up_to_order d1 d2 -> engine_steps (S n) d d2.
Proof.
  revert d. induction n as [|n IH]; intros d H Hsame;
    inversion H as [| ? ? a b ? Hstep Hab Hrest]; subst.
  - inversion Hrest; subst.
    eapply engine_steps_S; [exact Hstep | | constructor].
    by apply (same_up_to_order_trans _ d1).
  - eapply engine_steps_S; [exact Hstep | exact Hab |]. by apply IH.
Qed.

Lemma reaches_reorder (sites : list Site) (n : nat) (d d' : VoronoiDiagram) :
  reaches sites (S n) d -> same_up_to_order d d' -> reaches sites (S n) d'.
Proof.
  intros (d0 & Hstart & Hsteps) Hsame. exists d0. split; [done |].
  by apply (engine_steps_reorder _ _ d).
Qed.

Lemma same_up_to_order_pending (d d' : VoronoiDiagram) :
  same_up_to_order d d' -> pending d' = pending d.
Proof.
  intros (_ & _ & _ & HS & HV & _). unfold pending. by rewrite HS, HV.
Qed.

Lemma engine_steps_pending (n : nat) (d d' : VoronoiDiagram) :
  engine_steps n d d' -> n + pending d' <= pending d.
Proof.
  induction 1 as [d | n d d1 d2 d' Hstep Hsame _ IH]; [lia |].
  apply computeStep_pending in Hstep. apply same_up_to_order_pending in Hsame. lia.
Qed.

Lemma engine_steps_edges (n : nat) (d d' : VoronoiDiagram) :
  engine_steps n d d' -> length (edges d') = length (edges d) + n.
Proof.
  induction 1 as [d | n d d1 d2 d' Hstep Hsame _ IH]; [lia |].
  apply computeStep_edges in Hstep as [new E].
  apply (f_equal length) in E. rewrite length_app, !length_map in E. cbn in E.
  destruct Hsame as (_ & HE & _). rewrite HE in IH. lia.
Qed.

End EngineRunFacts.

Section EngineTheorems.

(** The state [c4_reordered] is reached by five steps on [c4_sites], the
    last one leaving its two vertex events in the other order. *)
Ltac c4_reached :=
  apply (reaches_reorder c4_sites 4 c4_final); [| apply same_up_to_order_reversed];
  apply steps_reaches; vm_compute; reflexivity.

(** C8: link symmetry holds after the bootstrap and after every site
    event and vertex event that follows: in every state the engine
    reaches, whatever order its sorts leave, an arc of the beachline with a
    right neighbour is that neighbour's left neighbour, an arc with a left
    neighbour is that neighbour's right neighbour, and the neighbours are
    arcs of the beachline again. *)
Theorem link_symmetry_invariant (sites : list Site) (n : nat) (d : VoronoiDiagram) :
  reaches sites n d -> link_symmetric d.
Proof.
  intros Hr. destruct (reaches_inv _ _ _ Hr) as (bl & Hinv & _).
  by apply (beachline_link_symmetric d bl).
Qed.

Lemma link_symmetry_invariant_witness : link_symmetric c4_reordered.
Proof.
  apply (link_symmetry_invariant c4_sites 5 c4_reordered).
  apply (reaches_reorder c4_sites 4 c4_final); [| apply same_up_to_order_reversed].
  apply steps_reaches. vm_compute. reflexivity.
Defined.

(** X11: the main loop ends: a run of [n] steps that return uses up at
    least [n] of [pending d], whatever order the sorts leave, so no run
    from [d] has more than [pending d] steps, and one with that many ends
    on an empty queue. *)
Theorem loop_ends_within_pending (n : nat) (d d' : VoronoiDiagram) :
  engine_steps n d d' ->
  n + pending d' <= pending d
  /\ (n = pending d -> isEmpty (queue d') = true).
Proof.
  intros H. pose proof (engine_steps_pending _ _ _ H) as Hle.
  split; [exact Hle |]. intros ->. apply isEmpty_pending. lia.
Qed.

Lemma loop_ends_within_pending_witness :
  1 + pending seed_final <= pending seed_two
  /\ (1 = pending seed_two -> isEmpty (queue seed_final) = true).
Proof.
  apply (loop_ends_within_pending 1 seed_two seed_final).
  apply steps_engine_steps. vm_compute. reflexivity.
Defined.

(** X14: after the constructor and [n] steps there are [n + 1] edges,
    whatever order the sorts leave. *)
Theorem edge_count_after_steps (sites : list Site) (n : nat) (d : VoronoiDiagram) :
  reaches sites n d -> length (edges d) = S n.
Proof.
  intros (d0 & Hstart & Hsteps). rewrite (engine_steps_edges _ _ _ Hsteps).
  destruct (engine_start_state _ _ Hstart) as (rest & second & first & ->). reflexivity.
Qed.

Lemma edge_count_after_steps_witness : length (edges c4_reordered) = 6.
Proof.
  apply (edge_count_after_steps c4_sites 5 c4_reordered).
  apply (reaches_reorder c4_sites 4 c4_final); [| apply same_up_to_order_reversed].
  apply steps_reaches. vm_compute. reflexivity.
Defined.

(** X16: in every state the engine reaches, a queued vertex event names
    three distinct arcs that are on the beachline and adjacent there, in
    that order. *)
Theorem queued_events_name_adjacent_arcs (sites : list Site) (n : nat) (d : VoronoiDiagram)
    (e : VertexEvent) :
  reaches sites n d ->
  e ∈ vertexEvents (queue d) ->
  (on_beachline d (arcs0 e) /\ on_beachline d (arcs1 e) /\ on_beachline d (arcs2 e))
  /\ rightArc (arcAt d (arcs0 e)) = Some (arcs1 e)
  /\ leftArc (arcAt d (arcs1 e)) = Some (arcs0 e)
  /\ rightArc (arcAt d (arcs1 e)) = Some (arcs2 e)
  /\ leftArc (arcAt d (arcs2 e)) = Some (arcs1 e)
  /\ arcs0 e <> arcs1 e /\ arcs1 e <> arcs2 e /\ arcs0 e <> arcs2 e.
Proof.
  intros Hr He. destruct (reaches_inv _ _ _ Hr) as (bl & Hinv & _).
  pose proof (bl_events _ _ _ _ Hinv e He) as Hc.
  destruct (consecutive_elem _ _ _ _ Hc) as (H0 & H1 & H2).
  split; [by rewrite !(beachline_on _ _ _ Hinv) |].
  destruct Hc as (pre & post & ->).
  pose proof (bl_linked _ _ _ _ Hinv) as HL.
  pose proof (bl_nodup _ _ _ _ Hinv) as HN.
  destruct (linked_at_total d pre _ _ HL) as [_ R0].
  replace (pre ++ arcs0 e :: arcs1 e :: arcs2 e :: post)
    with ((pre ++ [arcs0 e]) ++ arcs1 e :: arcs2 e :: post) in HL
    by (by rewrite <- app_assoc).
  destruct (linked_at_total d _ _ _ HL) as [L1 R1]. rewrite last_or_snoc in L1.
  replace ((pre ++ [arcs0 e]) ++ arcs1 e :: arcs2 e :: post)
    with (((pre ++ [arcs0 e]) ++ [arcs1 e]) ++ arcs2 e :: post) in HL
    by (by rewrite <- (app_assoc _ [arcs1 e])).
  destruct (linked_at_total d _ _ _ HL) as [L2 _]. rewrite last_or_snoc in L2.
  split_and!; try done.
  all: apply NoDup_app in HN as (_ & _ & HN);
    apply NoDup_cons in HN as [N0 HN]; apply NoDup_cons in HN as [N1 HN]; set_solver.
Qed.

Lemma queued_events_name_adjacent_arcs_witness :
  (on_beachline c4_reordered (arcs0 c4_event) /\ on_beachline c4_reordered (arcs1 c4_event)
   /\ on_beachline c4_reordered (arcs2 c4_event))
  /\ rightArc (arcAt c4_reordered (arcs0 c4_event)) = Some (arcs1 c4_event)
  /\ leftArc (arcAt c4_reordered (arcs1 c4_event)) = Some (arcs0 c4_event)
  /\ rightArc (arcAt c4_reordered (arcs1 c4_event)) = Some (arcs2 c4_event)
  /\ leftArc (arcAt c4_reordered (arcs2 c4_event)) = Some (arcs1 c4_event)
  /\ arcs0 c4_event <> arcs1 c4_event /\ arcs1 c4_event <> arcs2 c4_event
  /\ arcs0 c4_event <> arcs2 c4_event.
Proof.
  apply (queued_events_name_adjacent_arcs c4_sites 5 c4_reordered c4_event).
  - c4_reached.
  - vm_compute. constructor.
Defined.



(** X18: in every state the engine reaches the beachline is a finite list
    without repetition: from its [i]-th arc, [logBeachLine] goes [i] steps
    to the left and then prints the sites of the whole beachline from left
    to right, and [reverseLogBeachLine] goes the remaining steps to the right
    and prints the same sites in reverse.  Both loops end. *)
Theorem beachline_traversals (sites : list Site) (n : nat) (d : VoronoiDiagram) :
  reaches sites n d ->
  exists bl,
    NoDup bl /\ (forall a, on_beachline d a <-> a ∈ bl)
    /\ forall i a fuel, bl !! i = Some a -> length bl <= fuel ->
         logBeachLine fuel d a = Some (i, map (arcSite d) bl)
         /\ reverseLogBeachLine fuel d a
            = Some (length bl - 1 - i, rev (map (arcSite d) bl)).
Proof.
  intros Hr. destruct (reaches_inv _ _ _ Hr) as (bl & Hinv & _). exists bl.
  split; [apply (bl_nodup _ _ _ _ Hinv) |].
  split; [intros a; apply (beachline_on _ _ _ Hinv) |].
  intros i a fuel Hi Hf.
  pose proof (bl_linked _ _ _ _ Hinv) as HL. fold (arena d) in HL.
  apply list_elem_of_split_length in Hi as (pre & post & -> & ->).
  rewrite length_app in Hf. cbn [length] in Hf.
  unfold logBeachLine, reverseLogBeachLine.
  rewrite (logBeachLine_start_spec d pre post a fuel 0 HL) by lia.
  rewrite (reverseLogBeachLine_start_spec d pre post a fuel 0 HL) by lia.
  cbn [mbind option_bind].
  assert (E1 : Some (default a (head pre)) = hd_or (pre ++ a :: post) None).
  { destruct pre; reflexivity. }
  assert (E2 : Some (default a (last post)) = last_or (pre ++ a :: post) None).
  { unfold last_or. rewrite last_app. cbn [last]. destruct post as [|p post]; [reflexivity |].
    change (last (a :: p :: post)) with (last (p :: post)).
    destruct (last (p :: post)) eqn:E; [reflexivity |]. apply last_None in E. done. }
  rewrite E1, E2.
  rewrite (logBeachLine_sites_spec d [] (pre ++ a :: post) fuel HL)
    by (rewrite length_app; cbn; lia).
  pose proof (reverseLogBeachLine_sites_spec d (pre ++ a :: post) [] fuel) as HR.
  rewrite app_nil_r in HR. rewrite HR by (auto; rewrite length_app; cbn; lia).
  cbn [mbind option_bind]. split; [reflexivity |].
  rewrite length_app. cbn [length]. do 2 f_equal. lia.
Qed.

Lemma beachline_traversals_witness :
  exists bl,
    NoDup bl /\ (forall a, on_beachline c4_reordered a <-> a ∈ bl)
    /\ forall i a fuel, bl !! i = Some a -> length bl <= fuel ->
         logBeachLine fuel c4_reordered a = Some (i, map (arcSite c4_reordered) bl)
         /\ reverseLogBeachLine fuel c4_reordered a
            = Some (length bl - 1 - i, rev (map (arcSite c4_reordered) bl)).
Proof. apply (beachline_traversals c4_sites 5 c4_reordered). c4_reached. Defined.

(** X27: in every state the engine reaches, two neighbouring arcs of the
    beachline have an edge between their sites (in one of the two
    orientations). *)
Theorem neighbours_have_an_edge (sites : list Site) (n : nat) (d : VoronoiDiagram)
    (a r : nat) :
  reaches sites n d ->
  on_beachline d a -> rightArc (arcAt d a) = Some r ->
  exists e, e ∈ edges d /\ getEdge_test (arcSite d a) (arcSite d r) e = true.
Proof.
  intros Hr Hon Hright. destruct (reaches_inv _ _ _ Hr) as (bl & Hinv & HE).
  apply (beachline_on _ _ _ Hinv) in Hon.
  apply list_elem_of_split in Hon as (pre & post & ->).
  destruct (linked_at_total d pre post a (bl_linked _ _ _ _ Hinv)) as [_ R].
  rewrite Hright in R. symmetry in R. apply hd_or_Some in R as [post' ->].
  apply HE, adjacent_middle.
Qed.

Lemma neighbours_have_an_edge_witness :
  exists e, e ∈ edges c4_reordered
            /\ getEdge_test (arcSite c4_reordered 3) (arcSite c4_reordered 10) e = true.
Proof.
  apply (neighbours_have_an_edge c4_sites 5 c4_reordered 3 10).
  - c4_reached.
  - exists 2, (activeSites c4_reordered !!! 2).
    split; [vm_compute; reflexivity | vm_compute; constructor].
  - vm_compute. reflexivity.
Defined.

(** X28: in every state the engine reaches, processing a queued vertex
    event does not throw (the two edges it updates exist), and a step that
    serves a vertex event returns. *)
Theorem vertex_events_never_throw (sites : list Site) (n : nat) (d : VoronoiDiagram) :
  reaches sites n d ->
  (forall e, e ∈ vertexEvents (queue d) -> is_Some (processVertexEvent d e))
  /\ (isSiteEvent (fst (pop (queue d))) = false -> is_Some (computeStep d)).
Proof.
  intros Hr. destruct (reaches_inv _ _ _ Hr) as (bl & Hinv & HE). split.
  - intros e He. destruct (bl_events _ _ _ _ Hinv e He) as (pre & post & ->).
    destruct (processVertexEvent_edges_inv _ pre post e Hinv HE) as (d' & -> & _). eauto.
  - unfold computeStep. destruct (pop (queue d)) as [nextEvent q] eqn:Ep. cbn [fst].
    intros Hv. rewrite Hv.
    assert (HQ : isEmpty (queue d) = false).
    { destruct (isEmpty (queue d)) eqn:HE'; [| done].
      apply pop_drained in HE'. rewrite HE' in Ep. injection Ep as <- <-. done. }
    destruct (pop_cases _ HQ) as [(s & Hres & _) | (v & Hres & Hvq & _)];
      rewrite Ep in Hres; cbn [fst] in Hres; subst nextEvent; [done |].
    cbn [vertexEvent mbind option_bind].
    assert (Hin : v ∈ vertexEvents (queue d)) by (rewrite Hvq; set_solver).
    destruct (bl_events _ _ _ _ Hinv v Hin) as (pre & post & ->).
    set (dq := with_lineSweepPosition _ (with_queue _ d)).
    assert (Hq : beachline_inv dq (pre ++ arcs0 v :: arcs1 v :: arcs2 v :: post)).
    { unfold beachline_inv. subst dq. cbn [with_lineSweepPosition with_queue
        activeSites arena queue].
      apply (beachline_events _ _ _ _ _ Hinv). intros e He. left.
      rewrite Ep in Hvq. cbn [snd] in Hvq. rewrite Hvq. set_solver. }
    destruct (processVertexEvent_edges_inv dq pre post v Hq HE) as (d' & -> & _). eauto.
Qed.

Lemma vertex_events_never_throw_witness :
  (forall e, e ∈ vertexEvents (queue c4_reordered) -> is_Some (processVertexEvent c4_reordered e))
  /\ (isSiteEvent (fst (pop (queue c4_reordered))) = false -> is_Some (computeStep c4_reordered)).
Proof. apply (vertex_events_never_throw c4_sites 5 c4_reordered). c4_reached. Defined.

(** X29: in every state the engine reaches, a step throws only on an
    empty queue or in the search of [insertSite]: no closest parabola is
    found, or the scan of the closest site's arcs throws or finds no arc.
    The split of the arc and the new vertex events never throw. *)
Theorem computeStep_throws_only_in_search (sites : list Site) (n : nat) (d : VoronoiDiagram) :
  reaches sites n d ->
  computeStep d = None ->
  isEmpty (queue d) = true
  \/ exists s,
       fst (pop (queue d)) = mkEventResult true (Some s) None
       /\ let dq := with_lineSweepPosition (y (point s))
                      (with_queue (fun _ => snd (pop (queue d))) d) in
          snd (closestParabola dq (point s)) = None
          \/ exists i, snd (closestParabola dq (point s)) = Some i
                       /\ (containingArc dq (point s) (arcs (activeSites dq !!! i)) = None
                           \/ containingArc dq (point s) (arcs (activeSites dq !!! i))
                              = Some None).
Proof.
  intros Hr Hnone. destruct (reaches_inv _ _ _ Hr) as (bl & Hinv & HE).
  destruct (isEmpty (queue d)) eqn:HQ; [by left | right].
  unfold computeStep in Hnone.
  destruct (pop_cases _ HQ) as [(s & Hres & _ & Hvq) | (v & Hres & Hvq & _)];
    destruct (pop (queue d)) as [nextEvent q] eqn:Ep; cbn [fst snd] in *; subst nextEvent;
    cbn [isSiteEvent siteEvent vertexEvent mbind option_bind] in Hnone.
  - exists s. split; [reflexivity |]. cbn zeta.
    set (dq := with_lineSweepPosition _ (with_queue _ d)) in *.
    assert (Hq : beachline_inv dq bl).
    { unfold beachline_inv. subst dq. cbn [with_lineSweepPosition with_queue
        activeSites arena queue].
      apply (beachline_events _ _ _ _ _ Hinv). intros e He. left. by rewrite <- Hvq. }
    destruct (snd (closestParabola dq (point s))) as [i|] eqn:Ei; [right | by left].
    exists i. split; [reflexivity |].
    destruct (containingArc dq (point s) (arcs (activeSites dq !!! i))) as [[A|]|] eqn:Ef; auto.
    destruct (insertSite_found dq bl (point s) i A Hq Ei Ef) as [d' Hd']. congruence.
  - exfalso.
    assert (Hin : v ∈ vertexEvents (queue d)) by (rewrite Hvq; set_solver).
    destruct (bl_events _ _ _ _ Hinv v Hin) as (pre & post & ->).
    set (dq := with_lineSweepPosition _ (with_queue _ d)) in *.
    assert (Hq : beachline_inv dq (pre ++ arcs0 v :: arcs1 v :: arcs2 v :: post)).
    { unfold beachline_inv. subst dq. cbn [with_lineSweepPosition with_queue
        activeSites arena queue].
      apply (beachline_events _ _ _ _ _ Hinv). intros e He. left.
      rewrite Hvq. set_solver. }
    destruct (processVertexEvent_edges_inv dq pre post v Hq HE) as (d' & Hd' & _).
    congruence.
Qed.

Lemma computeStep_throws_only_in_search_witness :
  isEmpty (queue row_start) = true
  \/ exists s,
       fst (pop (queue row_start)) = mkEventResult true (Some s) None
       /\ let dq := with_lineSweepPosition (y (point s))
                      (with_queue (fun _ => snd (pop (queue row_start))) row_start) in
          snd (closestParabola dq (point s)) = None
          \/ exists i, snd (closestParabola dq (point s)) = Some i
                       /\ (containingArc dq (point s) (arcs (activeSites dq !!! i)) = None
                           \/ containingArc dq (point s) (arcs (activeSites dq !!! i))
                              = Some None).
Proof.
  apply (computeStep_throws_only_in_search row_sites 0 row_start).
  - apply steps_reaches. vm_compute. reflexivity.
  - vm_compute. reflexivity.
Defined.

End EngineTheorems.
